(** * Policy map state of an endpoint: a shallow embedding

    The Go package [policy] keeps, per endpoint, an indexed container
    ([mapState]) of policy-map keys and entries, inserts into it with
    precedence for deny entries and propagation of authentication types,
    records incremental changes in a [ChangeState] so that a batch can be
    reverted, and the endpoint reconciles the result with the external
    (kernel) policy map.

    Go maps are finite maps ([gmap]) and Go sets finite sets ([gset]); a
    Go map handle that is shared is modelled by a single value threaded
    through the calls.  Where Go ranges over a map the enumeration order of
    [map_to_list] / [elements] stands for the unspecified order, except in
    the reconciler, which is stated for every enumeration order.  Log calls
    do not change any state; they are kept where a function does nothing
    else before proceeding ([insert], [get]). *)

From Stdlib Require Import NArith Lia.
From Stdlib Require Import Ascii.
From Stdlib Require DecimalString DecimalN DecimalPos.
From stdpp Require Import gmap strings list fin_maps sorting functions.

#[local] Set Warnings "-clear-no-such-hyp".

Open Scope N_scope.

(** ** Keys *)

Inductive TrafficDirection := Ingress | Egress.

(** Modelled from the spec: the type [policyTypes.LPMKey] is not part of
    the sources at hand.  A key carries a direction, an 8-bit protocol
    ([0] is the wildcard), a 16-bit destination port ([0] is the wildcard)
    and the number of significant bits of that port. *)
Record LPMKey := mkLPMKey {
  Direction : TrafficDirection;
  Nexthdr : N;
  DestPort : N;
  PortPrefixLen : N
}.

(** Modelled from the spec: [policyTypes.Key], an [LPMKey] and a numeric
    identity, [0] being the wildcard identity. *)
Record Key := mkKey {
  LPM : LPMKey;
  Identity : N
}.

Definition WithIdentity (k : Key) (id : N) : Key := mkKey (LPM k) id.

Definition IngressKey : Key := mkKey (mkLPMKey Ingress 0 0 0) 0.
Definition EgressKey : Key := mkKey (mkLPMKey Egress 0 0 0) 0.

Definition allKey (d : TrafficDirection) : Key :=
  match d with Ingress => IngressKey | Egress => EgressKey end.

#[global] Instance TrafficDirection_eq_dec : EqDecision TrafficDirection.
Proof. solve_decision. Defined.

#[global] Instance TrafficDirection_countable : Countable TrafficDirection.
Proof.
  apply (inj_countable' (λ d, match d with Ingress => false | Egress => true end)
                        (λ b : bool, if b then Egress else Ingress)).
  by intros [].
Defined.

#[global] Instance LPMKey_eq_dec : EqDecision LPMKey.
Proof. solve_decision. Defined.

#[global] Instance LPMKey_countable : Countable LPMKey.
Proof.
  apply (inj_countable'
           (λ k, (Direction k, Nexthdr k, DestPort k, PortPrefixLen k))
           (λ t, match t with (d, p, q, l) => mkLPMKey d p q l end)).
  by intros [].
Defined.

#[global] Instance Key_eq_dec : EqDecision Key.
Proof. solve_decision. Defined.

#[global] Instance Key_countable : Countable Key.
Proof.
  apply (inj_countable' (λ k, (LPM k, Identity k))
                        (λ t, match t with (l, i) => mkKey l i end)).
  by intros [].
Defined.

(** Modelled from the spec: the prefix length of a key for the LPM order is
    the number of its significant bits.  The direction (1 bit) is always
    significant.  The protocol [0] is the wildcard: none of the bits of the
    protocol and of the port is significant then.  Otherwise the protocol
    (8 bits) and the bits of the port prefix are. *)
Definition PrefixLength (k : LPMKey) : N :=
  if Nexthdr k =? 0 then 1 else 9 + PortPrefixLen k.

(** Modelled from the spec: the number of bits of
    (direction || protocol || port), the longest prefix of the trie. *)
Definition MapStatePrefixLen : N := 25.

(** The 25 bits (direction || protocol || port) of a key. *)
Definition keyBits (k : LPMKey) : N :=
  N.lor (N.shiftl (match Direction k with Ingress => 0 | Egress => 1 end) 24)
        (N.lor (N.shiftl (N.land (Nexthdr k) 255) 16) (N.land (DestPort k) 65535)).

(** Modelled from the spec: [a] is a prefix-ancestor of [b] (broader or
    equal port/proto) when the significant bits of [a] are a prefix of the
    significant bits of [b]. *)
Definition isPrefixOf (a b : LPMKey) : bool :=
  (PrefixLength a <=? PrefixLength b) &&
  (N.shiftr (keyBits a) (MapStatePrefixLen - PrefixLength a) =?
   N.shiftr (keyBits b) (MapStatePrefixLen - PrefixLength a)).

(** Modelled from the spec: [Key.PortProtoIsEqual]. *)
Definition PortProtoIsEqual (a b : Key) : bool :=
  (Nexthdr (LPM a) =? Nexthdr (LPM b)) &&
  (DestPort (LPM a) =? DestPort (LPM b)) &&
  (PortPrefixLen (LPM a) =? PortPrefixLen (LPM b)).

(** ** Entries *)

(** The fields [HasAuthType] and [AuthType] of an entry are named [HasAuth]
    and [AuthTy] here, their names being those of their types. *)
Inductive HasAuthType := DefaultAuthType | ExplicitAuthType.

#[global] Instance HasAuthType_eq_dec : EqDecision HasAuthType.
Proof. solve_decision. Defined.

Definition AuthType := N.
Definition AuthTypeDisabled : AuthType := 0.

Record MapStateEntry := mkMapStateEntry {
  Listener : string;
  ProxyPort : N;
  IsDeny : bool;
  HasAuth : HasAuthType;
  AuthTy : AuthType
}.

#[global] Instance MapStateEntry_eq_dec : EqDecision MapStateEntry.
Proof. solve_decision. Defined.

(** Modelled from the spec: a [labels.LabelArray] is a labelled rule
    identifier; a [LabelArrayList] is a list of them kept in sorted order. *)
Definition LabelArray := string.
Definition LabelArrayList := list LabelArray.

(** Modelled from the spec: owners are abstract handles (selectors).
    [MapStateOwner] is an interface type: a value of it is nil ([None]) or
    a handle. *)
Definition MapStateOwner := option N.

Record mapStateEntry := mkmapStateEntry {
  Exported : MapStateEntry;
  priority : N;
  derivedFromRules : LabelArrayList;
  owners : gset MapStateOwner
}.

#[global] Instance mapStateEntry_eq_dec : EqDecision mapStateEntry.
Proof. solve_decision. Defined.

(** ** The indexed container *)

Definition IDSet := gset N.

Record mapState := mkMapState {
  entries : gmap Key mapStateEntry;
  trie : gmap LPMKey IDSet
}.

Definition newMapState : mapState := mkMapState ∅ ∅.

Definition Lookup (ms : mapState) (k : Key) : option mapStateEntry :=
  entries ms !! k.

Definition Len (ms : mapState) : nat := size (entries ms).

Definition Empty (ms : mapState) : bool := bool_decide (Len ms = 0%nat).

(** [upsert]: the entry is written; for a new key the identity is added
    to the identity set of the leaf of the key's prefix, the leaf being
    created when it is missing.  The identity set is a Go map, shared
    with the trie, so that the addition is visible in the trie. *)
Definition upsert (k : Key) (e : mapStateEntry) (ms : mapState) : mapState :=
  match entries ms !! k with
  | Some _ => mkMapState (<[k := e]> (entries ms)) (trie ms)
  | None =>
      let idSet := match trie ms !! LPM k with
                   | Some s => s
                   | None => ∅
                   end in
      mkMapState (<[k := e]> (entries ms))
                 (<[LPM k := {[Identity k]} ∪ idSet]> (trie ms))
  end.

(** [delete]: an existing key is removed; its identity is removed from the
    identity set of its leaf and the leaf is removed when the set becomes
    empty. *)
Definition delete_key (k : Key) (ms : mapState) : mapState :=
  match entries ms !! k with
  | Some _ =>
      let es := delete k (entries ms) in
      match trie ms !! LPM k with
      | Some idSet =>
          let idSet' := idSet ∖ {[Identity k]} in
          if decide (size idSet' = 0%nat)
          then mkMapState es (delete (LPM k) (trie ms))
          else mkMapState es (<[LPM k := idSet']> (trie ms))
      | None => mkMapState es (trie ms)
      end
  | None => ms
  end.

(** ** Construction, comparison and merging of entries *)

Definition unrealizedRedirectPort : N := 65535.

(** Modelled from the spec: [set.NewSet] of an owner is the set with
    that one member, also when the owner is nil: the entry is sticky then,
    as no owner that is withdrawn later empties its set of owners. *)
Definition NewSet (cs : MapStateOwner) : gset MapStateOwner := {[cs]}.

Definition newMapStateEntry (cs : MapStateOwner) (derivedFrom : LabelArrayList)
    (proxyPort : N) (listener : string) (prio : N) (deny : bool)
    (hasAuth : HasAuthType) (authType : AuthType) : mapStateEntry :=
  let '(listener, prio) :=
    if proxyPort =? 0 then (EmptyString, 0)
    else if prio =? 0 then (listener, proxyPort)
    else (listener, prio) in
  mkmapStateEntry (mkMapStateEntry listener proxyPort deny hasAuth authType)
                  prio derivedFrom (NewSet cs).

Definition toMapStateEntry (e : MapStateEntry) (prio : N)
    (cs : MapStateOwner) (derivedFrom : LabelArrayList) : mapStateEntry :=
  let '(listener, prio) :=
    if ProxyPort e =? 0 then (EmptyString, 0)
    else if prio =? 0 then (Listener e, ProxyPort e)
    else (Listener e, prio) in
  mkmapStateEntry
    (mkMapStateEntry listener (ProxyPort e) (IsDeny e) (HasAuth e) (AuthTy e))
    prio derivedFrom (NewSet cs).

Definition IsRedirectEntry (e : MapStateEntry) : bool := negb (ProxyPort e =? 0).

(** [MapStateEntry.Equal]: equality from the point of view of the datapath. *)
Definition Equal (e o : MapStateEntry) : bool :=
  bool_decide (IsDeny e = IsDeny o) && (ProxyPort e =? ProxyPort o) &&
  (AuthTy e =? AuthTy o).

Definition deepEqual (e o : mapStateEntry) : bool :=
  Equal (Exported e) (Exported o) &&
  bool_decide (Listener (Exported e) = Listener (Exported o)) &&
  (priority e =? priority o) &&
  bool_decide (derivedFromRules e = derivedFromRules o) &&
  bool_decide (owners e = owners o).

(** Modelled from the spec: [LabelArrayList.MergeSorted], the merge of two
    sorted lists without repeating an element present in both. *)
Fixpoint MergeSorted (a : LabelArrayList) : LabelArrayList → LabelArrayList :=
  fix inner (b : LabelArrayList) : LabelArrayList :=
    match a, b with
    | [], _ => b
    | _, [] => a
    | x :: a', y :: b' =>
        match String.compare x y with
        | Eq => x :: MergeSorted a' b'
        | Lt => x :: MergeSorted a' b
        | Gt => y :: inner b'
        end
    end.

Definition withProxy (e : MapStateEntry) (port : N) (listener : string) : MapStateEntry :=
  mkMapStateEntry listener port (IsDeny e) (HasAuth e) (AuthTy e).

Definition withAuth (e : MapStateEntry) (h : HasAuthType) (a : AuthType) : MapStateEntry :=
  mkMapStateEntry (Listener e) (ProxyPort e) (IsDeny e) h a.

Definition WithAuthType (e : MapStateEntry) (a : AuthType) : MapStateEntry :=
  withAuth e (HasAuth e) a.

(** The proxy-redirect part of [merge]: the fields [ProxyPort], [Listener]
    and [priority] of [e] after merging [entry] into it. *)
Definition mergeProxy (e entry : mapStateEntry) : MapStateEntry * N :=
  if IsRedirectEntry (Exported entry) &&
     (negb (IsRedirectEntry (Exported e)) ||
      (priority entry <? priority e) ||
      ((priority entry =? priority e) &&
       (ProxyPort (Exported entry) <? ProxyPort (Exported e))))
  then (withProxy (Exported e) (ProxyPort (Exported entry)) (Listener (Exported entry)),
        priority entry)
  else (Exported e, priority e).

(** The authentication part of [merge]. *)
Definition mergeAuth (e entry : MapStateEntry) : MapStateEntry :=
  match HasAuth entry, HasAuth e with
  | ExplicitAuthType, ExplicitAuthType =>
      if AuthTy e <? AuthTy entry then withAuth e (HasAuth e) (AuthTy entry) else e
  | ExplicitAuthType, DefaultAuthType => withAuth e ExplicitAuthType (AuthTy entry)
  | DefaultAuthType, DefaultAuthType => withAuth e (HasAuth e) (AuthTy entry)
  | DefaultAuthType, ExplicitAuthType => e
  end.

(** [merge]: the receiver [e] after merging [entry] into it. *)
Definition merge (e entry : mapStateEntry) : mapStateEntry :=
  if negb (bool_decide (IsDeny (Exported e) = IsDeny (Exported entry))) then e
  else
    let '(x, prio) :=
      if negb (IsDeny (Exported e)) then
        let '(x1, prio1) := mergeProxy e entry in
        (mergeAuth x1 (Exported entry), prio1)
      else (Exported e, priority e) in
    mkmapStateEntry x prio
      (if (0 <? length (derivedFromRules entry))%nat
       then MergeSorted (derivedFromRules e) (derivedFromRules entry)
       else derivedFromRules e)
      (owners e ∪ owners entry).

(** ** Logging, [get] and [insert] *)

Inductive LogEvent :=
| ErrInvalidPortPrefix (where_ : string) (k : Key).

Definition invalidWildcardPort (k : Key) : bool :=
  (DestPort (LPM k) =? 0) && (0 <? PortPrefixLen (LPM k)).

Definition get (ms : mapState) (k : Key) : list LogEvent * option mapStateEntry :=
  (if invalidWildcardPort k then [ErrInvalidPortPrefix "mapState.Get" k] else [],
   Lookup ms k).

Definition Get (ms : mapState) (k : Key) : option MapStateEntry :=
  Exported <$> (get ms k).2.

Definition insert (k : Key) (v : mapStateEntry) (ms : mapState)
  : list LogEvent * mapState :=
  (if invalidWildcardPort k then [ErrInvalidPortPrefix "mapState.insert" k] else [],
   upsert k v ms).

(** [updateExisting]: the entry is rewritten, the indices are not updated. *)
Definition updateExisting (k : Key) (v : mapStateEntry) (ms : mapState) : mapState :=
  mkMapState (<[k := v]> (entries ms)) (trie ms).

(** ** Change tracking *)

(** The three Go maps of a [ChangeState]; [None] is the nil map. *)
Record ChangeState := mkChangeState {
  Adds : option (gset Key);
  Deletes : option (gset Key);
  old : option (gmap Key mapStateEntry)
}.

Definition inKeys (k : Key) (ks : option (gset Key)) : bool :=
  match ks with Some s => bool_decide (k ∈ s) | None => false end.

Definition insertOldIfNotExists (key : Key) (entry : mapStateEntry)
    (changes : ChangeState) : bool * ChangeState :=
  match old changes with
  | None => (false, changes)
  | Some o =>
      match o !! key with
      | Some _ => (false, changes)
      | None =>
          if inKeys key (Adds changes) then (false, changes)
          else (true, mkChangeState (Adds changes) (Deletes changes)
                                    (Some (<[key := entry]> o)))
      end
  end.

Definition addKeyWithChanges (key : Key) (entry : mapStateEntry)
    (changes : ChangeState) (ms : mapState) : bool * mapState * ChangeState :=
  let record (exists_ datapathEqual : bool) (ms' : mapState) (ch : ChangeState) :=
    match Adds ch with
    | Some a =>
        if negb exists_ || negb datapathEqual
        then (true, ms', mkChangeState (Some ({[key]} ∪ a))
                           (match Deletes ch with
                            | Some d => Some (d ∖ {[key]})
                            | None => None
                            end)
                           (old ch))
        else (true, ms', ch)
    | None => (true, ms', ch)
    end in
  match (get ms key).2 with
  | Some oldEntry =>
      if bool_decide (IsDeny (Exported oldEntry) = IsDeny (Exported entry)) then
        if deepEqual entry oldEntry then (false, ms, changes)
        else
          let ch := (insertOldIfNotExists key oldEntry changes).2 in
          let datapathEqual := Equal (Exported oldEntry) (Exported entry) in
          record true datapathEqual (updateExisting key (merge oldEntry entry) ms) ch
      else if IsDeny (Exported entry) then
        record true false (insert key entry ms).2 changes
      else (false, ms, changes)
  | None => record false false (insert key entry ms).2 changes
  end.

Definition deleteKeyWithChanges (key : Key) (owner : MapStateOwner)
    (changes : ChangeState) (ms : mapState) : mapState * ChangeState :=
  match (get ms key).2 with
  | Some entry =>
      let '(oldAdded, ch) := insertOldIfNotExists key entry changes in
      let remove (ch : ChangeState) :=
        (delete_key key ms,
         match Deletes ch with
         | Some d =>
             mkChangeState (match Adds ch with
                            | Some a => Some (a ∖ {[key]})
                            | None => None
                            end)
                           (Some ({[key]} ∪ d)) (old ch)
         | None => ch
         end) in
      match owner with
      | Some _ =>
          if bool_decide (owner ∈ owners entry) then
            let owners' := owners entry ∖ {[owner]} in
            if (0 <? size owners')%nat then
              (updateExisting key
                 (mkmapStateEntry (Exported entry) (priority entry)
                                  (derivedFromRules entry) owners') ms, ch)
            else remove ch
          else
            (ms, if oldAdded
                 then mkChangeState (Adds ch) (Deletes ch) (delete key <$> old ch)
                 else ch)
      | None => remove ch
      end
  | None => (ms, changes)
  end.

(** [revertChanges]: every added key is deleted, then every old value is
    inserted again. *)
Definition revertChanges (changes : ChangeState) (ms : mapState) : mapState :=
  let ms1 := foldl (λ m k, delete_key k m) ms
                   (match Adds changes with Some a => elements a | None => [] end) in
  foldl (λ m kv, (insert kv.1 kv.2 m).2) ms1
        (match old changes with Some o => map_to_list o | None => [] end).

(** ** Trie iterators

    Modelled from the spec: the trie ([bitlpm.Trie]) is not part of the
    sources at hand.  A leaf is identified by the identity-less key it was
    created for and carries the identity set of that prefix.  The ancestor
    iterators yield the leaves whose prefix is a prefix of the key, the
    descendant iterators the leaves of which the key is a prefix; the
    ordered variants yield longest prefix first and shortest prefix first.

    The Go iterators are lazy.  A loop body only removes or rewrites the
    key it was just handed, and the source relies on the iterators to
    survive that; so the trie positions visited are those of the trie at
    loop entry, while the entry of a key is read from the map when the key
    is visited ([forKey]). *)

Definition AncestorIterator (t : gmap LPMKey IDSet) (key : LPMKey)
  : list (LPMKey * IDSet) :=
  filter (λ p, Is_true (isPrefixOf p.1 key)) (map_to_list t).

Definition DescendantIterator (t : gmap LPMKey IDSet) (key : LPMKey)
  : list (LPMKey * IDSet) :=
  filter (λ p, Is_true (isPrefixOf key p.1)) (map_to_list t).

Definition shorterPrefix (a b : LPMKey * IDSet) : Prop :=
  PrefixLength a.1 ≤ PrefixLength b.1.

Definition longerPrefix (a b : LPMKey * IDSet) : Prop :=
  PrefixLength b.1 ≤ PrefixLength a.1.

#[global] Instance shorterPrefix_dec : RelDecision shorterPrefix.
Proof. intros a b. unfold shorterPrefix. apply _. Defined.

#[global] Instance longerPrefix_dec : RelDecision longerPrefix.
Proof. intros a b. unfold longerPrefix. apply _. Defined.

Definition AncestorLongestPrefixFirstIterator (t : gmap LPMKey IDSet) (key : LPMKey)
  : list (LPMKey * IDSet) :=
  merge_sort longerPrefix (AncestorIterator t key).

Definition DescendantShortestPrefixFirstIterator (t : gmap LPMKey IDSet) (key : LPMKey)
  : list (LPMKey * IDSet) :=
  merge_sort shorterPrefix (DescendantIterator t key).

(** [forKey]: the entry of a key handed to a loop body, read when the key
    is visited; a key without entry is logged and skipped. *)
Definition forKey (ms : mapState) (k : Key) : option mapStateEntry :=
  entries ms !! k.

(** [forID]: [k] is visited when its identity is in the identity set. *)
Definition forID (k : Key) (idSet : IDSet) : list Key :=
  if decide (Identity k ∈ idSet) then [k] else [].

(** [forIDs]: the keys of all identities of the set are visited. *)
Definition forIDs (k : Key) (idSet : IDSet) : list Key :=
  WithIdentity k <$> elements idSet.

(** The keys visited by [BroaderOrEqualKeys]. *)
Definition BroaderOrEqualKeys (ms : mapState) (key : Key) : list Key :=
  AncestorIterator (trie ms) (LPM key) ≫= λ p,
    let k := mkKey p.1 0 in
    forID (WithIdentity k 0) p.2 ++
    (if negb (Identity key =? 0) then forID (WithIdentity k (Identity key)) p.2
     else []).

(** The keys visited by [NarrowerOrEqualKeys]. *)
Definition NarrowerOrEqualKeys (ms : mapState) (key : Key) : list Key :=
  DescendantIterator (trie ms) (LPM key) ≫= λ p,
    let k := mkKey p.1 0 in
    if Identity key =? 0 then forIDs k p.2
    else forID (WithIdentity k (Identity key)) p.2.

(** The keys visited by [CoveringKeysWithSameID]. *)
Definition CoveringKeysWithSameID (ms : mapState) (key : Key) : list Key :=
  AncestorLongestPrefixFirstIterator (trie ms) (LPM key) ≫= λ p,
    let k := mkKey p.1 0 in
    if negb (PortProtoIsEqual k key) then forID (WithIdentity k (Identity key)) p.2
    else [].

(** The keys visited by [SubsetKeysWithSameID]. *)
Definition SubsetKeysWithSameID (ms : mapState) (key : Key) : list Key :=
  DescendantShortestPrefixFirstIterator (trie ms) (LPM key) ≫= λ p,
    let k := mkKey p.1 0 in
    if negb (PortProtoIsEqual k key) then forID (WithIdentity k (Identity key)) p.2
    else [].

(** ** The precedence engine *)

Inductive policyFeature := denyRules | redirectRules | authRules.

#[global] Instance policyFeature_eq_dec : EqDecision policyFeature.
Proof. solve_decision. Defined.

Definition policyFeatures := list policyFeature.

Definition allFeatures : policyFeatures := [denyRules; redirectRules; authRules].

Definition contains (features : policyFeatures) (f : policyFeature) : bool :=
  bool_decide (f ∈ features).

(** A Go function either returns or panics. *)
Inductive result (A : Type) :=
| Ok (a : A)
| Panic (msg : string).
Arguments Ok {A} a.
Arguments Panic {A} msg.

(** The first loop of [denyPreferredInsertWithChanges]: is the new key
    covered by a deny key other than the identical deny key? *)
Fixpoint coveredByDeny (ms : mapState) (newKey : Key) (newEntry : mapStateEntry)
    (ks : list Key) : bool :=
  match ks with
  | [] => false
  | k :: ks' =>
      match forKey ms k with
      | Some v =>
          if IsDeny (Exported v) &&
             negb (IsDeny (Exported newEntry) && bool_decide (k = newKey))
          then true
          else coveredByDeny ms newKey newEntry ks'
      | None => coveredByDeny ms newKey newEntry ks'
      end
  end.

(** The second loop: the covered entries are deleted. *)
Fixpoint deleteCovered (newKey : Key) (ks : list Key)
    (changes : ChangeState) (ms : mapState) : mapState * ChangeState :=
  match ks with
  | [] => (ms, changes)
  | k :: ks' =>
      match forKey ms k with
      | Some v =>
          if negb (IsDeny (Exported v) && bool_decide (k = newKey)) then
            let '(ms', ch') := deleteKeyWithChanges k None changes ms in
            deleteCovered newKey ks' ch' ms'
          else deleteCovered newKey ks' changes ms
      | None => deleteCovered newKey ks' changes ms
      end
  end.

(** The assignment [v.AuthType = a] to an internal entry. *)
Definition setAuthType (v : mapStateEntry) (a : AuthType) : mapStateEntry :=
  mkmapStateEntry (WithAuthType (Exported v) a)
                  (priority v) (derivedFromRules v) (owners v).

Definition overrideAuthType (newEntry : mapStateEntry) (k : Key) (v : mapStateEntry)
    (changes : ChangeState) (ms : mapState) : mapState * ChangeState :=
  let ch := (insertOldIfNotExists k v changes).2 in
  let v' := setAuthType v (AuthTy (Exported newEntry)) in
  (mkMapState (<[k := v']> (entries ms)) (trie ms), ch).
Arguments overrideAuthType : simpl never.

(** The loop of [authPreferredInsert] for an entry with default auth type:
    the auth type of the most specific covering key with an explicit one. *)
Fixpoint coveringAuthType (ms : mapState) (newEntry : mapStateEntry)
    (ks : list Key) : result mapStateEntry :=
  match ks with
  | [] => Ok newEntry
  | k :: ks' =>
      match forKey ms k with
      | Some v =>
          if IsDeny (Exported v) then Panic "covering deny key should not exist"
          else if bool_decide (HasAuth (Exported v) = ExplicitAuthType) then
            Ok (setAuthType newEntry (AuthTy (Exported v)))
          else coveringAuthType ms newEntry ks'
      | None => coveringAuthType ms newEntry ks'
      end
  end.

(** The loop of [authPreferredInsert] for an entry with explicit auth type:
    the auth type is propagated to the subset keys with default auth type,
    up to the first one that is deny or has an explicit auth type. *)
Fixpoint propagateAuthType (newEntry : mapStateEntry) (ks : list Key)
    (changes : ChangeState) (ms : mapState) : mapState * ChangeState :=
  match ks with
  | [] => (ms, changes)
  | k :: ks' =>
      match forKey ms k with
      | Some v =>
          if IsDeny (Exported v) || bool_decide (HasAuth (Exported v) = ExplicitAuthType)
          then (ms, changes)
          else
            let '(ms', ch') := overrideAuthType newEntry k v changes ms in
            propagateAuthType newEntry ks' ch' ms'
      | None => propagateAuthType newEntry ks' changes ms
      end
  end.

Definition authPreferredInsert (newKey : Key) (newEntry : mapStateEntry)
    (changes : ChangeState) (ms : mapState) : result (mapState * ChangeState) :=
  if bool_decide (HasAuth (Exported newEntry) = DefaultAuthType) then
    match coveringAuthType ms newEntry (CoveringKeysWithSameID ms newKey) with
    | Ok newEntry' =>
        let '(_, ms', ch') := addKeyWithChanges newKey newEntry' changes ms in
        Ok (ms', ch')
    | Panic msg => Panic msg
    end
  else
    let '(ms1, ch1) :=
      propagateAuthType newEntry (SubsetKeysWithSameID ms newKey) changes ms in
    let '(_, ms', ch') := addKeyWithChanges newKey newEntry ch1 ms1 in
    Ok (ms', ch').

Definition denyPreferredInsertWithChanges (newKey : Key) (newEntry : mapStateEntry)
    (features : policyFeatures) (changes : ChangeState) (ms : mapState)
  : result (mapState * ChangeState) :=
  if coveredByDeny ms newKey newEntry (BroaderOrEqualKeys ms newKey) then
    Ok (ms, changes)
  else if IsDeny (Exported newEntry) then
    let '(ms1, ch1) :=
      deleteCovered newKey (NarrowerOrEqualKeys ms newKey) changes ms in
    let '(_, ms', ch') := addKeyWithChanges newKey newEntry ch1 ms1 in
    Ok (ms', ch')
  else if contains features authRules then
    authPreferredInsert newKey newEntry changes ms
  else
    let '(_, ms', ch') := addKeyWithChanges newKey newEntry changes ms in
    Ok (ms', ch').

Definition insertWithChanges (key : Key) (entry : mapStateEntry)
    (features : policyFeatures) (changes : ChangeState) (ms : mapState)
  : result (mapState * ChangeState) :=
  denyPreferredInsertWithChanges key entry features changes ms.

(** [allowAllIdentities] writes with [upsert], without the precedence
    engine. *)
Definition allowAllIdentities (ingress egress : bool) (ms : mapState) : mapState :=
  let ms1 :=
    if ingress
    then upsert (allKey Ingress)
           (newMapStateEntry None ["allow-any-ingress"] 0 "" 0 false
                             ExplicitAuthType AuthTypeDisabled) ms
    else ms in
  if egress
  then upsert (allKey Egress)
         (newMapStateEntry None ["allow-any-egress"] 0 "" 0 false
                           ExplicitAuthType AuthTypeDisabled) ms1
  else ms1.

(** ** Comparison with an exported map *)

Abbreviation MapStateMap := (gmap Key MapStateEntry).

(** [mapState.Equals]: the same number of keys, and every key of the map
    state has an [Equal] entry in the exported map. *)
Definition Equals (msA : mapState) (msB : MapStateMap) : bool :=
  bool_decide (Len msA = size msB) &&
  forallb (λ kv : Key * mapStateEntry,
             match msB !! kv.1 with
             | Some vB => Equal vB (Exported kv.2)
             | None => false
             end)
          (map_to_list (entries msA)).

(** ** The reconciler of the endpoint

    The external policy map is known by the operations issued to it, in
    order, and by the error each of them returns.  A Go map is a reference:
    the argument [realized] of [syncPolicyMapWith] may or may not be the
    endpoint's own realized map, so the maps live in a store and are named
    by references. *)

Record MapChange := mkMapChange {
  Add : bool;
  ChangeKey : Key;
  ChangeValue : MapStateEntry
}.

Inductive PolicyMapOp :=
| DenyKey (k : Key)
| AllowKey (k : Key) (explicitAuth : bool) (authType : N) (proxyPort : N)
| DeleteKey (k : Key).

Definition opKey (op : PolicyMapOp) : Key :=
  match op with
  | DenyKey k | AllowKey k _ _ _ | DeleteKey k => k
  end.

Definition isWrite (op : PolicyMapOp) : bool :=
  match op with DeleteKey _ => false | _ => true end.

Definition isDelete (op : PolicyMapOp) : bool :=
  match op with DeleteKey _ => true | _ => false end.

Inductive PolicyMapError := ENOENT | OtherError.

Abbreviation MapRef := nat.

(** The endpoint: the map state of its desired policy, to which [ForEach]
    and [Get] of the desired policy go, and the reference of the map
    [realizedPolicy.mapStateMap]. *)
Record Endpoint := mkEndpoint {
  desiredPolicy : mapState;
  realizedMapStateMap : MapRef
}.

(** The exported maps by reference, and the operations issued to the
    external policy map so far, oldest first. *)
Record World := mkWorld {
  store : MapRef → MapStateMap;
  policyMapOps : list PolicyMapOp
}.

Definition zeroMapStateEntry : MapStateEntry :=
  mkMapStateEntry "" 0 false DefaultAuthType 0.

Section Reconciler.
(** The error returned by the external map for an operation, given the
    operations issued before it. *)
Variable policyMapErr : list PolicyMapOp → PolicyMapOp → option PolicyMapError.
(** The order in which Go ranges over a map. *)
Variable rangeOrder : ∀ V : Type, gmap Key V → list (Key * V).

Definition writeMap (r : MapRef) (k : Key) (v : MapStateEntry) (w : World) : World :=
  mkWorld (<[r := <[k := v]> (store w r)]> (store w)) (policyMapOps w).

Definition deleteMap (r : MapRef) (k : Key) (w : World) : World :=
  mkWorld (<[r := delete k (store w r)]> (store w)) (policyMapOps w).

Definition issue (op : PolicyMapOp) (w : World) : option PolicyMapError * World :=
  (policyMapErr (policyMapOps w) op, mkWorld (store w) (policyMapOps w ++ [op])).

(** The write that [addPolicyKey] issues for an entry. *)
Definition policyMapWrite (keyToAdd : Key) (entry : MapStateEntry) : PolicyMapOp :=
  if IsDeny entry then DenyKey keyToAdd
  else AllowKey keyToAdd (bool_decide (HasAuth entry = ExplicitAuthType))
                (AuthTy entry) (ProxyPort entry).

Definition addPolicyKey (e : Endpoint) (keyToAdd : Key) (entry : MapStateEntry)
    (w : World) : bool * World :=
  let '(err, w1) := issue (policyMapWrite keyToAdd entry) w in
  match err with
  | Some _ => (false, w1)
  | None => (true, writeMap (realizedMapStateMap e) keyToAdd entry w1)
  end.

Definition deletePolicyKey (e : Endpoint) (keyToDelete : Key) (w : World)
  : bool * World :=
  let '(err, w1) := issue (DeleteKey keyToDelete) w in
  match err with
  | Some OtherError => (false, w1)
  | _ =>
      match store w1 (realizedMapStateMap e) !! keyToDelete with
      | Some _ => (true, deleteMap (realizedMapStateMap e) keyToDelete w1)
      | None => (true, w1)
      end
  end.

(** The condition [!ok || !oldEntry.Equal(&entry)] of the first loop. *)
Definition differs (realized : MapStateMap) (keyToAdd : Key) (entry : MapStateEntry)
  : bool :=
  match realized !! keyToAdd with
  | Some oldEntry => negb (Equal oldEntry entry)
  | None => true
  end.

(** The local variables of [syncPolicyMapWith]. *)
Record SyncState := mkSyncState {
  world : World;
  errors : nat;
  diffCount : nat;
  diffs : list MapChange
}.

Definition syncAdd (e : Endpoint) (realized : MapRef) (withDiffs : bool)
    (st : SyncState) (kv : Key * mapStateEntry) : SyncState :=
  let keyToAdd := kv.1 in
  let entry := Exported kv.2 in
  if differs (store (world st) realized) keyToAdd entry then
    let w1 := writeMap realized keyToAdd entry (world st) in
    let '(ok, w2) := addPolicyKey e keyToAdd entry w1 in
    mkSyncState w2 (if ok then errors st else S (errors st))
                (S (diffCount st))
                (if withDiffs then diffs st ++ [mkMapChange true keyToAdd entry]
                 else diffs st)
  else st.

Definition syncDelete (e : Endpoint) (realized : MapRef) (withDiffs : bool)
    (st : SyncState) (keyToDelete : Key) : SyncState :=
  match Get (desiredPolicy e) keyToDelete with
  | Some _ => st
  | None =>
      let w1 := deleteMap realized keyToDelete (world st) in
      let '(ok, w2) := deletePolicyKey e keyToDelete w1 in
      mkSyncState w2 (if ok then errors st else S (errors st))
                  (S (diffCount st))
                  (if withDiffs
                   then diffs st ++ [mkMapChange false keyToDelete zeroMapStateEntry]
                   else diffs st)
  end.

(** [syncPolicyMapWith]: the world afterwards, and the returned diff
    count, diffs and error flag. *)
Definition syncPolicyMapWith (e : Endpoint) (realized : MapRef) (withDiffs : bool)
    (w : World) : World * (nat * list MapChange * bool) :=
  let st1 := foldl (syncAdd e realized withDiffs) (mkSyncState w 0 0 [])
                   (rangeOrder _ (entries (desiredPolicy e))) in
  let st2 := foldl (syncDelete e realized withDiffs) st1
                   ((rangeOrder _ (store (world st1) realized)).*1) in
  (world st2, (diffCount st2, diffs st2, bool_decide (0 < errors st2)%nat)).
End Reconciler.

(** Trie/map consistency (invariant I1). *)
Definition trie_consistent (ms : mapState) : Prop :=
  (∀ k, is_Some (entries ms !! k) ↔
        ∃ ids, trie ms !! LPM k = Some ids ∧ Identity k ∈ ids) ∧
  (∀ l ids, trie ms !! l = Some ids → ids ≠ ∅).

(** A sequence of primitive mutations. *)
Inductive MapOp :=
| OpUpsert (k : Key) (e : mapStateEntry)
| OpDelete (k : Key).

Definition applyOp (ms : mapState) (op : MapOp) : mapState :=
  match op with
  | OpUpsert k e => upsert k e ms
  | OpDelete k => delete_key k ms
  end.

Definition applyOps (ops : list MapOp) (ms : mapState) : mapState :=
  foldl applyOp ms ops.

(** The change state of a new batch, as [consumeMapChanges] makes it. *)
Definition newChangeState : ChangeState :=
  mkChangeState (Some ∅) (Some ∅) (Some ∅).

(** The fourth scenario: into one change state, on a new map state, add
    [K1], add [K2], delete [K1] unconditionally. *)
Definition batchAddAddDelete (K1 : Key) (e1 : mapStateEntry) (K2 : Key)
    (e2 : mapStateEntry) : mapState * ChangeState :=
  let '(_, ms1, ch1) := addKeyWithChanges K1 e1 newChangeState newMapState in
  let '(_, ms2, ch2) := addKeyWithChanges K2 e2 ch1 ms1 in
  deleteKeyWithChanges K1 None ch2 ms2.

(** ** What [revertChanges] would restore

    The entry that [revertChanges] leaves at a key, given the entries of
    the map state: the recorded old value, else nothing for an added key,
    else the present entry. *)
Definition revertView (ch : ChangeState) (es : gmap Key mapStateEntry) (k : Key)
  : option mapStateEntry :=
  match old ch ≫= (.!! k) with
  | Some v => Some v
  | None => if inKeys k (Adds ch) then None else es !! k
  end.

(** A change state that records additions and old values. *)
Definition tracked (ch : ChangeState) : Prop :=
  is_Some (Adds ch) ∧ is_Some (old ch).

(** The old value of a key is recorded, or the key was added. *)
Definition pinned (ch : ChangeState) (k : Key) : Prop :=
  is_Some (old ch ≫= (.!! k)) ∨ inKeys k (Adds ch) = true.

(** Deny dominance (invariant I2): no allow entry is shadowed by a deny
    entry of broader or equal prefix with the same or the wildcard
    identity. *)
Definition deny_dominance (ms : mapState) : Prop :=
  ∀ a va d vd,
    entries ms !! a = Some va → IsDeny (Exported va) = false →
    entries ms !! d = Some vd → IsDeny (Exported vd) = true →
    isPrefixOf (LPM d) (LPM a) = true →
    (Identity d = Identity a ∨ Identity d = 0) → False.

(** The keys and entries of the scenarios. *)
Definition tcp : N := 6.
Definition keyA : Key := mkKey (mkLPMKey Ingress tcp 80 16) 10.
Definition keyD : Key := mkKey (mkLPMKey Ingress tcp 0 0) 0.
Definition keyA2 : Key := mkKey (mkLPMKey Ingress tcp 0 0) 10.
(** An L3-only key: ingress, identity 10, any protocol and port. *)
Definition keyL3 : Key := WithIdentity IngressKey 10.
Definition allowEntry : mapStateEntry :=
  newMapStateEntry None [] 0 "" 0 false DefaultAuthType AuthTypeDisabled.
Definition denyEntry : mapStateEntry :=
  newMapStateEntry None [] 0 "" 0 true DefaultAuthType AuthTypeDisabled.

(** Two insertions in a row, into one change state. *)
Definition insertTwice (k1 : Key) (e1 : mapStateEntry) (k2 : Key) (e2 : mapStateEntry)
    (features : policyFeatures) (ms : mapState) : result (mapState * ChangeState) :=
  match insertWithChanges k1 e1 features newChangeState ms with
  | Ok (ms1, ch1) => insertWithChanges k2 e2 features ch1 ms1
  | Panic msg => Panic msg
  end.

(** A batch of engine operations recorded into one change state. *)
Inductive BatchOp :=
| BatchInsert (key : Key) (entry : mapStateEntry) (features : policyFeatures)
| BatchDelete (key : Key) (owner : MapStateOwner).

Fixpoint applyBatch (ops : list BatchOp) (changes : ChangeState) (ms : mapState)
  : result (mapState * ChangeState) :=
  match ops with
  | [] => Ok (ms, changes)
  | BatchInsert key entry features :: ops' =>
      match insertWithChanges key entry features changes ms with
      | Ok (ms', changes') => applyBatch ops' changes' ms'
      | Panic msg => Panic msg
      end
  | BatchDelete key owner :: ops' =>
      let '(ms', changes') := deleteKeyWithChanges key owner changes ms in
      applyBatch ops' changes' ms'
  end.

(** The order of a shortest-prefix-first walk. *)
Definition shorterKey (a b : Key) : Prop :=
  PrefixLength (LPM a) ≤ PrefixLength (LPM b).

(** ** Definitions for the further properties *)

(** ** Broader and narrower port/proto, field by field *)

(** The fields of a key are within their widths: the protocol is an 8-bit
    and the port a 16-bit number, and at most 16 bits of the port are
    significant. *)
Definition validLPMKey (k : LPMKey) : Prop :=
  Nexthdr k < 256 ∧ DestPort k < 65536 ∧ PortPrefixLen k ≤ 16.

(** The port/proto of [a] is broader than or equal to that of [b]: the
    directions are the same, and either [a] has the wildcard protocol (an
    L3-only key), or the protocols are the same and the port range of [a]
    contains that of [b], that is [a] has no more significant port bits
    than [b] and the ports agree on the significant bits of [a]. *)
Definition portProtoCovers (a b : LPMKey) : Prop :=
  Direction a = Direction b ∧
  (Nexthdr a = 0 ∨
   (Nexthdr a = Nexthdr b ∧ PortPrefixLen a ≤ PortPrefixLen b ∧
    DestPort a / 2 ^ (16 - PortPrefixLen a)
    = DestPort b / 2 ^ (16 - PortPrefixLen a))).

(** The bit of a direction. *)
Definition dirBit (d : TrafficDirection) : N :=
  match d with Ingress => 0 | Egress => 1 end.

(** [forEach] and [ForEach] for a callback without effects: the callback
    is called for the entries of the map state until it returns false, and
    the result tells whether it never did. *)
Definition forEach (f : Key → mapStateEntry → bool) (msm : mapState) : bool :=
  forallb (λ kv : Key * mapStateEntry, f kv.1 kv.2) (map_to_list (entries msm)).

Definition ForEach (f : Key → MapStateEntry → bool) (msm : mapState) : bool :=
  forallb (λ kv : Key * mapStateEntry, f kv.1 (Exported kv.2))
          (map_to_list (entries msm)).

(** [mapStateEntry.DatapathAndDerivedFromEqual]. *)
Definition DatapathAndDerivedFromEqual (e o : mapStateEntry) : bool :=
  bool_decide (IsDeny (Exported e) = IsDeny (Exported o)) &&
  (ProxyPort (Exported e) =? ProxyPort (Exported o)) &&
  (AuthTy (Exported e) =? AuthTy (Exported o)) &&
  bool_decide (derivedFromRules e = derivedFromRules o).

(** [mapState.equalsWithLabels]. *)
Definition equalsWithLabels (msA msB : mapState) : bool :=
  bool_decide (Len msA = Len msB) &&
  forEach (λ kA vA, match (get msB kA).2 with
                    | Some vB => DatapathAndDerivedFromEqual vB vA
                    | None => false
                    end) msA.

(** [mapState.Equal], the comparison of two map states. *)
Definition mapState_Equal (msA msB : mapState) : bool :=
  bool_decide (Len msA = Len msB) &&
  forEach (λ kA vA, match (get msB kA).2 with
                    | Some vB => deepEqual vB vA
                    | None => false
                    end) msA.

(** The record of an incremental add in a change state: the key is added
    to [Adds] and removed from [Deletes], where these are not nil. *)
Definition recordAdd (key : Key) (ch : ChangeState) : ChangeState :=
  match Adds ch with
  | Some a =>
      mkChangeState (Some ({[key]} ∪ a))
                    (match Deletes ch with
                     | Some d => Some (d ∖ {[key]})
                     | None => None
                     end)
                    (old ch)
  | None => ch
  end.

(** The record of an incremental delete: the key is added to [Deletes]
    and removed from [Adds], where these are not nil. *)
Definition recordDelete (key : Key) (ch : ChangeState) : ChangeState :=
  match Deletes ch with
  | Some d =>
      mkChangeState (match Adds ch with
                     | Some a => Some (a ∖ {[key]})
                     | None => None
                     end)
                    (Some ({[key]} ∪ d)) (old ch)
  | None => ch
  end.

(** What [newMapStateEntry] establishes about redirection: an entry that
    does not redirect has neither a listener nor a priority, and an entry
    that redirects has a priority. *)
Definition redirect_wf (e : mapStateEntry) : Prop :=
  if IsRedirectEntry (Exported e) then priority e ≠ 0
  else Listener (Exported e) = EmptyString ∧ priority e = 0.

(** The entries that a batch inserts. *)
Definition batchEntries (ops : list BatchOp) : list mapStateEntry :=
  ops ≫= λ op, match op with
               | BatchInsert _ entry _ => [entry]
               | BatchDelete _ _ => []
               end.

(** The old value of [key] needs no recording any more. *)
Definition settled (key : Key) (ch : ChangeState) : Prop :=
  match old ch with
  | Some o => is_Some (o !! key) ∨ inKeys key (Adds ch) = true
  | None => True
  end.

(** ** The elementary steps of the precedence engine

    Every change that the engine makes to a map state and a change state
    is made by [addKeyWithChanges], by [deleteKeyWithChanges] or by
    [overrideAuthType] on an allow entry with default auth type. *)
Inductive EngineStep :=
| StepAdd (k : Key) (e : mapStateEntry)
| StepDelete (k : Key) (owner : MapStateOwner)
| StepAuth (k : Key) (a : AuthType).

Definition runStep (st : mapState * ChangeState) (s : EngineStep)
  : mapState * ChangeState :=
  match s with
  | StepAdd k e =>
      let '(_, ms', ch') := addKeyWithChanges k e st.2 st.1 in (ms', ch')
  | StepDelete k owner => deleteKeyWithChanges k owner st.2 st.1
  | StepAuth k a =>
      match forKey st.1 k with
      | Some v =>
          if IsDeny (Exported v) || bool_decide (HasAuth (Exported v) = ExplicitAuthType)
          then st
          else overrideAuthType (setAuthType v a) k v st.2 st.1
      | None => st
      end
  end.

Definition runSteps (tr : list EngineStep) (st : mapState * ChangeState)
  : mapState * ChangeState :=
  foldl runStep st tr.

(** The steps that one insertion may take. *)
Definition insertStep (ms : mapState) (key : Key) (entry : mapStateEntry)
    (features : policyFeatures) (s : EngineStep) : Prop :=
  match s with
  | StepAdd k e =>
      k = key ∧ (e = entry ∨
                 ∃ a, e = setAuthType entry a ∧ IsDeny (Exported entry) = false ∧
                      HasAuth (Exported entry) = DefaultAuthType ∧
                      contains features authRules = true)
  | StepDelete k owner =>
      owner = None ∧ IsDeny (Exported entry) = true ∧ k ∈ NarrowerOrEqualKeys ms key
  | StepAuth k a =>
      a = AuthTy (Exported entry) ∧ IsDeny (Exported entry) = false ∧
      HasAuth (Exported entry) = ExplicitAuthType ∧
      contains features authRules = true ∧ k ∈ SubsetKeysWithSameID ms key
  end.

(** The steps that a batch may take. *)
Definition batchStep (ops : list BatchOp) (s : EngineStep) : Prop :=
  match s with
  | StepAdd k e =>
      ∃ entry, entry ∈ batchEntries ops ∧ (e = entry ∨ ∃ a, e = setAuthType entry a)
  | StepDelete k owner => True
  | StepAuth k a =>
      ∃ key entry features,
        BatchInsert key entry features ∈ ops ∧
        contains features authRules = true ∧
        IsDeny (Exported entry) = false ∧
        HasAuth (Exported entry) = ExplicitAuthType
  end.

(** The keys recorded as added are in the map and the keys recorded as
    deleted are not. *)
Definition changes_sound (ms : mapState) (ch : ChangeState) : Prop :=
  ∃ a d, Adds ch = Some a ∧ Deletes ch = Some d ∧
         (∀ k, k ∈ a → is_Some (Lookup ms k)) ∧
         (∀ k, k ∈ d → Lookup ms k = None).

(** Two optional entries between which the datapath sees no difference:
    both absent, or both present and [Equal]. *)
Definition datapathEq (x y : option mapStateEntry) : Prop :=
  match x, y with
  | Some v, Some w => Equal (Exported v) (Exported w) = true
  | None, None => True
  | _, _ => False
  end.

(** No insertion of the batch propagates an auth type: none inserts an
    allow entry with explicit auth type under the auth feature. *)
Definition noAuthPropagation (ops : list BatchOp) : Prop :=
  ∀ key entry features,
    BatchInsert key entry features ∈ ops →
    contains features authRules = true →
    IsDeny (Exported entry) = false →
    HasAuth (Exported entry) = DefaultAuthType.

(** The order of a longest-prefix-first walk. *)
Definition longerKey (a b : Key) : Prop :=
  PrefixLength (LPM b) ≤ PrefixLength (LPM a).

(** The map state of the scenarios with the allow entry [A] and, at the
    port/proto wildcard with the identity of [A], an allow entry that
    requires authentication. *)
Definition redirectEntry : mapStateEntry :=
  newMapStateEntry (Some 1) [] 8080 "L1" 0 false DefaultAuthType AuthTypeDisabled.
Definition explicitEntry : mapStateEntry :=
  newMapStateEntry None [] 0 "" 0 false ExplicitAuthType 2.
Definition stateA : mapState := upsert keyA allowEntry newMapState.
Definition stateAD : mapState := upsert keyD denyEntry stateA.
(** The map state with [A] and an L3-only deny entry of its identity. *)
Definition stateAL : mapState := upsert keyL3 denyEntry stateA.

(** ** Proxy identifiers

    The Go standard library is not part of the sources.  [%d] of an
    unsigned integer prints its decimal digits; [strings.Split] by a
    one-character separator cuts the string at every occurrence of it, an
    empty string giving one empty component; [strconv.ParseUint] in base
    10 with 16 bits accepts a non-empty string of decimal digits whose
    value is at most 65535, and returns a syntax or a range error
    otherwise. *)
Definition formatUint (n : N) : string :=
  DecimalString.NilZero.string_of_uint (N.to_uint n).

Fixpoint Split (s : string) (sep : ascii) : list string :=
  match s with
  | EmptyString => [EmptyString]
  | String c s' =>
      if Ascii.eqb c sep then EmptyString :: Split s' sep
      else match Split s' sep with
           | x :: xs => String c x :: xs
           | [] => [String c EmptyString]
           end
  end.

Inductive NumError := ErrSyntax | ErrRange.

Definition ParseUint16 (s : string) : N + NumError :=
  match DecimalString.NilZero.uint_of_string s with
  | Some d => if N.of_uint d <=? 65535 then inl (N.of_uint d) else inr ErrRange
  | None => inr ErrSyntax
  end.

(** [strings.Contains] for a one-character string. *)
Fixpoint Contains (s : string) (c : ascii) : bool :=
  match s with
  | EmptyString => false
  | String c' s' => Ascii.eqb c' c || Contains s' c
  end.

(** [ProxyStatsKey]: the key of the proxy statistics of an endpoint. *)
Definition ProxyStatsKey (ingress : bool) (protocol : string) (port proxyPort : N)
  : string :=
  let direction := if ingress then "ingress" else "egress" in
  direction +:+ ":" +:+ protocol +:+ ":" +:+ formatUint port +:+ ":" +:+
  formatUint proxyPort.

(** [ProxyID]: the string that identifies a proxy mapping. *)
Definition ProxyID (endpointID : N) (ingress : bool) (protocol : string) (port : N)
    (listener : string) : string :=
  let direction := if ingress then "ingress" else "egress" in
  formatUint endpointID +:+ ":" +:+ direction +:+ ":" +:+ protocol +:+ ":" +:+
  formatUint port +:+ ":" +:+ listener.

(** The error of [ParseProxyID]: the error made with [fmt.Errorf], or
    the error of [strconv.ParseUint]. *)
Inductive ProxyIDError :=
| InvalidProxyIDStructure (proxyID : string)
| ParseUintError (e : NumError).

(** [ParseProxyID]: the results [endpointID], [ingress], [protocol],
    [port], [listener] and [err]; the results not yet assigned when the
    function returns are zero. *)
Definition ParseProxyID (proxyID : string)
  : N * bool * string * N * string * option ProxyIDError :=
  match Split proxyID ":"%char with
  | [c0; c1; c2; c3; c4] =>
      match ParseUint16 c0 with
      | inr e => (0, false, EmptyString, 0, EmptyString, Some (ParseUintError e))
      | inl epID =>
          let ingress := String.eqb c1 "ingress" in
          match ParseUint16 c3 with
          | inr e => (epID, ingress, c2, 0, EmptyString, Some (ParseUintError e))
          | inl l4port => (epID, ingress, c2, l4port, c4, None)
          end
      end
  | _ => (0, false, EmptyString, 0, EmptyString,
          Some (InvalidProxyIDStructure proxyID))
  end.

(** ** The queue of incremental changes

    A [mapChange] adds or deletes a key on behalf of the owners of its
    value. *)
Record mapChange := mkmapChange {
  mcAdd : bool;
  mcKey : Key;
  mcValue : mapStateEntry
}.

(** [MapChanges]: the changes accumulated (the field [changes], here
    [pending]), the changes synced and the handle on the version of the
    selector cache they belong to.  The package [versioned] is not part of
    the sources: a version is a number and a handle is the number of the
    version it keeps. *)
Record MapChanges := mkMapChanges {
  firstVersion : N;
  pending : list mapChange;
  synced : list mapChange;
  version : option N
}.

(** The part of an [EndpointPolicy] that [consumeMapChanges] uses: the ID
    of the policy owner, the proxy ports of the realized redirects by
    proxy ID, and the policy map state. *)
Record EndpointPolicy := mkEndpointPolicy {
  policyOwnerID : N;
  Redirects : gmap string N;
  policyMapState : mapState
}.

(** [AccumulateMapChanges]: for every added identity and then for every
    deleted identity, a change for each key with that identity. *)
Definition AccumulateMapChanges (adds deletes : list N) (keys : list Key)
    (value : mapStateEntry) (mc : MapChanges) : MapChanges :=
  let forIdentities (add : bool) (ids : list N) :=
    ids ≫= λ id, (λ k, mkmapChange add (WithIdentity k id) value) <$> keys in
  mkMapChanges (firstVersion mc)
               (pending mc ++ forIdentities true adds ++ forIdentities false deletes)
               (synced mc) (version mc).

Section MapChangesQueue.
(** [txn.After] and [txn.GetVersionHandle] of a transaction of the
    selector cache. *)
Variable Tx : Type.
Variable After : Tx → N → bool.
Variable GetVersionHandle : Tx → N.
(** The name of a protocol number, [u8proto.U8proto.String]. *)
Variable u8protoString : N → string.

(** [SyncMapChanges]: the accumulated changes become synced, unless the
    transaction is not after the first version; none stays accumulated. *)
Definition SyncMapChanges (txn : Tx) (mc : MapChanges) : MapChanges :=
  if (0 <? length (pending mc))%nat then
    if After txn (firstVersion mc)
    then mkMapChanges (firstVersion mc) [] (synced mc ++ pending mc)
                      (Some (GetVersionHandle txn))
    else mkMapChanges (firstVersion mc) [] (synced mc) (version mc)
  else mkMapChanges (firstVersion mc) [] (synced mc) (version mc).

(** [ProxyIDFromKey]. *)
Definition ProxyIDFromKey (endpointID : N) (key : Key) (listener : string) : string :=
  ProxyID endpointID (bool_decide (Direction (LPM key) = Ingress))
          (u8protoString (Nexthdr (LPM key))) (DestPort (LPM key)) listener.

(** Modelled from the spec: [owners.Get] returns the sole owner of the
    value of a change, and nil when there is none. *)
Definition ownersGet (s : gset MapStateOwner) : MapStateOwner :=
  match elements s with o :: _ => o | [] => None end.

(** The entry that [consumeMapChanges] inserts for an added entry: an
    unrealized redirect gets the proxy port of its redirect, and is skipped
    when there is none. *)
Definition realizedEntry (p : EndpointPolicy) (key : Key) (entry : mapStateEntry)
  : option mapStateEntry :=
  if ProxyPort (Exported entry) =? unrealizedRedirectPort then
    match Redirects p !! ProxyIDFromKey (policyOwnerID p `mod` 65536) key
                                         (Listener (Exported entry)) with
    | Some port =>
        Some (mkmapStateEntry
                (withProxy (Exported entry) port (Listener (Exported entry)))
                (priority entry) (derivedFromRules entry) (owners entry))
    | None => None
    end
  else Some entry.

(** The loop of [consumeMapChanges] over the synced changes. *)
Fixpoint consumeSynced (p : EndpointPolicy) (features : policyFeatures)
    (l : list mapChange) (changes : ChangeState) (ms : mapState)
  : result (mapState * ChangeState) :=
  match l with
  | [] => Ok (ms, changes)
  | c :: l' =>
      if mcAdd c then
        match realizedEntry p (mcKey c) (mcValue c) with
        | Some entry =>
            match insertWithChanges (mcKey c) entry features changes ms with
            | Ok (ms', changes') => consumeSynced p features l' changes' ms'
            | Panic msg => Panic msg
            end
        | None => consumeSynced p features l' changes ms
        end
      else
        let cs := ownersGet (owners (mcValue c)) in
        let '(ms', changes') := deleteKeyWithChanges (mcKey c) cs changes ms in
        consumeSynced p features l' changes' ms'
  end.

(** [consumeMapChanges]: the queue and the endpoint policy afterwards,
    and the version handle and the change state that are returned. *)
Definition consumeMapChanges (mc : MapChanges) (p : EndpointPolicy)
    (features : policyFeatures)
  : result (MapChanges * EndpointPolicy * (option N * ChangeState)) :=
  match consumeSynced p features (synced mc) newChangeState (policyMapState p) with
  | Ok (ms', changes') =>
      Ok (mkMapChanges (firstVersion mc) (pending mc) [] None,
          mkEndpointPolicy (policyOwnerID p) (Redirects p) ms',
          (version mc, changes'))
  | Panic msg => Panic msg
  end.

(** The batch of engine operations that the synced changes amount to. *)
Definition syncedOps (p : EndpointPolicy) (features : policyFeatures)
    (l : list mapChange) : list BatchOp :=
  l ≫= λ c,
    if mcAdd c then
      match realizedEntry p (mcKey c) (mcValue c) with
      | Some entry => [BatchInsert (mcKey c) entry features]
      | None => []
      end
    else [BatchDelete (mcKey c) (ownersGet (owners (mcValue c)))].
End MapChangesQueue.

(** The batch of engine operations for the identities added and deleted:
    for every added identity and key an insertion, then for every deleted
    identity and key a deletion on behalf of the sole owner of the value. *)
Definition identityOps (adds deletes : list N) (keys : list Key)
    (value : mapStateEntry) (features : policyFeatures) : list BatchOp :=
  (adds ≫= λ id, (λ k, BatchInsert (WithIdentity k id) value features) <$> keys) ++
  (deletes ≫= λ id,
     (λ k, BatchDelete (WithIdentity k id) (ownersGet (owners value))) <$> keys).

(** ** Incremental updates of the external policy map

    [applyPolicyMapChanges] first consumes the map changes of the desired
    policy, which gives the change state and leaves the desired policy
    updated, and tells the proxy about the network policy; neither touches
    the external policy map or the realized map.  What follows is the part
    after that: nothing is written for an endpoint without policy map or
    with a new policy, for which a full sync follows; otherwise the added
    keys are written and then the deleted keys are deleted. *)
(** Whether an operation on the external policy map counts as failed:
    a delete of a key that is not there does not. *)
Definition opFailed (op : PolicyMapOp) (err : option PolicyMapError) : bool :=
  match err, op with
  | None, _ => false
  | Some ENOENT, DeleteKey _ => false
  | Some _, _ => true
  end.

Section IncrementalUpdate.
Variable policyMapErr : list PolicyMapOp → PolicyMapOp → option PolicyMapError.
(** The order in which Go ranges over a set of keys. *)
Variable rangeKeys : gset Key → list Key.

(** The keys of a map of keys that may be nil. *)
Definition keysOf (ks : option (gset Key)) : gset Key :=
  match ks with Some s => s | None => ∅ end.

(** The body of the loop over [changes.Adds]: the world and the number of
    errors so far. *)
Definition applyAdd (e : Endpoint) (st : World * nat) (keyToAdd : Key) : World * nat :=
  match Get (desiredPolicy e) keyToAdd with
  | Some entry =>
      let '(ok, w') := addPolicyKey policyMapErr e keyToAdd entry st.1 in
      (w', if ok then st.2 else S st.2)
  | None => st
  end.

(** The body of the loop over [changes.Deletes]. *)
Definition applyDelete (e : Endpoint) (st : World * nat) (keyToDelete : Key)
  : World * nat :=
  let '(ok, w') := deletePolicyKey policyMapErr e keyToDelete st.1 in
  (w', if ok then st.2 else S st.2).

(** [applyPolicyMapChanges]: the world afterwards and whether an error is
    returned. *)
Definition applyPolicyMapChanges (e : Endpoint) (skipBPFPolicy hasNewPolicy : bool)
    (changes : ChangeState) (w : World) : World * bool :=
  if skipBPFPolicy then (w, false)
  else if hasNewPolicy then (w, false)
  else
    let st1 := foldl (applyAdd e) (w, 0%nat) (rangeKeys (keysOf (Adds changes))) in
    let st2 := foldl (applyDelete e) st1 (rangeKeys (keysOf (Deletes changes))) in
    (st2.1, bool_decide (0 < st2.2)%nat).

(** The number of operations that fail when issued in a row after the
    operations [hist]. *)
Fixpoint failedOps (hist ops : list PolicyMapOp) : nat :=
  match ops with
  | [] => 0
  | op :: ops' =>
      ((if opFailed op (policyMapErr hist op) then 1 else 0)
       + failedOps (hist ++ [op]) ops')%nat
  end.
End IncrementalUpdate.

(** The operation on the external policy map that a change reported by
    [syncPolicyMapWith] stands for. *)
Definition changeOp (c : MapChange) : PolicyMapOp :=
  if Add c then policyMapWrite (ChangeKey c) (ChangeValue c)
  else DeleteKey (ChangeKey c).

(** A change that [syncPolicyMapWith] may report for an endpoint: the
    addition of a key of the desired policy with its entry, or the deletion
    of a key that the desired policy does not have, with the zero entry. *)
Definition changeOf (e : Endpoint) (c : MapChange) : Prop :=
  if Add c then Get (desiredPolicy e) (ChangeKey c) = Some (ChangeValue c)
  else Get (desiredPolicy e) (ChangeKey c) = None ∧ ChangeValue c = zeroMapStateEntry.

(** What the local variables of [syncPolicyMapWith] hold after the
    changes [cs], started in the world [w0]. *)
Definition sync_inv
    (policyMapErr : list PolicyMapOp → PolicyMapOp → option PolicyMapError)
    (e : Endpoint) (w0 : World) (wd : bool) (cs : list MapChange)
    (st : SyncState) : Prop :=
  policyMapOps (world st) = policyMapOps w0 ++ (changeOp <$> cs) ∧
  errors st = failedOps policyMapErr (policyMapOps w0) (changeOp <$> cs) ∧
  diffCount st = length cs ∧
  diffs st = (if wd then cs else []) ∧
  Forall (changeOf e) cs.

(** ** The localhost entry

    The numeric identity of the local host, [identity.ReservedIdentityHost],
    and the option [AlwaysAllowLocalhost] are not part of the sources: the
    identity is a variable and the option an argument. *)
Section Localhost.
Variable ReservedIdentityHost : N.

Definition localHostKey : Key := WithIdentity IngressKey ReservedIdentityHost.

(** The entry that [determineAllowLocalhostIngress] inserts. *)
Definition localHostEntry : mapStateEntry :=
  newMapStateEntry None ["allow-localhost-ingress"] 0 "" 0 false
                   ExplicitAuthType AuthTypeDisabled.

(** [determineAllowLocalhostIngress]: the insertion is made with the zero
    [ChangeState], whose maps are nil. *)
Definition determineAllowLocalhostIngress (alwaysAllowLocalhost : bool)
    (ms : mapState) : result mapState :=
  if alwaysAllowLocalhost then
    match insertWithChanges localHostKey localHostEntry allFeatures
            (mkChangeState None None None) ms with
    | Ok (ms', _) => Ok ms'
    | Panic msg => Panic msg
    end
  else Ok ms.
End Localhost.

(** A deny entry of the map state covers the key: its port/proto is
    broader or equal and its identity is the wildcard or that of the key. *)
Definition deniedByCovering (ms : mapState) (key : Key) : Prop :=
  ∃ k v, Lookup ms k = Some v ∧ IsDeny (Exported v) = true ∧
         isPrefixOf (LPM k) (LPM key) = true ∧
         (Identity k = 0 ∨ Identity k = Identity key).

(** The scenarios of the further properties: an allow entry that is an
    unrealized redirect, the change state that adds [D] and deletes [A],
    the world in which every map holds [A], and the map state with [D]
    alone. *)
Definition unrealizedEntry : mapStateEntry :=
  newMapStateEntry (Some 1) [] unrealizedRedirectPort "L1" 0 false
                   DefaultAuthType AuthTypeDisabled.
Definition changesDA : ChangeState :=
  mkChangeState (Some {[keyD]}) (Some {[keyA]}) (Some ∅).
Definition worldA : World := mkWorld (λ _, {[keyA := Exported allowEntry]}) [].
Definition stateD : mapState := upsert keyD denyEntry (delete_key keyA stateA).

(** An entry is sticky when the nil owner is among its owners. *)
Definition sticky (e : mapStateEntry) : Prop := None ∈ owners e.

(** ** Theorems *)


Lemma Key_eta k : mkKey (LPM k) (Identity k) = k.
Proof. by destruct k. Qed.

Lemma Key_ext k1 k2 : LPM k1 = LPM k2 → Identity k1 = Identity k2 → k1 = k2.
Proof. destruct k1, k2; simpl; congruence. Qed.

Lemma trie_consistent_new : trie_consistent newMapState.
Proof.
  split.
  - intros k. simpl. rewrite lookup_empty. split.
    + by intros [? ?].
    + intros (ids & H & _). by rewrite lookup_empty in H.
  - intros l ids. simpl. by rewrite lookup_empty.
Qed.

Lemma entries_upsert k e ms : entries (upsert k e ms) = <[k := e]> (entries ms).
Proof. unfold upsert. by destruct (entries ms !! k). Qed.

Lemma entries_delete_key k ms : entries (delete_key k ms) = delete k (entries ms).
Proof.
  unfold delete_key. destruct (entries ms !! k) eqn:E.
  - destruct (trie ms !! LPM k); [case_decide|]; done.
  - by rewrite delete_id.
Qed.

Lemma entries_insert k e ms : entries (insert k e ms).2 = <[k := e]> (entries ms).
Proof. apply entries_upsert. Qed.

Lemma upsert_consistent k e ms :
  trie_consistent ms → trie_consistent (upsert k e ms).
Proof.
  intros [Hkeys Hne]. unfold upsert.
  destruct (entries ms !! k) as [old|] eqn:Hk.
  - split; simpl; [|done].
    intros k'. rewrite <- Hkeys.
    destruct (decide (k = k')) as [->|Hd].
    + rewrite lookup_insert_eq, Hk. split; eauto.
    + by rewrite lookup_insert_ne.
  - split; simpl.
    + intros k'. destruct (decide (k = k')) as [->|Hd].
      * rewrite !lookup_insert_eq. split; [|eauto].
        intros _. eexists. split; [done|]. set_solver.
      * rewrite lookup_insert_ne by done. rewrite Hkeys.
        destruct (decide (LPM k = LPM k')) as [El|Nl].
        -- rewrite El, lookup_insert_eq.
           assert (Identity k ≠ Identity k') as Hid
             by (intros Hid; apply Hd; by apply Key_ext).
           rewrite <- El.
           destruct (trie ms !! LPM k) as [s|] eqn:Ht.
           ++ split.
              ** intros (ids & [= <-] & Hin). eexists. split; [done|]. set_solver.
              ** intros (ids & [= <-] & Hin). exists s. split; [done|]. set_solver.
           ++ split.
              ** by intros (ids & ? & _).
              ** intros (ids & [= <-] & Hin). set_solver.
        -- by rewrite lookup_insert_ne.
    + intros l ids. destruct (decide (LPM k = l)) as [<-|Nl].
      * rewrite lookup_insert_eq. intros [= <-]. set_solver.
      * rewrite lookup_insert_ne by done. apply Hne.
Qed.

Lemma delete_key_consistent k ms :
  trie_consistent ms → trie_consistent (delete_key k ms).
Proof.
  intros [Hkeys Hne]. unfold delete_key.
  destruct (entries ms !! k) as [old|] eqn:Hk; [|by split].
  assert (is_Some (entries ms !! k)) as Hs by eauto.
  apply Hkeys in Hs as (ids & Ht & Hin). rewrite Ht.
  assert (∀ k', k ≠ k' → LPM k = LPM k' → Identity k ≠ Identity k') as Hid.
  { intros k' Hd El Ei. apply Hd. by apply Key_ext. }
  case_decide as Hsz.
  - apply size_empty_iff, leibniz_equiv in Hsz.
    split; simpl.
    + intros k'. destruct (decide (k = k')) as [<-|Hd].
      * rewrite lookup_delete_eq. split; [by intros [? ?]|].
        intros (ids' & H & _). by rewrite lookup_delete_eq in H.
      * rewrite lookup_delete_ne by done. rewrite Hkeys.
        destruct (decide (LPM k = LPM k')) as [El|Nl].
        -- rewrite <- El, lookup_delete_eq, Ht. split.
           ++ intros (? & [= <-] & Hin'). specialize (Hid k' Hd El). set_solver.
           ++ by intros (? & ? & _).
        -- by rewrite lookup_delete_ne.
    + intros l ids'. destruct (decide (LPM k = l)) as [<-|Nl].
      * by rewrite lookup_delete_eq.
      * rewrite lookup_delete_ne by done. apply Hne.
  - split; simpl.
    + intros k'. destruct (decide (k = k')) as [<-|Hd].
      * rewrite lookup_delete_eq, lookup_insert_eq. split; [by intros [? ?]|].
        intros (? & [= <-] & Hin'). set_solver.
      * rewrite lookup_delete_ne by done. rewrite Hkeys.
        destruct (decide (LPM k = LPM k')) as [El|Nl].
        -- rewrite <- El, lookup_insert_eq, Ht. specialize (Hid k' Hd El). split.
           ++ intros (? & [= <-] & Hin'). eexists. split; [done|]. set_solver.
           ++ intros (? & [= <-] & Hin'). eexists. split; [done|]. set_solver.
        -- by rewrite lookup_insert_ne.
    + intros l ids'. destruct (decide (LPM k = l)) as [<-|Nl].
      * rewrite lookup_insert_eq. intros [= <-] He. apply Hsz.
        rewrite He. apply size_empty.
      * rewrite lookup_insert_ne by done. apply Hne.
Qed.

Lemma applyOps_consistent ops ms :
  trie_consistent ms → trie_consistent (applyOps ops ms).
Proof.
  revert ms. induction ops as [|op ops IH]; intros ms H; [done|].
  simpl. apply IH. destruct op; simpl.
  - by apply upsert_consistent.
  - by apply delete_key_consistent.
Qed.

(** *** Trie/map consistency *)

Lemma trie_consistent_unique a b :
  trie_consistent a → trie_consistent b → entries a = entries b → a = b.
Proof.
  intros [Ha Hane] [Hb Hbne] He.
  destruct a as [ea ta], b as [eb tb]. simpl in *. subst eb. f_equal.
  apply map_eq. intros l.
  assert (∀ (t1 t2 : gmap LPMKey IDSet),
    (∀ k, is_Some (ea !! k) ↔ ∃ ids, t1 !! LPM k = Some ids ∧ Identity k ∈ ids) →
    (∀ k, is_Some (ea !! k) ↔ ∃ ids, t2 !! LPM k = Some ids ∧ Identity k ∈ ids) →
    (∀ l ids, t1 !! l = Some ids → ids ≠ ∅) →
    ∀ ids, t1 !! l = Some ids → ∃ ids', t2 !! l = Some ids' ∧ ids ⊆ ids') as Hsub.
  { intros t1 t2 H1 H2 Hne ids Hl.
    destruct (set_choose_L ids) as [i0 Hi0]; [by eapply Hne|].
    assert (is_Some (ea !! mkKey l i0)) as Hs by (apply H1; simpl; eauto).
    apply H2 in Hs as (ids' & Hl' & _). simpl in Hl'.
    exists ids'. split; [done|]. intros i Hi.
    assert (is_Some (ea !! mkKey l i)) as Hs by (apply H1; simpl; eauto).
    apply H2 in Hs as (ids'' & Hl'' & Hin). simpl in *. congruence. }
  destruct (ta !! l) as [ia|] eqn:Hta, (tb !! l) as [ib|] eqn:Htb; try done.
  - destruct (Hsub ta tb Ha Hb Hane ia Hta) as (x & Hx & Hs1).
    destruct (Hsub tb ta Hb Ha Hbne ib Htb) as (y & Hy & Hs2).
    f_equal. set_solver.
  - destruct (Hsub ta tb Ha Hb Hane ia Hta) as (x & Hx & _). congruence.
  - destruct (Hsub tb ta Hb Ha Hbne ib Htb) as (x & Hx & _). congruence.
Qed.


(** *** Merging entries *)

Lemma MergeSorted_nil_r a : MergeSorted a [] = a.
Proof. by destruct a. Qed.

Lemma mergeAuth_proxy x y :
  Listener (mergeAuth x y) = Listener x ∧ ProxyPort (mergeAuth x y) = ProxyPort x.
Proof.
  unfold mergeAuth. destruct (HasAuth y), (HasAuth x); try case_match; done.
Qed.

Lemma merge_allow_proxy e entry :
  IsDeny (Exported e) = false → IsDeny (Exported entry) = false →
  ProxyPort (Exported (merge e entry)) = ProxyPort (mergeProxy e entry).1 ∧
  Listener (Exported (merge e entry)) = Listener (mergeProxy e entry).1 ∧
  priority (merge e entry) = (mergeProxy e entry).2.
Proof.
  intros He Hn. unfold merge. rewrite He, Hn. simpl.
  destruct (mergeProxy e entry) as [x1 p1]. simpl.
  destruct (mergeAuth_proxy x1 (Exported entry)). done.
Qed.

Lemma mergeProxy_cases e entry :
  mergeProxy e entry =
    if bool_decide (ProxyPort (Exported entry) ≠ 0 ∧
                    (ProxyPort (Exported e) = 0 ∨ priority entry < priority e ∨
                     (priority entry = priority e ∧
                      ProxyPort (Exported entry) < ProxyPort (Exported e))))
    then (withProxy (Exported e) (ProxyPort (Exported entry))
                    (Listener (Exported entry)), priority entry)
    else (Exported e, priority e).
Proof.
  unfold mergeProxy, IsRedirectEntry.
  destruct (ProxyPort (Exported entry) =? 0) eqn:E1;
  destruct (ProxyPort (Exported e) =? 0) eqn:E2;
  destruct (priority entry <? priority e) eqn:E3;
  destruct (priority entry =? priority e) eqn:E4;
  destruct (ProxyPort (Exported entry) <? ProxyPort (Exported e)) eqn:E5;
  simpl;
  repeat match goal with
         | H : (_ =? _) = true |- _ => apply N.eqb_eq in H
         | H : (_ =? _) = false |- _ => apply N.eqb_neq in H
         | H : (_ <? _) = true |- _ => apply N.ltb_lt in H
         | H : (_ <? _) = false |- _ => apply N.ltb_ge in H
         end;
  case_bool_decide as Hd; try done; exfalso;
  first [ apply Hd; split; [done|]; lia | lia ].
Qed.

(** C6: merging two allow entries at the same key chooses the proxy
    redirect by priority: a redirect beats a non-redirect, the lower
    priority value wins, on equal priority the lower proxy port wins; a
    redirect constructed without priority takes its proxy port as priority;
    and merging (8080, "L1") with (9090, "L2"), both constructed with
    priority 0, keeps proxy port 8080 and listener "L1". *)
Theorem C6_merge_proxy_priority (e entry : mapStateEntry) :
  IsDeny (Exported e) = false →
  IsDeny (Exported entry) = false →
  let m := merge e entry in
  let takesNew := ProxyPort (Exported m) = ProxyPort (Exported entry) ∧
                  Listener (Exported m) = Listener (Exported entry) ∧
                  priority m = priority entry in
  let keepsOld := ProxyPort (Exported m) = ProxyPort (Exported e) ∧
                  Listener (Exported m) = Listener (Exported e) ∧
                  priority m = priority e in
  (ProxyPort (Exported entry) ≠ 0 → ProxyPort (Exported e) = 0 → takesNew) ∧
  (ProxyPort (Exported entry) = 0 → keepsOld) ∧
  (ProxyPort (Exported entry) ≠ 0 → ProxyPort (Exported e) ≠ 0 →
     (priority entry < priority e → takesNew) ∧
     (priority e < priority entry → keepsOld) ∧
     (priority entry = priority e →
        (ProxyPort (Exported entry) < ProxyPort (Exported e) → takesNew) ∧
        (ProxyPort (Exported e) ≤ ProxyPort (Exported entry) → keepsOld))) ∧
  (∀ cs d port l deny h a, port ≠ 0 →
     priority (newMapStateEntry cs d port l 0 deny h a) = port) ∧
  (∀ cs1 d1 h1 a1 cs2 d2 h2 a2,
     let m' := merge (newMapStateEntry cs1 d1 8080 "L1" 0 false h1 a1)
                     (newMapStateEntry cs2 d2 9090 "L2" 0 false h2 a2) in
     ProxyPort (Exported m') = 8080 ∧ Listener (Exported m') = "L1").
Proof.
  intros He Hn m takesNew keepsOld.
  destruct (merge_allow_proxy e entry He Hn) as (H1 & H2 & H3).
  unfold takesNew, keepsOld, m. rewrite H1, H2, H3, mergeProxy_cases.
  clear H1 H2 H3 m takesNew keepsOld.
  split; [|split; [|split; [|split]]].
  - intros Hne Hz. rewrite bool_decide_eq_true_2; [done|]. split; [done|]. by left.
  - intros Hz. rewrite bool_decide_eq_false_2; [done|]. by intros [? _].
  - intros Hne Hne'. split; [|split; [|split]].
    + intros Hlt. rewrite bool_decide_eq_true_2; [done|]. split; [done|]. right. by left.
    + intros Hlt. rewrite bool_decide_eq_false_2; [done|]. intros [_ ?]. lia.
    + intros Hlt. rewrite bool_decide_eq_true_2; [done|]. split; [done|]. right. by right.
    + intros Hle. rewrite bool_decide_eq_false_2; [done|]. intros [_ ?]. lia.
  - intros cs d port l deny h a Hport. unfold newMapStateEntry.
    apply N.eqb_neq in Hport. by rewrite Hport.
  - intros cs1 d1 h1 a1 cs2 d2 h2 a2. cbv zeta.
    destruct (merge_allow_proxy (newMapStateEntry cs1 d1 8080 "L1" 0 false h1 a1)
                (newMapStateEntry cs2 d2 9090 "L2" 0 false h2 a2)) as (H1 & H2 & _);
      [done..|].
    rewrite H1, H2. done.
Qed.

(** The third scenario: both redirects are constructed without priority,
    so that their priorities are their proxy ports. *)
Lemma C6_merge_proxy_priority_witness :
  let e := newMapStateEntry (Some 1) [] 8080 "L1" 0 false DefaultAuthType 0 in
  let entry := newMapStateEntry (Some 2) [] 9090 "L2" 0 false DefaultAuthType 0 in
  ProxyPort (Exported (merge e entry)) = 8080 ∧
  Listener (Exported (merge e entry)) = "L1" ∧
  priority (merge e entry) = 8080.
Proof.
  intros e entry.
  destruct (C6_merge_proxy_priority e entry) as (_ & _ & H & _);
    [reflexivity | reflexivity |].
  destruct H as (_ & H & _); [done | done |].
  apply H. reflexivity.
Defined.

(** C10: merging two deny entries at the same key leaves [IsDeny],
    [ProxyPort], [Listener], [priority], [HasAuthType] and [AuthType] of
    the existing entry as they are; the owners become the union of the
    owners and the rules the sorted merge of the rules. *)
Theorem C10_merge_deny_frame (e entry : mapStateEntry) :
  IsDeny (Exported e) = true →
  IsDeny (Exported entry) = true →
  let m := merge e entry in
  IsDeny (Exported m) = IsDeny (Exported e) ∧
  ProxyPort (Exported m) = ProxyPort (Exported e) ∧
  Listener (Exported m) = Listener (Exported e) ∧
  priority m = priority e ∧
  HasAuth (Exported m) = HasAuth (Exported e) ∧
  AuthTy (Exported m) = AuthTy (Exported e) ∧
  owners m = owners e ∪ owners entry ∧
  derivedFromRules m = MergeSorted (derivedFromRules e) (derivedFromRules entry).
Proof.
  intros He Hn m. unfold m, merge. rewrite He, Hn. simpl.
  repeat split; try done.
  destruct (derivedFromRules entry); simpl; [|done].
  by rewrite MergeSorted_nil_r.
Qed.

Lemma C10_merge_deny_frame_witness :
  let e := newMapStateEntry (Some 1) ["rule-a"] 0 "" 0 true DefaultAuthType 0 in
  let entry := newMapStateEntry (Some 2) ["rule-b"] 0 "" 0 true ExplicitAuthType 3 in
  Exported (merge e entry) = Exported e ∧
  priority (merge e entry) = 0 ∧
  owners (merge e entry) = {[Some 1; Some 2]} ∧
  derivedFromRules (merge e entry) = ["rule-a"; "rule-b"].
Proof.
  intros e entry.
  destruct (C10_merge_deny_frame e entry) as (H1 & H2 & H3 & H4 & H5 & H6 & H7 & H8);
    [reflexivity | reflexivity |].
  split; [|split; [|split]].
  - reflexivity.
  - exact H4.
  - rewrite H7. reflexivity.
  - rewrite H8. reflexivity.
Defined.

(** *** Invalid keys *)

(** C9, as stated, fails: [insert] with a key of wildcard port and
    non-zero port prefix length changes the map state. *)
Lemma C9_invalid_key_insert_counterexample :
  let k := mkKey (mkLPMKey Ingress 6 0 8) 10 in
  let v := newMapStateEntry None [] 0 "" 0 false DefaultAuthType 0 in
  DestPort (LPM k) = 0 ∧ 0 < PortPrefixLen (LPM k) ∧
  (insert k v newMapState).2 ≠ newMapState.
Proof.
  intros k v. split; [reflexivity|]. split; [reflexivity|].
  intros H. apply (f_equal (λ m, entries m !! k)) in H.
  vm_compute in H. discriminate H.
Qed.

(** C9, amended: for a key with [dest_port = 0] and a non-zero port prefix
    length, [insert] logs the invalid prefix length and then performs the
    mutation like for any other key: the state is that of [upsert], and
    the key is mapped to the inserted entry. *)
Theorem C9_invalid_key_insert (k : Key) (v : mapStateEntry) (ms : mapState) :
  DestPort (LPM k) = 0 →
  0 < PortPrefixLen (LPM k) →
  insert k v ms = ([ErrInvalidPortPrefix "mapState.insert" k], upsert k v ms) ∧
  Lookup (insert k v ms).2 k = Some v.
Proof.
  intros Hp Hl. unfold insert, invalidWildcardPort.
  apply N.eqb_eq in Hp. apply N.ltb_lt in Hl. rewrite Hp, Hl. simpl.
  split; [done|]. unfold Lookup. rewrite entries_upsert. apply lookup_insert_eq.
Qed.

Lemma C9_invalid_key_insert_witness :
  let k := mkKey (mkLPMKey Ingress 6 0 8) 10 in
  let v := newMapStateEntry None [] 0 "" 0 false DefaultAuthType 0 in
  insert k v newMapState =
    ([ErrInvalidPortPrefix "mapState.insert" k], upsert k v newMapState) ∧
  Lookup (insert k v newMapState).2 k = Some v.
Proof.
  intros k v. apply (C9_invalid_key_insert k v newMapState); reflexivity.
Defined.

(** *** Reverting *)

Lemma foldl_delete_key_entries (l : list Key) ms k :
  entries (foldl (λ m k, delete_key k m) ms l) !! k =
    if decide (k ∈ l) then None else entries ms !! k.
Proof.
  revert ms. induction l as [|k0 l IH]; intros ms; simpl.
  - destruct (decide (k ∈ [])) as [H|H]; [by apply elem_of_nil in H|done].
  - rewrite IH, entries_delete_key.
    destruct (decide (k ∈ l)) as [Hin|Hn].
    + rewrite decide_True; [done|by right].
    + destruct (decide (k = k0)) as [->|Hne].
      * rewrite decide_True; [apply lookup_delete_eq | by left].
      * rewrite decide_False.
        -- by rewrite lookup_delete_ne.
        -- intros [?|?]%elem_of_cons; done.
Qed.

Lemma foldl_delete_key_consistent (l : list Key) ms :
  trie_consistent ms → trie_consistent (foldl (λ m k, delete_key k m) ms l).
Proof.
  revert ms. induction l as [|k0 l IH]; intros ms H; simpl; [done|].
  apply IH. by apply delete_key_consistent.
Qed.

Lemma foldl_insert_entries (l : list (Key * mapStateEntry)) ms k :
  NoDup l.*1 →
  (∀ v, (k, v) ∈ l →
     entries (foldl (λ m kv, (insert kv.1 kv.2 m).2) ms l) !! k = Some v) ∧
  (k ∉ l.*1 →
     entries (foldl (λ m kv, (insert kv.1 kv.2 m).2) ms l) !! k = entries ms !! k).
Proof.
  revert ms. induction l as [|[k0 v0] l IH]; intros ms Hnd; cbn [foldl].
  - split; [intros v H; by apply elem_of_nil in H | done].
  - rewrite fmap_cons in Hnd. apply list.NoDup_cons in Hnd as [Hk0 Hnd].
    cbn [fst snd] in *.
    destruct (IH (insert k0 v0 ms).2 Hnd) as [IH1 IH2]. split.
    + intros v [Heq|Hin]%elem_of_cons.
      * injection Heq as -> ->. rewrite IH2 by done.
        rewrite entries_insert. apply lookup_insert_eq.
      * by apply IH1.
    + intros Hn. rewrite fmap_cons in Hn.
      apply not_elem_of_cons in Hn as [Hne Hn]. cbn [fst] in Hne.
      rewrite IH2 by done. rewrite entries_insert. by rewrite lookup_insert_ne.
Qed.

Lemma foldl_insert_consistent (l : list (Key * mapStateEntry)) ms :
  trie_consistent ms →
  trie_consistent (foldl (λ m kv, (insert kv.1 kv.2 m).2) ms l).
Proof.
  revert ms. induction l as [|kv l IH]; intros ms H; cbn [foldl]; [done|].
  apply IH. by apply upsert_consistent.
Qed.

Lemma revertChanges_consistent ch ms :
  trie_consistent ms → trie_consistent (revertChanges ch ms).
Proof.
  intros H. unfold revertChanges.
  by apply foldl_insert_consistent, foldl_delete_key_consistent.
Qed.

Lemma revertChanges_entries a o d ms k :
  entries (revertChanges (mkChangeState (Some a) d (Some o)) ms) !! k =
    match o !! k with
    | Some v => Some v
    | None => if decide (k ∈ a) then None else entries ms !! k
    end.
Proof.
  unfold revertChanges. cbn [Adds old].
  pose proof (foldl_insert_entries (map_to_list o)
                (foldl (λ m k, delete_key k m) ms (elements a)) k
                (NoDup_fst_map_to_list o)) as [H1 H2].
  destruct (o !! k) as [v|] eqn:Ho.
  - apply H1. by apply elem_of_map_to_list.
  - rewrite H2.
    + rewrite foldl_delete_key_entries.
      destruct (decide (k ∈ a)) as [Hin|Hn].
      * rewrite decide_True; [done|by apply elem_of_elements].
      * rewrite decide_False; [done|by rewrite elem_of_elements].
    + intros Hin. apply list_elem_of_fmap in Hin as ([k' v'] & -> & Hin).
      apply elem_of_map_to_list in Hin. simpl in Ho. congruence.
Qed.

(** *** The batch of the fourth scenario *)

Lemma batchAddAddDelete_eq K1 e1 K2 e2 :
  K1 ≠ K2 →
  batchAddAddDelete K1 e1 K2 e2 =
    (delete_key K1 (upsert K2 e2 (upsert K1 e1 newMapState)),
     mkChangeState (Some (({[K2]} ∪ ({[K1]} ∪ ∅)) ∖ {[K1]}))
                   (Some ({[K1]} ∪ ((∅ ∖ {[K1]}) ∖ {[K2]})))
                   (Some ∅)).
Proof.
  intros Hne. unfold batchAddAddDelete, addKeyWithChanges, get, Lookup.
  simpl. rewrite lookup_empty. simpl.
  rewrite entries_upsert. simpl. rewrite lookup_insert_ne by done.
  rewrite lookup_empty. simpl.
  unfold deleteKeyWithChanges, get, Lookup. simpl.
  rewrite !entries_upsert. simpl.
  rewrite lookup_insert_ne by done. rewrite lookup_insert_eq.
  unfold insertOldIfNotExists. simpl. rewrite lookup_empty.
  assert (K1 ∈ ({[K2]} ∪ ({[K1]} ∪ ∅) : gset Key)) as Hin by set_solver.
  rewrite (bool_decide_eq_true_2 _ Hin). done.
Qed.

(** C4, as stated, fails: after the batch the deleted key [K1] is recorded
    in [Deletes]. *)
Lemma C4_add_add_delete_counterexample :
  let K1 := mkKey (mkLPMKey Ingress 6 80 16) 10 in
  let K2 := mkKey (mkLPMKey Ingress 6 443 16) 10 in
  let e := newMapStateEntry (Some 1) [] 0 "" 0 false DefaultAuthType 0 in
  let ch := (batchAddAddDelete K1 e K2 e).2 in
  Adds ch = Some {[K2]} ∧ Deletes ch = Some {[K1]} ∧ Deletes ch ≠ Some ∅.
Proof.
  intros K1 K2 e ch.
  assert (K1 ≠ K2) as Hne by discriminate.
  unfold ch. rewrite (batchAddAddDelete_eq K1 e K2 e Hne). simpl.
  assert (({[K1]} ∪ ((∅ ∖ {[K1]}) ∖ {[K2]}) : gset Key) = {[K1]}) as -> by set_solver.
  split; [f_equal; set_solver|]. split; [done|].
  by intros [= H].
Qed.

(** C4, amended: after adding [K1], adding [K2] and deleting [K1]
    unconditionally, on a new map state and into one change state, the
    change state has [Adds = {K2}] and [Deletes = {K1}] ([K1] is not in
    [Adds] but is recorded as deleted), no old value is recorded, and
    [revertChanges] restores the empty map state. *)
Theorem C4_add_add_delete (K1 K2 : Key) (e1 e2 : mapStateEntry) :
  K1 ≠ K2 →
  let '(ms, ch) := batchAddAddDelete K1 e1 K2 e2 in
  Adds ch = Some {[K2]} ∧ Deletes ch = Some {[K1]} ∧ old ch = Some ∅ ∧
  entries ms = {[K2 := e2]} ∧
  revertChanges ch ms = newMapState.
Proof.
  intros Hne. rewrite (batchAddAddDelete_eq K1 e1 K2 e2 Hne).
  assert (({[K1]} ∪ ((∅ ∖ {[K1]}) ∖ {[K2]}) : gset Key) = {[K1]}) as -> by set_solver.
  assert ((({[K2]} ∪ ({[K1]} ∪ ∅)) ∖ {[K1]} : gset Key) = {[K2]}) as -> by set_solver.
  simpl. split; [done|]. split; [done|]. split; [done|].
  assert (entries (delete_key K1 (upsert K2 e2 (upsert K1 e1 newMapState)))
          = {[K2 := e2]}) as Hent.
  { rewrite entries_delete_key, !entries_upsert. simpl.
    rewrite delete_insert_ne by done. rewrite delete_insert_eq.
    by rewrite delete_empty. }
  split; [done|].
  apply trie_consistent_unique.
  - apply revertChanges_consistent, delete_key_consistent.
    do 2 apply upsert_consistent. apply trie_consistent_new.
  - apply trie_consistent_new.
  - apply map_eq. intros k. rewrite revertChanges_entries, lookup_empty.
    simpl. rewrite lookup_empty. case_decide as Hk; [done|].
    rewrite Hent. apply lookup_singleton_ne. set_solver.
Qed.

Lemma C4_add_add_delete_witness :
  let K1 := mkKey (mkLPMKey Ingress 6 80 16) 10 in
  let K2 := mkKey (mkLPMKey Ingress 6 443 16) 10 in
  let e := newMapStateEntry (Some 1) [] 0 "" 0 false DefaultAuthType 0 in
  let '(ms, ch) := batchAddAddDelete K1 e K2 e in
  Adds ch = Some {[K2]} ∧ Deletes ch = Some {[K1]} ∧ old ch = Some ∅ ∧
  entries ms = {[K2 := e]} ∧
  revertChanges ch ms = newMapState.
Proof.
  intros K1 K2 e. apply (C4_add_add_delete K1 K2 e e). discriminate.
Defined.

(** *** Prefixes *)

Lemma isPrefixOf_refl a : isPrefixOf a a = true.
Proof.
  unfold isPrefixOf. rewrite N.leb_refl, N.eqb_refl. done.
Qed.

Lemma isPrefixOf_trans a b c :
  isPrefixOf a b = true → isPrefixOf b c = true → isPrefixOf a c = true.
Proof.
  unfold isPrefixOf. intros [H1 H2]%andb_true_iff [H3 H4]%andb_true_iff.
  apply N.leb_le in H1, H3. apply N.eqb_eq in H2, H4.
  apply andb_true_iff. split; [apply N.leb_le; lia|]. apply N.eqb_eq.
  rewrite H2.
  assert (MapStatePrefixLen - PrefixLength a =
          (MapStatePrefixLen - PrefixLength b) +
          ((MapStatePrefixLen - PrefixLength a) - (MapStatePrefixLen - PrefixLength b)))
    as -> by lia.
  rewrite <- !N.shiftr_shiftr. by rewrite H4.
Qed.

(** *** The keys visited by the iterators *)

Lemma elem_of_forID k k0 ids : k ∈ forID k0 ids ↔ k = k0 ∧ Identity k0 ∈ ids.
Proof.
  unfold forID. case_decide.
  - rewrite list_elem_of_singleton. naive_solver.
  - rewrite elem_of_nil. naive_solver.
Qed.

Lemma elem_of_forIDs k k0 ids :
  k ∈ forIDs k0 ids ↔ LPM k = LPM k0 ∧ Identity k ∈ ids.
Proof.
  unfold forIDs. rewrite list_elem_of_fmap. split.
  - intros (i & -> & Hi%elem_of_elements). done.
  - intros [Hl Hi]. exists (Identity k). split; [|by apply elem_of_elements].
    unfold WithIdentity. rewrite <- Hl. by rewrite Key_eta.
Qed.

Lemma elem_of_AncestorIterator t key p :
  p ∈ AncestorIterator t key ↔ t !! p.1 = Some p.2 ∧ isPrefixOf p.1 key = true.
Proof.
  unfold AncestorIterator. rewrite list_elem_of_filter, Is_true_true.
  destruct p as [l ids]. rewrite elem_of_map_to_list. naive_solver.
Qed.

Lemma elem_of_DescendantIterator t key p :
  p ∈ DescendantIterator t key ↔ t !! p.1 = Some p.2 ∧ isPrefixOf key p.1 = true.
Proof.
  unfold DescendantIterator. rewrite list_elem_of_filter, Is_true_true.
  destruct p as [l ids]. rewrite elem_of_map_to_list. naive_solver.
Qed.

Lemma elem_of_BroaderOrEqualKeys ms key k :
  k ∈ BroaderOrEqualKeys ms key ↔
  ∃ ids, trie ms !! LPM k = Some ids ∧ Identity k ∈ ids ∧
         isPrefixOf (LPM k) (LPM key) = true ∧
         (Identity k = 0 ∨ Identity k = Identity key).
Proof.
  unfold BroaderOrEqualKeys. rewrite list_elem_of_bind. split.
  - intros ([l ids] & Hin & [Ht Hp]%elem_of_AncestorIterator). simpl in *.
    exists ids. apply elem_of_app in Hin as [Hin|Hin].
    + apply elem_of_forID in Hin as [-> Hin]. simpl in *. naive_solver.
    + destruct (Identity key =? 0) eqn:E; simpl in Hin; [by apply elem_of_nil in Hin|].
      apply elem_of_forID in Hin as [-> Hin]. simpl in *. naive_solver.
  - intros (ids & Ht & Hi & Hp & Hid). exists (LPM k, ids). split.
    + destruct k as [l i]. simpl in *. apply elem_of_app.
      destruct Hid as [-> | ->].
      * left. by apply elem_of_forID.
      * destruct (Identity key =? 0) eqn:E; simpl.
        -- left. apply N.eqb_eq in E. rewrite E in *. by apply elem_of_forID.
        -- right. by apply elem_of_forID.
    + by apply elem_of_AncestorIterator.
Qed.

Lemma elem_of_NarrowerOrEqualKeys ms key k :
  k ∈ NarrowerOrEqualKeys ms key ↔
  ∃ ids, trie ms !! LPM k = Some ids ∧ Identity k ∈ ids ∧
         isPrefixOf (LPM key) (LPM k) = true ∧
         (Identity key = 0 ∨ Identity k = Identity key).
Proof.
  unfold NarrowerOrEqualKeys. rewrite list_elem_of_bind. split.
  - intros ([l ids] & Hin & [Ht Hp]%elem_of_DescendantIterator). simpl in *.
    exists ids. destruct (Identity key =? 0) eqn:E.
    + apply N.eqb_eq in E. apply elem_of_forIDs in Hin as [Hl Hin]. simpl in *.
      rewrite Hl. naive_solver.
    + apply elem_of_forID in Hin as [-> Hin]. simpl in *. naive_solver.
  - intros (ids & Ht & Hi & Hp & Hid). exists (LPM k, ids).
    split; [|by apply elem_of_DescendantIterator]. simpl.
    destruct (Identity key =? 0) eqn:E.
    + by apply elem_of_forIDs.
    + apply N.eqb_neq in E. destruct Hid as [?|Hk]; [done|].
      destruct k as [l i]. simpl in *. subst i. by apply elem_of_forID.
Qed.

Lemma elem_of_CoveringKeysWithSameID ms key k :
  k ∈ CoveringKeysWithSameID ms key ↔
  ∃ ids, trie ms !! LPM k = Some ids ∧ Identity k ∈ ids ∧
         isPrefixOf (LPM k) (LPM key) = true ∧
         PortProtoIsEqual k key = false ∧ Identity k = Identity key.
Proof.
  unfold CoveringKeysWithSameID, AncestorLongestPrefixFirstIterator.
  rewrite list_elem_of_bind. split.
  - intros ([l ids] & Hin & Hp). rewrite merge_sort_Permutation in Hp.
    apply elem_of_AncestorIterator in Hp as [Ht Hp]. simpl in *.
    destruct (PortProtoIsEqual _ key) eqn:E; simpl in Hin;
      [by apply elem_of_nil in Hin|].
    apply elem_of_forID in Hin as [-> Hin]. simpl in *. naive_solver.
  - intros (ids & Ht & Hi & Hp & He & Hid). exists (LPM k, ids). split.
    + destruct k as [l i]. simpl in *. subst i.
      assert (PortProtoIsEqual (mkKey l 0) key = false) as -> by done.
      simpl. by apply elem_of_forID.
    + rewrite merge_sort_Permutation. by apply elem_of_AncestorIterator.
Qed.

Lemma elem_of_SubsetKeysWithSameID ms key k :
  k ∈ SubsetKeysWithSameID ms key ↔
  ∃ ids, trie ms !! LPM k = Some ids ∧ Identity k ∈ ids ∧
         isPrefixOf (LPM key) (LPM k) = true ∧
         PortProtoIsEqual k key = false ∧ Identity k = Identity key.
Proof.
  unfold SubsetKeysWithSameID, DescendantShortestPrefixFirstIterator.
  rewrite list_elem_of_bind. split.
  - intros ([l ids] & Hin & Hp). rewrite merge_sort_Permutation in Hp.
    apply elem_of_DescendantIterator in Hp as [Ht Hp]. simpl in *.
    destruct (PortProtoIsEqual _ key) eqn:E; simpl in Hin;
      [by apply elem_of_nil in Hin|].
    apply elem_of_forID in Hin as [-> Hin]. simpl in *. naive_solver.
  - intros (ids & Ht & Hi & Hp & He & Hid). exists (LPM k, ids). split.
    + destruct k as [l i]. simpl in *. subst i.
      assert (PortProtoIsEqual (mkKey l 0) key = false) as -> by done.
      simpl. by apply elem_of_forID.
    + rewrite merge_sort_Permutation. by apply elem_of_DescendantIterator.
Qed.

(** *** What the operations leave of the state before the batch *)

Lemma revertChanges_view ch ms k :
  entries (revertChanges ch ms) !! k = revertView ch (entries ms) k.
Proof.
  unfold revertChanges, revertView.
  destruct ch as [a d o]. cbn [Adds old].
  assert (∀ m, entries (foldl (λ m k, delete_key k m) m
                          match a with Some a => elements a | None => [] end) !! k
               = if inKeys k a then None else entries m !! k) as Hdel.
  { intros m. rewrite foldl_delete_key_entries. destruct a as [a|]; simpl.
    - destruct (decide (k ∈ elements a)) as [Hin|Hn].
      + rewrite bool_decide_eq_true_2; [done|by apply elem_of_elements].
      + rewrite bool_decide_eq_false_2; [done|by rewrite <- elem_of_elements].
    - destruct (decide (k ∈ [])) as [H|H]; [by apply elem_of_nil in H|done]. }
  destruct o as [o|]; cbn [mbind option_bind].
  - pose proof (foldl_insert_entries (map_to_list o)
                  (foldl (λ m k, delete_key k m) ms
                         match a with Some a => elements a | None => [] end) k
                  (NoDup_fst_map_to_list o)) as [H1 H2].
    destruct (o !! k) as [v|] eqn:Ho.
    + apply H1. by apply elem_of_map_to_list.
    + rewrite H2; [apply Hdel|].
      intros Hin. apply list_elem_of_fmap in Hin as ([k' v'] & -> & Hin).
      apply elem_of_map_to_list in Hin. simpl in Ho. congruence.
  - cbn [foldl]. apply Hdel.
Qed.

Lemma tracked_destruct ch :
  tracked ch → ∃ a d o, ch = mkChangeState (Some a) d (Some o).
Proof. destruct ch as [[a|] d [o|]]; intros [[? ?] [? ?]]; naive_solver. Qed.

Lemma pinned_view ch key es es' :
  pinned ch key → (∀ k, k ≠ key → es' !! k = es !! k) →
  ∀ k, revertView ch es' k = revertView ch es k.
Proof.
  intros Hp Hes k. unfold revertView.
  destruct (old ch ≫= (.!! k)) eqn:Ho; [done|].
  destruct (inKeys k (Adds ch)) eqn:Ha; [done|].
  destruct (decide (k = key)) as [->|Hne]; [|by apply Hes].
  destruct Hp as [[? Hp]|Hp]; congruence.
Qed.

Lemma insertOldIfNotExists_view key entry ch es :
  tracked ch → es !! key = Some entry →
  let ch' := (insertOldIfNotExists key entry ch).2 in
  tracked ch' ∧ Adds ch' = Adds ch ∧ Deletes ch' = Deletes ch ∧
  pinned ch' key ∧ ∀ k, revertView ch' es k = revertView ch es k.
Proof.
  intros (a & d & o & ->)%tracked_destruct Hes. unfold insertOldIfNotExists.
  cbn [old Adds Deletes].
  destruct (o !! key) as [v|] eqn:Ho; cbn [snd].
  { repeat split; eauto. left. simpl. rewrite Ho. eauto. }
  destruct (inKeys key (Some a)) eqn:Ha; cbn [snd].
  { repeat split; eauto. by right. }
  repeat split; eauto.
  - left. simpl. rewrite lookup_insert_eq. eauto.
  - intros k. unfold revertView. simpl.
    destruct (decide (k = key)) as [->|Hne].
    + rewrite lookup_insert_eq, Ho. simpl in Ha. by rewrite Ha.
    + by rewrite lookup_insert_ne.
Qed.

Lemma insertOldIfNotExists_undo key entry ch :
  (insertOldIfNotExists key entry ch).1 = true →
  let ch' := (insertOldIfNotExists key entry ch).2 in
  mkChangeState (Adds ch') (Deletes ch') (delete key <$> old ch') = ch.
Proof.
  unfold insertOldIfNotExists. destruct ch as [a d [o|]]; simpl; [|done].
  destruct (o !! key) eqn:Ho; simpl; [done|].
  destruct (inKeys key a); simpl; [done|]. intros _.
  by rewrite delete_insert_id.
Qed.

Lemma view_add a d d' o key es es' :
  (pinned (mkChangeState (Some a) d (Some o)) key ∨ es !! key = None) →
  (∀ k, k ≠ key → es' !! k = es !! k) →
  ∀ k, revertView (mkChangeState (Some ({[key]} ∪ a)) d' (Some o)) es' k =
       revertView (mkChangeState (Some a) d (Some o)) es k.
Proof.
  intros Hp Hes k. unfold revertView. simpl.
  destruct (o !! k) eqn:Ho; [done|].
  destruct (decide (k = key)) as [->|Hne].
  - rewrite bool_decide_eq_true_2 by set_solver.
    case_bool_decide as Hin; [done|].
    destruct Hp as [[[? Hp]|Hp]|Hp]; simpl in Hp.
    + congruence.
    + by apply bool_decide_eq_true_1 in Hp.
    + done.
  - rewrite Hes by done.
    case_bool_decide as H1; case_bool_decide as H2; try done; set_solver.
Qed.

Lemma view_remove a d d' o key es :
  pinned (mkChangeState (Some a) d (Some o)) key →
  ∀ k, revertView (mkChangeState (Some (a ∖ {[key]})) d' (Some o)) (delete key es) k =
       revertView (mkChangeState (Some a) d (Some o)) es k.
Proof.
  intros Hp k. unfold revertView. simpl.
  destruct (o !! k) eqn:Ho; [done|].
  destruct (decide (k = key)) as [->|Hne].
  - rewrite bool_decide_eq_false_2 by set_solver. rewrite lookup_delete_eq.
    destruct Hp as [[? Hp]|Hp]; simpl in Hp; [congruence|]. by rewrite Hp.
  - rewrite lookup_delete_ne by done.
    case_bool_decide as H1; case_bool_decide as H2; try done; set_solver.
Qed.

Lemma rewrite_existing_consistent k v ms :
  is_Some (entries ms !! k) → trie_consistent ms →
  trie_consistent (mkMapState (<[k := v]> (entries ms)) (trie ms)).
Proof.
  intros Hs [Hk Hne]. split; [|done]. intros k'. simpl. rewrite <- Hk.
  destruct (decide (k = k')) as [<-|Hd].
  - rewrite lookup_insert_eq. split; eauto.
  - by rewrite lookup_insert_ne.
Qed.

(** **** [deleteKeyWithChanges] *)

Lemma deleteKeyWithChanges_consistent key owner ch ms :
  trie_consistent ms → trie_consistent (deleteKeyWithChanges key owner ch ms).1.
Proof.
  intros Hc. unfold deleteKeyWithChanges, get, Lookup. cbn [snd].
  destruct (entries ms !! key) as [entry|] eqn:He; [|done].
  destruct (insertOldIfNotExists key entry ch) as [oldAdded ch1].
  destruct owner as [o|]; [|by apply delete_key_consistent].
  case_bool_decide; [|done].
  destruct (0 <? size _)%nat; [|by apply delete_key_consistent].
  apply rewrite_existing_consistent; eauto.
Qed.

Lemma deleteKeyWithChanges_nil_entries key ch ms :
  entries (deleteKeyWithChanges key None ch ms).1 = delete key (entries ms).
Proof.
  unfold deleteKeyWithChanges, get, Lookup. cbn [snd].
  destruct (entries ms !! key) as [entry|] eqn:He.
  - destruct (insertOldIfNotExists key entry ch) as [oldAdded ch1]. simpl.
    apply entries_delete_key.
  - simpl. by rewrite delete_id.
Qed.

Lemma deleteKeyWithChanges_entries_ne key owner ch ms k :
  k ≠ key → entries (deleteKeyWithChanges key owner ch ms).1 !! k = entries ms !! k.
Proof.
  intros Hne. unfold deleteKeyWithChanges, get, Lookup. cbn [snd].
  destruct (entries ms !! key) as [entry|] eqn:He; [|done].
  destruct (insertOldIfNotExists key entry ch) as [oldAdded ch1].
  assert (entries (delete_key key ms) !! k = entries ms !! k) as Hd
    by (rewrite entries_delete_key; by apply lookup_delete_ne).
  destruct owner as [o|]; [|done].
  case_bool_decide; [|done].
  destruct (0 <? size _)%nat; [|done].
  simpl. by apply lookup_insert_ne.
Qed.

Lemma deleteKeyWithChanges_view key owner ch ms :
  tracked ch →
  let r := deleteKeyWithChanges key owner ch ms in
  tracked r.2 ∧ ∀ k, revertView r.2 (entries r.1) k = revertView ch (entries ms) k.
Proof.
  intros Ht. unfold deleteKeyWithChanges, get, Lookup. cbn [snd].
  destruct (entries ms !! key) as [entry|] eqn:He; [|done].
  pose proof (insertOldIfNotExists_view key entry ch (entries ms) Ht He)
    as (Ht1 & Ha1 & Hd1 & Hp1 & Hv1).
  pose proof (insertOldIfNotExists_undo key entry ch) as Hundo.
  destruct (insertOldIfNotExists key entry ch) as [oldAdded ch1].
  cbn [fst snd] in *.
  assert (let r := (delete_key key ms,
                    match Deletes ch1 with
                    | Some d =>
                        mkChangeState (match Adds ch1 with
                                       | Some a => Some (a ∖ {[key]})
                                       | None => None
                                       end) (Some ({[key]} ∪ d)) (old ch1)
                    | None => ch1
                    end) in
          tracked r.2 ∧
          ∀ k, revertView r.2 (entries r.1) k = revertView ch (entries ms) k) as Hrem.
  { apply tracked_destruct in Ht1 as (a1 & d1 & o1 & ->). cbn [Deletes Adds old].
    destruct d1 as [d1|]; cbn [fst snd].
    - split; [split; simpl; eauto|]. intros k. rewrite <- Hv1.
      rewrite entries_delete_key. by apply view_remove.
    - split; [split; simpl; eauto|]. intros k. rewrite <- Hv1.
      apply (pinned_view _ key); [done|]. intros k' Hk'.
      rewrite entries_delete_key. by apply lookup_delete_ne. }
  destruct owner as [o|]; [|exact Hrem].
  case_bool_decide.
  - destruct (0 <? size _)%nat; [|exact Hrem].
    cbn [fst snd]. split; [done|].
    intros k. rewrite <- Hv1. apply (pinned_view _ key); [done|].
    intros k' Hk'. simpl. by apply lookup_insert_ne.
  - cbn [fst snd]. destruct oldAdded.
    + rewrite Hundo by done. done.
    + done.
Qed.

(** **** [addKeyWithChanges] *)

Lemma addKeyWithChanges_consistent key entry ch ms :
  trie_consistent ms → trie_consistent (addKeyWithChanges key entry ch ms).1.2.
Proof.
  intros Hc. unfold addKeyWithChanges, get, Lookup, insert. cbn [snd].
  destruct (entries ms !! key) as [oldEntry|] eqn:He.
  - case_bool_decide.
    + destruct (deepEqual entry oldEntry); [done|].
      assert (trie_consistent (updateExisting key (merge oldEntry entry) ms))
        by (apply rewrite_existing_consistent; eauto).
      repeat case_match; done.
    + destruct (IsDeny (Exported entry)); [|done].
      pose proof (upsert_consistent key entry ms Hc).
      repeat case_match; done.
  - pose proof (upsert_consistent key entry ms Hc).
    repeat case_match; done.
Qed.

Lemma addKeyWithChanges_entries_ne key entry ch ms k :
  k ≠ key → entries (addKeyWithChanges key entry ch ms).1.2 !! k = entries ms !! k.
Proof.
  intros Hne. unfold addKeyWithChanges, get, Lookup, insert. cbn [snd].
  assert (entries (upsert key entry ms) !! k = entries ms !! k) as Hu
    by (rewrite entries_upsert; by apply lookup_insert_ne).
  destruct (entries ms !! key) as [oldEntry|] eqn:He.
  - assert (entries (updateExisting key (merge oldEntry entry) ms) !! k
            = entries ms !! k) as Hm by (simpl; by apply lookup_insert_ne).
    repeat case_match; done.
  - repeat case_match; done.
Qed.

Lemma merge_IsDeny e entry :
  IsDeny (Exported (merge e entry)) = IsDeny (Exported e).
Proof.
  unfold merge. case_bool_decide; simpl; [|done].
  destruct (IsDeny (Exported e)) eqn:Hd; simpl; [done|].
  destruct (mergeProxy e entry) as [x p] eqn:Hp. simpl.
  assert (IsDeny x = false) as Hx.
  { unfold mergeProxy in Hp. case_match; injection Hp as <- <-; done. }
  unfold mergeAuth. repeat case_match; done.
Qed.

Lemma deepEqual_IsDeny e o :
  deepEqual e o = true → IsDeny (Exported e) = IsDeny (Exported o).
Proof.
  unfold deepEqual, Equal. rewrite !andb_true_iff.
  intros [[[[[[H _] _] _] _] _] _]. by apply bool_decide_eq_true_1 in H.
Qed.

Lemma addKeyWithChanges_polarity key entry ch ms v :
  entries (addKeyWithChanges key entry ch ms).1.2 !! key = Some v →
  IsDeny (Exported v) = IsDeny (Exported entry) ∨
  (entries ms !! key = Some v ∧ IsDeny (Exported v) = true).
Proof.
  unfold addKeyWithChanges, get, Lookup, insert. cbn [snd].
  assert (∀ x, entries (upsert key entry ms) !! key = Some x →
               IsDeny (Exported x) = IsDeny (Exported entry)) as Hu.
  { intros x. rewrite entries_upsert, lookup_insert_eq. by intros [= <-]. }
  destruct (entries ms !! key) as [oldEntry|] eqn:He.
  - case_bool_decide as Hpol.
    + destruct (deepEqual entry oldEntry) eqn:Hde.
      * simpl. rewrite He. intros [= <-]. by left.
      * assert (∀ x, entries (updateExisting key (merge oldEntry entry) ms) !! key
                     = Some x → IsDeny (Exported x) = IsDeny (Exported entry)) as Hm.
        { intros x. simpl. rewrite lookup_insert_eq. intros [= <-].
          by rewrite merge_IsDeny. }
        intros Hv. left. repeat case_match; by apply Hm.
    + destruct (IsDeny (Exported entry)) eqn:Hd.
      * intros Hv. left. repeat case_match; by apply Hu.
      * simpl. rewrite He. intros [= <-]. right. split; [done|].
        by destruct (IsDeny (Exported oldEntry)).
  - intros Hv. left. repeat case_match; by apply Hu.
Qed.

Lemma addKeyWithChanges_deny key entry ch ms :
  IsDeny (Exported entry) = true →
  ∃ v, entries (addKeyWithChanges key entry ch ms).1.2 !! key = Some v ∧
       IsDeny (Exported v) = true.
Proof.
  intros Hd. unfold addKeyWithChanges, get, Lookup, insert. cbn [snd].
  assert (entries (upsert key entry ms) !! key = Some entry) as Hu
    by (rewrite entries_upsert; apply lookup_insert_eq).
  destruct (entries ms !! key) as [oldEntry|] eqn:He.
  - case_bool_decide as Hpol.
    + destruct (deepEqual entry oldEntry) eqn:Hde.
      * exists oldEntry. simpl. split; [done|]. congruence.
      * exists (merge oldEntry entry). split.
        -- assert (entries (updateExisting key (merge oldEntry entry) ms) !! key
                   = Some (merge oldEntry entry)) by (simpl; apply lookup_insert_eq).
           repeat case_match; done.
        -- rewrite merge_IsDeny. congruence.
    + rewrite Hd. exists entry. split; [|done]. repeat case_match; done.
  - exists entry. split; [|done]. repeat case_match; done.
Qed.

Lemma addKeyWithChanges_view key entry ch ms :
  tracked ch →
  (∀ oldE, entries ms !! key = Some oldE → IsDeny (Exported entry) = true →
           IsDeny (Exported oldE) = true) →
  let r := addKeyWithChanges key entry ch ms in
  tracked r.2 ∧ ∀ k, revertView r.2 (entries r.1.2) k = revertView ch (entries ms) k.
Proof.
  intros Ht Hpol. unfold addKeyWithChanges, get, Lookup, insert. cbn [snd].
  destruct (entries ms !! key) as [oldEntry|] eqn:He.
  - case_bool_decide as Hsame.
    + destruct (deepEqual entry oldEntry); [done|].
      pose proof (insertOldIfNotExists_view key oldEntry ch (entries ms) Ht He)
        as (Ht1 & Ha1 & Hd1 & Hp1 & Hv1).
      destruct (insertOldIfNotExists key oldEntry ch) as [oldAdded ch1].
      cbn [fst snd] in *.
      apply tracked_destruct in Ht1 as (a1 & d1 & o1 & ->). cbn [Adds Deletes old].
      assert (∀ k', k' ≠ key →
                entries (updateExisting key (merge oldEntry entry) ms) !! k'
                = entries ms !! k') as Hfr
        by (intros k' Hk'; simpl; by apply lookup_insert_ne).
      case_match; cbn [fst snd].
      * split; [split; simpl; eauto|]. intros k. rewrite <- Hv1.
        apply view_add; [by left|done].
      * split; [split; simpl; eauto|]. intros k. rewrite <- Hv1.
        by apply (pinned_view _ key).
    + destruct (IsDeny (Exported entry)) eqn:Hd; [|done].
      specialize (Hpol oldEntry eq_refl eq_refl). congruence.
  - apply tracked_destruct in Ht as (a & d & o & ->). cbn [Adds Deletes old].
    cbn [negb orb fst snd]. split; [split; simpl; eauto|]. intros k.
    apply view_add; [by right|]. intros k' Hk'.
    rewrite entries_upsert. by apply lookup_insert_ne.
Qed.

(** **** The loops of the precedence engine *)

Lemma coveredByDeny_true ms newKey newEntry ks :
  coveredByDeny ms newKey newEntry ks = true ↔
  ∃ k v, k ∈ ks ∧ entries ms !! k = Some v ∧ IsDeny (Exported v) = true ∧
         ¬ (IsDeny (Exported newEntry) = true ∧ k = newKey).
Proof.
  induction ks as [|k0 ks IH]; simpl.
  - split; [done|]. intros (k & v & Hin & _). by apply elem_of_nil in Hin.
  - unfold forKey. destruct (entries ms !! k0) as [v0|] eqn:He.
    + destruct (IsDeny (Exported v0) &&
                negb (IsDeny (Exported newEntry) && bool_decide (k0 = newKey))) eqn:Hc.
      * split; [intros _|done]. exists k0, v0.
        apply andb_true_iff in Hc as [Hd Hn]. apply negb_true_iff in Hn.
        split; [by left|]. split; [done|]. split; [done|].
        intros [H1 H2]. rewrite H1, bool_decide_eq_true_2 in Hn; done.
      * rewrite IH. split.
        -- intros (k & v & Hin & Hr). exists k, v. split; [by right|done].
        -- intros (k & v & [->|Hin]%elem_of_cons & Hk & Hd & Hn); [|by eauto 6].
           exfalso. rewrite He in Hk. injection Hk as ->. rewrite Hd in Hc.
           simpl in Hc. apply negb_false_iff, andb_true_iff in Hc as [H1 H2].
           apply bool_decide_eq_true_1 in H2. by apply Hn.
    + rewrite IH. split.
      * intros (k & v & Hin & Hr). exists k, v. split; [by right|done].
      * intros (k & v & [->|Hin]%elem_of_cons & Hk & Hr); [congruence|by eauto 6].
Qed.

Lemma coveredByDeny_false ms newKey newEntry ks :
  coveredByDeny ms newKey newEntry ks = false ↔
  ∀ k v, k ∈ ks → entries ms !! k = Some v → IsDeny (Exported v) = true →
         IsDeny (Exported newEntry) = true ∧ k = newKey.
Proof.
  rewrite <- not_true_iff_false, coveredByDeny_true. split.
  - intros Hn k v Hin Hk Hd.
    destruct (decide (IsDeny (Exported newEntry) = true ∧ k = newKey)) as [?|Hx];
      [done|].
    exfalso. apply Hn. by exists k, v.
  - intros H (k & v & Hin & Hk & Hd & Hn). apply Hn. by eapply H.
Qed.

Lemma deleteCovered_consistent newKey ks ch ms :
  trie_consistent ms → trie_consistent (deleteCovered newKey ks ch ms).1.
Proof.
  revert ch ms. induction ks as [|k0 ks IH]; intros ch ms Hc; simpl; [done|].
  unfold forKey. destruct (entries ms !! k0) as [v0|]; [|by apply IH].
  case_match; [|by apply IH].
  pose proof (deleteKeyWithChanges_consistent k0 None ch ms Hc) as Hc1.
  destruct (deleteKeyWithChanges k0 None ch ms) as [ms1 ch1]. by apply IH.
Qed.

Lemma deleteCovered_view newKey ks ch ms :
  tracked ch →
  let r := deleteCovered newKey ks ch ms in
  tracked r.2 ∧ ∀ k, revertView r.2 (entries r.1) k = revertView ch (entries ms) k.
Proof.
  revert ch ms. induction ks as [|k0 ks IH]; intros ch ms Ht; simpl; [done|].
  unfold forKey. destruct (entries ms !! k0) as [v0|]; [|by apply IH].
  case_match; [|by apply IH].
  pose proof (deleteKeyWithChanges_view k0 None ch ms Ht) as [Ht1 Hv1].
  destruct (deleteKeyWithChanges k0 None ch ms) as [ms1 ch1]. cbn [fst snd] in *.
  destruct (IH ch1 ms1 Ht1) as [Ht2 Hv2]. split; [done|].
  intros k. by rewrite Hv2.
Qed.

Lemma deleteCovered_entries newKey ks ch ms k :
  entries (deleteCovered newKey ks ch ms).1 !! k =
    match entries ms !! k with
    | Some v =>
        if bool_decide (k ∈ ks) &&
           negb (IsDeny (Exported v) && bool_decide (k = newKey))
        then None else Some v
    | None => None
    end.
Proof.
  revert ch ms. induction ks as [|k0 ks IH]; intros ch ms; simpl.
  - by destruct (entries ms !! k).
  - unfold forKey. destruct (entries ms !! k0) as [v0|] eqn:He.
    + destruct (negb (IsDeny (Exported v0) && bool_decide (k0 = newKey))) eqn:Hc.
      * pose proof (deleteKeyWithChanges_nil_entries k0 ch ms) as Hd.
        destruct (deleteKeyWithChanges k0 None ch ms) as [ms1 ch1]. simpl in Hd.
        rewrite IH, Hd. destruct (decide (k = k0)) as [->|Hne].
        -- rewrite lookup_delete_eq, He, Hc.
           rewrite bool_decide_eq_true_2; [done|by left].
        -- rewrite lookup_delete_ne by done.
           destruct (entries ms !! k); [|done].
           by rewrite (bool_decide_ext (k ∈ k0 :: ks) (k ∈ ks)) by set_solver.
      * rewrite IH. destruct (decide (k = k0)) as [->|Hne].
        -- rewrite He, Hc. by rewrite !andb_false_r.
        -- destruct (entries ms !! k); [|done].
           by rewrite (bool_decide_ext (k ∈ k0 :: ks) (k ∈ ks)) by set_solver.
    + rewrite IH. destruct (decide (k = k0)) as [->|Hne].
      * by rewrite He.
      * destruct (entries ms !! k); [|done].
        by rewrite (bool_decide_ext (k ∈ k0 :: ks) (k ∈ ks)) by set_solver.
Qed.

Lemma coveringAuthType_ok ms newEntry ks :
  (∀ k v, k ∈ ks → entries ms !! k = Some v → IsDeny (Exported v) = false) →
  ∃ e, coveringAuthType ms newEntry ks = Ok e ∧
       IsDeny (Exported e) = IsDeny (Exported newEntry).
Proof.
  induction ks as [|k0 ks IH]; intros Hnd; simpl; [by eauto|].
  unfold forKey. destruct (entries ms !! k0) as [v0|] eqn:He.
  - rewrite (Hnd k0 v0); [|by left|done].
    case_bool_decide; [by eauto|].
    apply IH. intros k v Hin. apply Hnd. by right.
  - apply IH. intros k v Hin. apply Hnd. by right.
Qed.

Lemma overrideAuthType_consistent newEntry k v ch ms :
  entries ms !! k = Some v → trie_consistent ms →
  trie_consistent (overrideAuthType newEntry k v ch ms).1.
Proof.
  intros He Hc. unfold overrideAuthType. cbn [fst].
  apply rewrite_existing_consistent; eauto.
Qed.

Lemma overrideAuthType_view newEntry k0 v ch ms :
  entries ms !! k0 = Some v → tracked ch →
  let r := overrideAuthType newEntry k0 v ch ms in
  tracked r.2 ∧ ∀ k, revertView r.2 (entries r.1) k = revertView ch (entries ms) k.
Proof.
  intros He Ht. unfold overrideAuthType. cbn [fst snd].
  pose proof (insertOldIfNotExists_view k0 v ch (entries ms) Ht He)
    as (Ht1 & Ha1 & Hd1 & Hp1 & Hv1).
  split; [done|]. intros k. rewrite <- Hv1.
  apply (pinned_view _ k0); [done|]. intros k' Hk'. simpl.
  by apply lookup_insert_ne.
Qed.

Lemma propagateAuthType_consistent newEntry ks ch ms :
  trie_consistent ms → trie_consistent (propagateAuthType newEntry ks ch ms).1.
Proof.
  revert ch ms. induction ks as [|k0 ks IH]; intros ch ms Hc;
    cbn [propagateAuthType]; [done|].
  unfold forKey. destruct (entries ms !! k0) as [v0|] eqn:He; [|by apply IH].
  case_match; [done|].
  pose proof (overrideAuthType_consistent newEntry k0 v0 ch ms He Hc) as Hc1.
  destruct (overrideAuthType newEntry k0 v0 ch ms) as [ms1 ch1]. by apply IH.
Qed.

Lemma propagateAuthType_view newEntry ks ch ms :
  tracked ch →
  let r := propagateAuthType newEntry ks ch ms in
  tracked r.2 ∧ ∀ k, revertView r.2 (entries r.1) k = revertView ch (entries ms) k.
Proof.
  revert ch ms. induction ks as [|k0 ks IH]; intros ch ms Ht;
    cbn [propagateAuthType]; [done|].
  unfold forKey. destruct (entries ms !! k0) as [v0|] eqn:He; [|by apply IH].
  case_match; [done|].
  pose proof (overrideAuthType_view newEntry k0 v0 ch ms He Ht) as [Ht1 Hv1].
  destruct (overrideAuthType newEntry k0 v0 ch ms) as [ms1 ch1]. cbn [fst snd] in *.
  destruct (IH ch1 ms1 Ht1) as [Ht2 Hv2]. split; [done|].
  intros k. by rewrite Hv2.
Qed.

(** **** Insertion with precedence *)

Lemma consistent_elem_of_BroaderOrEqualKeys ms key k :
  trie_consistent ms → is_Some (entries ms !! k) →
  isPrefixOf (LPM k) (LPM key) = true →
  (Identity k = 0 ∨ Identity k = Identity key) →
  k ∈ BroaderOrEqualKeys ms key.
Proof.
  intros [Hk _] Hs Hp Hid. apply elem_of_BroaderOrEqualKeys.
  apply Hk in Hs as (ids & Ht & Hin). by exists ids.
Qed.

Lemma consistent_elem_of_NarrowerOrEqualKeys ms key k :
  trie_consistent ms → is_Some (entries ms !! k) →
  isPrefixOf (LPM key) (LPM k) = true →
  (Identity key = 0 ∨ Identity k = Identity key) →
  k ∈ NarrowerOrEqualKeys ms key.
Proof.
  intros [Hk _] Hs Hp Hid. apply elem_of_NarrowerOrEqualKeys.
  apply Hk in Hs as (ids & Ht & Hin). by exists ids.
Qed.

Lemma CoveringKeysWithSameID_broader ms key k :
  k ∈ CoveringKeysWithSameID ms key → k ∈ BroaderOrEqualKeys ms key.
Proof.
  rewrite elem_of_CoveringKeysWithSameID, elem_of_BroaderOrEqualKeys.
  intros (ids & Ht & Hin & Hp & _ & Hid). exists ids. naive_solver.
Qed.

Lemma authPreferredInsert_spec newKey newEntry ch ms :
  IsDeny (Exported newEntry) = false →
  coveredByDeny ms newKey newEntry (BroaderOrEqualKeys ms newKey) = false →
  ∃ ms' ch', authPreferredInsert newKey newEntry ch ms = Ok (ms', ch') ∧
    (trie_consistent ms → trie_consistent ms') ∧
    (tracked ch → tracked ch' ∧
       ∀ k, revertView ch' (entries ms') k = revertView ch (entries ms) k).
Proof.
  intros Ha Hcov. unfold authPreferredInsert.
  case_bool_decide as Hdef.
  - destruct (coveringAuthType_ok ms newEntry (CoveringKeysWithSameID ms newKey))
      as (e' & -> & He').
    { intros k v Hin Hk. destruct (IsDeny (Exported v)) eqn:Hd; [|done].
      rewrite coveredByDeny_false in Hcov.
      destruct (Hcov k v) as [Hx _]; [by apply CoveringKeysWithSameID_broader|done..|].
      congruence. }
    pose proof (addKeyWithChanges_consistent newKey e' ch ms) as Hc.
    pose proof (addKeyWithChanges_view newKey e' ch ms) as Hv.
    destruct (addKeyWithChanges newKey e' ch ms) as [[b ms'] ch'].
    exists ms', ch'. split; [done|]. split; [done|].
    intros Ht. apply Hv; [done|]. intros oldE _. congruence.
  - pose proof (propagateAuthType_consistent newEntry
                  (SubsetKeysWithSameID ms newKey) ch ms) as Hc1.
    pose proof (propagateAuthType_view newEntry
                  (SubsetKeysWithSameID ms newKey) ch ms) as Hv1.
    destruct (propagateAuthType newEntry (SubsetKeysWithSameID ms newKey) ch ms)
      as [ms1 ch1]. cbn [fst snd] in *.
    pose proof (addKeyWithChanges_consistent newKey newEntry ch1 ms1) as Hc.
    pose proof (addKeyWithChanges_view newKey newEntry ch1 ms1) as Hv.
    destruct (addKeyWithChanges newKey newEntry ch1 ms1) as [[b ms'] ch'].
    exists ms', ch'. split; [done|]. split; [by auto|].
    intros Ht. destruct (Hv1 Ht) as [Ht1 Hv1'].
    destruct Hv as [Ht' Hv']; [done|intros oldE _; congruence|].
    split; [done|]. intros k. cbn [fst snd] in *. by rewrite Hv'.
Qed.

Lemma insertWithChanges_spec key entry features ch ms :
  trie_consistent ms →
  ∃ ms' ch', insertWithChanges key entry features ch ms = Ok (ms', ch') ∧
    trie_consistent ms' ∧
    (tracked ch → tracked ch' ∧
       ∀ k, revertView ch' (entries ms') k = revertView ch (entries ms) k).
Proof.
  intros Hc. unfold insertWithChanges, denyPreferredInsertWithChanges.
  destruct (coveredByDeny ms key entry (BroaderOrEqualKeys ms key)) eqn:Hcov.
  { exists ms, ch. done. }
  destruct (IsDeny (Exported entry)) eqn:Hd.
  - pose proof (deleteCovered_consistent key (NarrowerOrEqualKeys ms key) ch ms Hc)
      as Hc1.
    pose proof (deleteCovered_view key (NarrowerOrEqualKeys ms key) ch ms) as Hv1.
    pose proof (deleteCovered_entries key (NarrowerOrEqualKeys ms key) ch ms key)
      as He1.
    destruct (deleteCovered key (NarrowerOrEqualKeys ms key) ch ms) as [ms1 ch1].
    cbn [fst snd] in *.
    pose proof (addKeyWithChanges_consistent key entry ch1 ms1 Hc1) as Hc2.
    pose proof (addKeyWithChanges_view key entry ch1 ms1) as Hv2.
    destruct (addKeyWithChanges key entry ch1 ms1) as [[b ms'] ch'].
    cbn [fst snd] in *.
    exists ms', ch'. split; [done|]. split; [done|].
    intros Ht. destruct (Hv1 Ht) as [Ht1 Hv1'].
    destruct Hv2 as [Ht' Hv']; [done| |].
    + intros oldE Ho _. rewrite Ho in He1.
      destruct (entries ms !! key) as [v|] eqn:Hk; [|done].
      assert (key ∈ NarrowerOrEqualKeys ms key) as Hin.
      { apply consistent_elem_of_NarrowerOrEqualKeys; eauto using isPrefixOf_refl. }
      rewrite (bool_decide_eq_true_2 _ Hin) in He1. simpl in He1.
      destruct (IsDeny (Exported v)) eqn:Hdv; simpl in He1; [|done].
      rewrite bool_decide_eq_true_2 in He1 by done. simpl in He1. congruence.
    + split; [done|]. intros k. by rewrite Hv'.
  - destruct (contains features authRules).
    + destruct (authPreferredInsert_spec key entry ch ms Hd Hcov)
        as (ms' & ch' & -> & Hc' & Hv'). exists ms', ch'. auto.
    + pose proof (addKeyWithChanges_consistent key entry ch ms Hc) as Hc2.
      pose proof (addKeyWithChanges_view key entry ch ms) as Hv2.
      destruct (addKeyWithChanges key entry ch ms) as [[b ms'] ch'].
      cbn [fst snd] in *. exists ms', ch'. split; [done|]. split; [done|].
      intros Ht. apply Hv2; [done|]. intros oldE _. congruence.
Qed.

(** *** Deny precedence *)

(** C2: when the map state contains a deny entry whose prefix is broader
    than or equal to that of [k] and whose identity is that of [k] or the
    wildcard, [insertWithChanges k e] returns without changing the
    entries, the trie or the change state, unless [e] is a deny entry for
    that very key. *)
Theorem C2_deny_shadow_aborts (ms : mapState) (dk k : Key) (dv e : mapStateEntry)
    (features : policyFeatures) (changes : ChangeState) :
  trie_consistent ms →
  entries ms !! dk = Some dv →
  IsDeny (Exported dv) = true →
  isPrefixOf (LPM dk) (LPM k) = true →
  (Identity dk = Identity k ∨ Identity dk = 0) →
  ¬ (IsDeny (Exported e) = true ∧ dk = k) →
  insertWithChanges k e features changes ms = Ok (ms, changes).
Proof.
  intros Hc Hdk Hd Hp Hid Hn.
  unfold insertWithChanges, denyPreferredInsertWithChanges.
  assert (coveredByDeny ms k e (BroaderOrEqualKeys ms k) = true) as ->; [|done].
  apply coveredByDeny_true. exists dk, dv. split; [|done].
  apply consistent_elem_of_BroaderOrEqualKeys; eauto. tauto.
Qed.

(** The first scenario: the deny entry [D] removes the allow entry [A], and
    [A] cannot be inserted again. *)
Example scenario_deny_removes_allow :
  ∃ ch, insertTwice keyA allowEntry keyD denyEntry allFeatures newMapState
        = Ok (upsert keyD denyEntry newMapState, ch).
Proof. eexists. vm_compute. reflexivity. Qed.

(** An L3-only deny entry covers an allow entry for a port of TCP. *)
Lemma C2_deny_shadow_aborts_witness :
  insertWithChanges keyA allowEntry allFeatures newChangeState
                    (upsert keyL3 denyEntry newMapState)
  = Ok (upsert keyL3 denyEntry newMapState, newChangeState).
Proof.
  apply (C2_deny_shadow_aborts _ keyL3 keyA denyEntry).
  - apply upsert_consistent, trie_consistent_new.
  - reflexivity.
  - reflexivity.
  - reflexivity.
  - left. reflexivity.
  - intros [H _]. discriminate H.
Defined.

(** C1, as stated, fails on a map state in which an allow entry is
    already covered by a deny entry, a state that [upsert] builds: the
    insertion of a deny entry at a key that this deny entry covers returns
    at the shadow check, and the allow entry of narrower prefix and the
    same identity is still there. *)
Lemma C1_deny_dominance_counterexample :
  let ms := upsert keyD denyEntry (upsert keyA allowEntry newMapState) in
  trie_consistent ms ∧
  IsDeny (Exported denyEntry) = true ∧
  insertWithChanges keyA2 denyEntry allFeatures newChangeState ms
    = Ok (ms, newChangeState) ∧
  entries ms !! keyA = Some allowEntry ∧
  IsDeny (Exported allowEntry) = false ∧
  isPrefixOf (LPM keyA2) (LPM keyA) = true ∧
  Identity keyA = Identity keyA2.
Proof.
  intros ms. split; [do 2 apply upsert_consistent; apply trie_consistent_new|].
  split; [reflexivity|]. split; [vm_compute; reflexivity|].
  split; [vm_compute; reflexivity|]. split; [reflexivity|].
  split; reflexivity.
Qed.

(** C1, amended: on a map state with consistent trie in which no allow
    entry is covered by a deny entry (the invariants I1 and I2), after
    [insertWithChanges] of a deny entry with key [d] no key [a] of narrower
    or equal prefix with [a.identity = d.identity] or [d.identity = 0] is
    left with an allow entry.  When no other deny key covers [d], every
    such key other than [d] is deleted and [d] holds a deny entry; when
    another deny key covers [d], nothing is changed. *)
Theorem C1_deny_dominance (ms : mapState) (d : Key) (e : mapStateEntry)
    (features : policyFeatures) (changes : ChangeState) :
  trie_consistent ms →
  deny_dominance ms →
  IsDeny (Exported e) = true →
  ∃ ms' changes',
    insertWithChanges d e features changes ms = Ok (ms', changes') ∧
    (∀ a v, entries ms' !! a = Some v →
            isPrefixOf (LPM d) (LPM a) = true →
            (Identity a = Identity d ∨ Identity d = 0) →
            IsDeny (Exported v) = true) ∧
    ((∀ dk dv, entries ms !! dk = Some dv → IsDeny (Exported dv) = true →
               isPrefixOf (LPM dk) (LPM d) = true →
               (Identity dk = Identity d ∨ Identity dk = 0) → dk = d) →
     (∀ a, isPrefixOf (LPM d) (LPM a) = true →
           (Identity a = Identity d ∨ Identity d = 0) →
           a ≠ d → entries ms' !! a = None) ∧
     (∃ v, entries ms' !! d = Some v ∧ IsDeny (Exported v) = true)) ∧
    ((∃ dk dv, entries ms !! dk = Some dv ∧ IsDeny (Exported dv) = true ∧
               isPrefixOf (LPM dk) (LPM d) = true ∧
               (Identity dk = Identity d ∨ Identity dk = 0) ∧ dk ≠ d) →
     ms' = ms ∧ changes' = changes).
Proof.
  intros Hc Hdom Hd. unfold insertWithChanges, denyPreferredInsertWithChanges.
  destruct (coveredByDeny ms d e (BroaderOrEqualKeys ms d)) eqn:Hcov.
  - exists ms, changes. split; [done|].
    apply coveredByDeny_true in Hcov as (dk & dv & Hin & Hdk & Hdd & Hne).
    apply elem_of_BroaderOrEqualKeys in Hin as (ids & _ & _ & Hp & Hid).
    split; [|split; [|done]].
    + intros a v Ha Hpa Hida. destruct (IsDeny (Exported v)) eqn:Hv; [done|].
      exfalso. eapply (Hdom a v dk dv); eauto using isPrefixOf_trans.
      destruct Hid as [Hz|Hz]; [by right|]. rewrite Hz.
      destruct Hida as [->|Hz']; [by left|]. right. congruence.
    + intros Huniq. exfalso. apply Hne. split; [done|].
      apply (Huniq dk dv); auto. tauto.
  - rewrite Hd.
    pose proof (deleteCovered_entries d (NarrowerOrEqualKeys ms d) changes ms) as He1.
    destruct (deleteCovered d (NarrowerOrEqualKeys ms d) changes ms) as [ms1 ch1].
    cbn [fst snd] in *.
    pose proof (addKeyWithChanges_entries_ne d e ch1 ms1) as Hne.
    pose proof (addKeyWithChanges_polarity d e ch1 ms1) as Hpol.
    pose proof (addKeyWithChanges_deny d e ch1 ms1 Hd) as Hdeny.
    destruct (addKeyWithChanges d e ch1 ms1) as [[b ms'] ch'].
    cbn [fst snd] in *. exists ms', ch'. split; [done|].
    assert (∀ a, isPrefixOf (LPM d) (LPM a) = true →
                 (Identity a = Identity d ∨ Identity d = 0) →
                 a ≠ d → entries ms' !! a = None) as Hdel.
    { intros a Hpa Hida Had. rewrite Hne by done. rewrite He1.
      destruct (entries ms !! a) as [v|] eqn:Ha; [|done].
      rewrite bool_decide_eq_true_2.
      - rewrite (bool_decide_eq_false_2 (a = d)) by done.
        by rewrite andb_false_r.
      - apply consistent_elem_of_NarrowerOrEqualKeys; eauto. tauto. }
    split; [|split; [by intros _|]].
    + intros a v Ha Hpa Hida. destruct (decide (a = d)) as [->|Had].
      * destruct (Hpol v Ha) as [->|[_ ?]]; done.
      * rewrite Hdel in Ha; done.
    + intros (dk & dv & Hdk & Hdd & Hp & Hid & Hdne). exfalso.
      pose proof (proj1 (coveredByDeny_false ms d e (BroaderOrEqualKeys ms d)) Hcov)
        as Hall.
      destruct (Hall dk dv) as [_ Heq]; [|done|done|done].
      apply consistent_elem_of_BroaderOrEqualKeys; eauto. tauto.
Qed.

(** An L3-only deny entry removes the allow entry for a port of TCP with
    its identity. *)
Lemma C1_deny_dominance_witness :
  ∃ ms' changes',
    insertWithChanges keyL3 denyEntry allFeatures newChangeState
                      (upsert keyA allowEntry newMapState) = Ok (ms', changes') ∧
    (∀ a v, entries ms' !! a = Some v →
            isPrefixOf (LPM keyL3) (LPM a) = true →
            (Identity a = Identity keyL3 ∨ Identity keyL3 = 0) →
            IsDeny (Exported v) = true) ∧
    entries ms' !! keyA = None.
Proof.
  destruct (C1_deny_dominance (upsert keyA allowEntry newMapState) keyL3 denyEntry
              allFeatures newChangeState) as (ms' & ch' & H1 & H2 & H3 & _).
  - apply upsert_consistent, trie_consistent_new.
  - intros a va d vd _ _ Hd Hdeny _ _. rewrite entries_upsert in Hd.
    destruct (decide (keyA = d)) as [<-|Hne].
    + rewrite lookup_insert_eq in Hd. injection Hd as <-. discriminate Hdeny.
    + rewrite lookup_insert_ne in Hd by done. discriminate Hd.
  - reflexivity.
  - exists ms', ch'. split; [exact H1|]. split; [exact H2|].
    destruct H3 as [H3 _].
    + intros dk dv Hd Hdeny _ _. rewrite entries_upsert in Hd.
      destruct (decide (keyA = dk)) as [<-|Hne].
      * rewrite lookup_insert_eq in Hd. injection Hd as <-. discriminate Hdeny.
      * rewrite lookup_insert_ne in Hd by done. discriminate Hd.
    + apply H3; [reflexivity|left; reflexivity|discriminate].
Defined.

(** The same with the engine run: the L3-only deny entry [keyL3] removes
    the allow entry [A], and is all that is left. *)
Example scenario_l3_deny_removes_l4_allow :
  ∃ ch, insertWithChanges keyL3 denyEntry allFeatures newChangeState
                          (upsert keyA allowEntry newMapState)
        = Ok (upsert keyL3 denyEntry newMapState, ch).
Proof. eexists. vm_compute. reflexivity. Qed.

(** *** Reverting a batch *)

Lemma applyBatch_spec ops ch ms :
  trie_consistent ms → tracked ch →
  ∃ ms' ch', applyBatch ops ch ms = Ok (ms', ch') ∧
    trie_consistent ms' ∧ tracked ch' ∧
    ∀ k, revertView ch' (entries ms') k = revertView ch (entries ms) k.
Proof.
  revert ch ms. induction ops as [|op ops IH]; intros ch ms Hc Ht.
  { exists ms, ch. done. }
  destruct op as [key entry features|key owner]; cbn [applyBatch].
  - destruct (insertWithChanges_spec key entry features ch ms Hc)
      as (ms1 & ch1 & -> & Hc1 & Hv1).
    destruct (Hv1 Ht) as [Ht1 Hv1'].
    destruct (IH ch1 ms1 Hc1 Ht1) as (ms' & ch' & -> & Hc' & Ht' & Hv').
    exists ms', ch'. split; [done|]. split; [done|]. split; [done|].
    intros k. by rewrite Hv'.
  - pose proof (deleteKeyWithChanges_consistent key owner ch ms Hc) as Hc1.
    pose proof (deleteKeyWithChanges_view key owner ch ms Ht) as [Ht1 Hv1].
    destruct (deleteKeyWithChanges key owner ch ms) as [ms1 ch1].
    cbn [fst snd] in *.
    destruct (IH ch1 ms1 Hc1 Ht1) as (ms' & ch' & -> & Hc' & Ht' & Hv').
    exists ms', ch'. split; [done|]. split; [done|]. split; [done|].
    intros k. by rewrite Hv'.
Qed.



(** The batch of the witness deletes [A] and adds and deletes [D]; the
    reverted state is again the state with [A] alone. *)
Example revert_after_deny_batch :
  match applyBatch [BatchInsert keyD denyEntry allFeatures; BatchDelete keyD None]
                   newChangeState (upsert keyA allowEntry newMapState) with
  | Ok (ms', ch') =>
      ms' = newMapState ∧
      revertChanges ch' ms' = upsert keyA allowEntry newMapState
  | Panic _ => False
  end.
Proof. vm_compute. split; reflexivity. Qed.

(** *** Propagation of the authentication type *)

#[local] Instance shorterPrefix_trans : Transitive shorterPrefix.
Proof. intros a b c. unfold shorterPrefix. lia. Qed.

#[local] Instance shorterPrefix_total : Total shorterPrefix.
Proof. intros a b. unfold shorterPrefix. lia. Qed.

Lemma NoDup_fst_filter {A B} (P : A * B → Prop) `{∀ x, Decision (P x)}
    (l : list (A * B)) :
  NoDup l.*1 → NoDup (filter P l).*1.
Proof.
  induction l as [|p l IH]; [done|].
  rewrite fmap_cons. intros [Hp Hnd]%list.NoDup_cons.
  rewrite filter_cons. case_decide; [|by apply IH].
  rewrite fmap_cons. apply list.NoDup_cons. split; [|by apply IH].
  intros Hin. apply Hp. apply list_elem_of_fmap in Hin as (q & -> & Hq).
  apply list_elem_of_filter in Hq as [_ Hq]. by apply list_elem_of_fmap_2.
Qed.

Lemma NoDup_fst_DescendantShortestPrefixFirstIterator t key :
  NoDup (DescendantShortestPrefixFirstIterator t key).*1.
Proof.
  unfold DescendantShortestPrefixFirstIterator, DescendantIterator.
  rewrite merge_sort_Permutation.
  apply NoDup_fst_filter, NoDup_fst_map_to_list.
Qed.

Lemma NoDup_SubsetKeysWithSameID ms key : NoDup (SubsetKeysWithSameID ms key).
Proof.
  unfold SubsetKeysWithSameID.
  pose proof (NoDup_fst_DescendantShortestPrefixFirstIterator (trie ms) (LPM key))
    as Hnd.
  induction (DescendantShortestPrefixFirstIterator (trie ms) (LPM key))
    as [|p l IH]; [constructor|].
  rewrite fmap_cons in Hnd. apply list.NoDup_cons in Hnd as [Hp Hnd].
  rewrite bind_cons. cbn zeta.
  destruct (negb (PortProtoIsEqual (mkKey p.1 0) key)); [|by apply IH].
  unfold forID. case_decide; [|by apply IH].
  apply list.NoDup_cons. split; [|by apply IH].
  intros (q & Hk & Hq)%list_elem_of_bind. apply Hp.
  assert (q.1 = p.1) as <-; [|by apply list_elem_of_fmap_2].
  cbn zeta in Hk. destruct (negb _); [|by apply elem_of_nil in Hk].
  apply elem_of_forID in Hk as [Hk _]. by injection Hk.
Qed.

Lemma StronglySorted_SubsetKeysWithSameID ms key :
  StronglySorted shorterKey (SubsetKeysWithSameID ms key).
Proof.
  unfold SubsetKeysWithSameID, DescendantShortestPrefixFirstIterator.
  pose proof (StronglySorted_merge_sort shorterPrefix
                (DescendantIterator (trie ms) (LPM key))) as Hs.
  induction Hs as [|p l Hs IH Hall]; [constructor|].
  rewrite bind_cons. cbn zeta.
  destruct (negb (PortProtoIsEqual (mkKey p.1 0) key)); [|done].
  unfold forID. case_decide; [|done].
  constructor; [done|].
  apply list.Forall_forall. intros k (q & Hk & Hq)%list_elem_of_bind.
  rewrite list.Forall_forall in Hall. specialize (Hall q Hq).
  cbn zeta in Hk. destruct (negb _); [|by apply elem_of_nil in Hk].
  apply elem_of_forID in Hk as [-> _]. done.
Qed.

Lemma SubsetKeysWithSameID_ne ms key k :
  k ∈ SubsetKeysWithSameID ms key → k ≠ key.
Proof.
  intros (ids & _ & _ & _ & Hne & _)%elem_of_SubsetKeysWithSameID ->.
  unfold PortProtoIsEqual in Hne. by rewrite !N.eqb_refl in Hne.
Qed.

Lemma propagateAuthType_frame newEntry ks ch ms k :
  k ∉ ks → entries (propagateAuthType newEntry ks ch ms).1 !! k = entries ms !! k.
Proof.
  revert ch ms. induction ks as [|k0 ks IH]; intros ch ms Hn;
    cbn [propagateAuthType]; [done|].
  apply not_elem_of_cons in Hn as [Hne Hn].
  unfold forKey. destruct (entries ms !! k0) as [v0|] eqn:He; [|by apply IH].
  case_match; [done|].
  unfold overrideAuthType. rewrite IH by done. simpl. by apply lookup_insert_ne.
Qed.

Lemma propagateAuthType_app newEntry pre ks ch ms :
  NoDup (pre ++ ks) →
  (∀ k v, k ∈ pre → entries ms !! k = Some v →
          IsDeny (Exported v) = false ∧ HasAuth (Exported v) = DefaultAuthType) →
  ∃ ch1 ms1,
    propagateAuthType newEntry (pre ++ ks) ch ms
      = propagateAuthType newEntry ks ch1 ms1 ∧
    ∀ k, k ∉ pre → entries ms1 !! k = entries ms !! k.
Proof.
  revert ch ms. induction pre as [|k0 pre IH]; intros ch ms Hnd Hpre.
  { exists ch, ms. done. }
  rewrite <- app_comm_cons in *. apply list.NoDup_cons in Hnd as [Hk0 Hnd].
  cbn [propagateAuthType]. unfold forKey.
  destruct (entries ms !! k0) as [v0|] eqn:He.
  - destruct (Hpre k0 v0) as [Hd Ha]; [by left|done|]. rewrite Hd, Ha. simpl.
    unfold overrideAuthType.
    edestruct (IH (insertOldIfNotExists k0 v0 ch).2
                 (mkMapState (<[k0 := setAuthType v0 (AuthTy (Exported newEntry))]>
                                (entries ms)) (trie ms)))
      as (ch1 & ms1 & -> & Hfr); [done| |].
    + intros k v Hin. simpl. rewrite lookup_insert_ne.
      * apply Hpre. by right.
      * intros ->. apply Hk0. apply elem_of_app. by left.
    + exists ch1, ms1. split; [done|]. intros k [Hne Hn]%not_elem_of_cons.
      rewrite Hfr by done. simpl. by apply lookup_insert_ne.
  - edestruct (IH ch ms) as (ch1 & ms1 & -> & Hfr); [done| |].
    + intros k v Hin. apply Hpre. by right.
    + exists ch1, ms1. split; [done|]. intros k [Hne Hn]%not_elem_of_cons.
      by apply Hfr.
Qed.

(** C7, as stated, fails for the covered key of equal prefix: an existing
    allow entry with default auth type at the very key of the insertion is
    merged with the new entry, and its [HasAuthType] becomes explicit. *)
Lemma C7_auth_propagation_counterexample :
  let newEntry := newMapStateEntry None [] 0 "" 0 false ExplicitAuthType 1 in
  isPrefixOf (LPM keyA2) (LPM keyA2) = true ∧
  entries (upsert keyA2 allowEntry newMapState) !! keyA2 = Some allowEntry ∧
  IsDeny (Exported allowEntry) = false ∧
  HasAuth (Exported allowEntry) = DefaultAuthType ∧
  match insertWithChanges keyA2 newEntry allFeatures newChangeState
                          (upsert keyA2 allowEntry newMapState) with
  | Ok (ms', _) =>
      ∃ v, entries ms' !! keyA2 = Some v ∧ AuthTy (Exported v) = 1 ∧
           HasAuth (Exported v) = ExplicitAuthType ∧
           HasAuth (Exported v) ≠ DefaultAuthType
  | Panic _ => False
  end.
Proof.
  intros newEntry. split; [reflexivity|]. split; [reflexivity|].
  split; [reflexivity|]. split; [reflexivity|].
  vm_compute. eexists. split; [reflexivity|]. split; [reflexivity|].
  split; [reflexivity|]. discriminate.
Qed.

(** C7, amended: with the auth feature active, inserting an allow entry
    with explicit auth type at a key that no deny entry covers walks the
    entries of strictly narrower port/proto and the same identity, shortest
    prefix first; every allow entry with default auth type that the walk
    reaches before its first deny or explicit-auth entry has its auth type
    overwritten with that of the new entry while its [HasAuthType] stays
    default; from that first deny or explicit-auth entry on the walked
    entries are left as they are.  In the second scenario [A1] ends with
    the auth type of [A2] and default [HasAuthType]. *)
Theorem C7_auth_propagation (ms : mapState) (newKey : Key) (newEntry : mapStateEntry)
    (features : policyFeatures) (changes : ChangeState) :
  trie_consistent ms →
  contains features authRules = true →
  IsDeny (Exported newEntry) = false →
  HasAuth (Exported newEntry) = ExplicitAuthType →
  (∀ dk dv, entries ms !! dk = Some dv → IsDeny (Exported dv) = true →
            isPrefixOf (LPM dk) (LPM newKey) = true →
            (Identity dk = Identity newKey ∨ Identity dk = 0) → False) →
  let walk := SubsetKeysWithSameID ms newKey in
  let a := AuthTy (Exported newEntry) in
  ∃ ms' changes',
    insertWithChanges newKey newEntry features changes ms = Ok (ms', changes') ∧
    (∀ k, k ∈ walk ↔
          is_Some (entries ms !! k) ∧ Identity k = Identity newKey ∧
          isPrefixOf (LPM newKey) (LPM k) = true ∧
          PortProtoIsEqual k newKey = false) ∧
    StronglySorted shorterKey walk ∧
    (∀ pre k post v,
       walk = pre ++ k :: post →
       (∀ k' v', k' ∈ pre → entries ms !! k' = Some v' →
                 IsDeny (Exported v') = false ∧
                 HasAuth (Exported v') = DefaultAuthType) →
       entries ms !! k = Some v →
       (IsDeny (Exported v) = false → HasAuth (Exported v) = DefaultAuthType →
          entries ms' !! k = Some (setAuthType v a) ∧
          AuthTy (Exported (setAuthType v a)) = a ∧
          HasAuth (Exported (setAuthType v a)) = DefaultAuthType) ∧
       (IsDeny (Exported v) = true ∨ HasAuth (Exported v) = ExplicitAuthType →
          ∀ k', k' ∈ k :: post → entries ms' !! k' = entries ms !! k')) ∧
    (∀ mtls : AuthType,
       match insertTwice keyA allowEntry keyA2
               (newMapStateEntry None [] 0 "" 0 false ExplicitAuthType mtls)
               allFeatures newMapState with
       | Ok (ms2, _) =>
           ∃ v, entries ms2 !! keyA = Some v ∧ AuthTy (Exported v) = mtls ∧
                HasAuth (Exported v) = DefaultAuthType
       | Panic _ => False
       end).
Proof.
  intros Hc Hf Hallow Hexp Hnodeny walk a.
  unfold insertWithChanges, denyPreferredInsertWithChanges.
  assert (coveredByDeny ms newKey newEntry (BroaderOrEqualKeys ms newKey) = false)
    as ->.
  { apply coveredByDeny_false. intros k v Hin Hk Hd. exfalso.
    apply elem_of_BroaderOrEqualKeys in Hin as (ids & _ & _ & Hp & Hid).
    apply (Hnodeny k v); auto. tauto. }
  rewrite Hallow, Hf. unfold authPreferredInsert.
  rewrite Hexp. rewrite bool_decide_eq_false_2 by discriminate.
  fold walk.
  pose proof (NoDup_SubsetKeysWithSameID ms newKey) as Hnd. fold walk in Hnd.
  assert (∀ k, k ∈ walk → k ≠ newKey) as Hwne
    by (intros k; apply SubsetKeysWithSameID_ne).
  destruct (propagateAuthType newEntry walk changes ms) as [ms1 ch1] eqn:Hprop.
  pose proof (addKeyWithChanges_entries_ne newKey newEntry ch1 ms1) as Hadd.
  destruct (addKeyWithChanges newKey newEntry ch1 ms1) as [[b ms'] ch'].
  cbn [fst snd] in Hadd.
  exists ms', ch'. split; [done|]. split; [|split; [|split]].
  - intros k. unfold walk. rewrite elem_of_SubsetKeysWithSameID.
    destruct Hc as [Hkeys _]. rewrite Hkeys. naive_solver.
  - apply StronglySorted_SubsetKeysWithSameID.
  - intros pre k post v Hwalk Hpre Hk.
    rewrite Hwalk in Hnd, Hprop.
    assert ((k ∉ pre) ∧ (k ∉ post)) as [Hkpre Hkpost].
    { apply list.NoDup_app in Hnd as (_ & Hdis & [Hkp _]%list.NoDup_cons).
      split; [|done]. intros Hin. apply (Hdis k Hin). by left. }
    destruct (propagateAuthType_app newEntry pre (k :: post) changes ms Hnd Hpre)
      as (ch0 & ms0 & Happ & Hfr).
    rewrite Happ in Hprop. cbn [propagateAuthType] in Hprop. unfold forKey in Hprop.
    rewrite (Hfr k Hkpre), Hk in Hprop.
    split.
    + intros Hd Ha. rewrite Hd, Ha in Hprop. simpl in Hprop.
      split; [|done]. rewrite Hadd.
      * pose proof (propagateAuthType_frame newEntry post
                      (insertOldIfNotExists k v ch0).2
                      (mkMapState (<[k := setAuthType v a]> (entries ms0)) (trie ms0))
                      k Hkpost) as Hpf.
        unfold a in Hpf. rewrite Hprop in Hpf. cbn [fst entries] in Hpf.
        rewrite Hpf. apply lookup_insert_eq.
      * apply Hwne. rewrite Hwalk. apply elem_of_app. right. by left.
    + intros Hshield.
      assert (IsDeny (Exported v) ||
              bool_decide (HasAuth (Exported v) = ExplicitAuthType) = true) as Hs.
      { destruct Hshield as [-> | ->]; [done|]. by rewrite orb_true_r. }
      rewrite Hs in Hprop. injection Hprop as <- <-.
      intros k' Hin. rewrite Hadd.
      * apply Hfr. intros Hin'.
        apply list.NoDup_app in Hnd as (_ & Hdis & _). by apply (Hdis k' Hin').
      * apply Hwne. rewrite Hwalk. apply elem_of_app. by right.
  - intros mtls. vm_compute. eexists. split; [reflexivity|]. done.
Qed.

(** The second scenario as an instance: [A1] is the only entry of the walk
    of [A2]. *)
Lemma C7_auth_propagation_witness :
  let ms := upsert keyA allowEntry newMapState in
  let newEntry := newMapStateEntry None [] 0 "" 0 false ExplicitAuthType 2 in
  ∃ ms' changes',
    insertWithChanges keyA2 newEntry allFeatures newChangeState ms
      = Ok (ms', changes') ∧
    entries ms' !! keyA = Some (setAuthType allowEntry 2) ∧
    AuthTy (Exported (setAuthType allowEntry 2)) = 2 ∧
    HasAuth (Exported (setAuthType allowEntry 2)) = DefaultAuthType.
Proof.
  intros ms newEntry.
  destruct (C7_auth_propagation ms keyA2 newEntry allFeatures newChangeState)
    as (ms' & ch' & H1 & _ & _ & H4 & _).
  - apply upsert_consistent, trie_consistent_new.
  - reflexivity.
  - reflexivity.
  - reflexivity.
  - intros dk dv Hd Hdeny _ _. unfold ms in Hd. rewrite entries_upsert in Hd.
    destruct (decide (keyA = dk)) as [<-|Hne].
    + rewrite lookup_insert_eq in Hd. injection Hd as <-. discriminate Hdeny.
    + rewrite lookup_insert_ne in Hd by done. discriminate Hd.
  - exists ms', ch'. split; [exact H1|].
    destruct (H4 [] keyA [] allowEntry) as [H5 _].
    + vm_compute. reflexivity.
    + intros k' v' Hin. apply elem_of_nil in Hin. destruct Hin.
    + vm_compute. reflexivity.
    + apply H5; reflexivity.
Defined.

(** An allow entry with explicit auth type at an L3-only key reaches the
    entry for a port of TCP with its identity. *)
Example scenario_l3_auth_reaches_l4 :
  let newEntry := newMapStateEntry None [] 0 "" 0 false ExplicitAuthType 2 in
  match insertWithChanges keyL3 newEntry allFeatures newChangeState
                          (upsert keyA allowEntry newMapState) with
  | Ok (ms', _) => entries ms' !! keyA = Some (setAuthType allowEntry 2)
  | Panic _ => False
  end.
Proof. vm_compute. reflexivity. Qed.

(** *** Reconciliation *)

Lemma Equal_refl e : Equal e e = true.
Proof.
  unfold Equal. rewrite bool_decide_eq_true_2 by done. by rewrite !N.eqb_refl.
Qed.

Lemma filter_ext_in {A} (P Q : A → Prop) `{∀ x, Decision (P x)} `{∀ x, Decision (Q x)}
    (l : list A) :
  (∀ x, x ∈ l → P x ↔ Q x) → filter P l = filter Q l.
Proof.
  induction l as [|x l IH]; intros Hext; [done|].
  rewrite !filter_cons.
  rewrite IH by (intros y Hy; apply Hext; by right).
  destruct (decide (P x)) as [Hp|Hp], (decide (Q x)) as [Hq|Hq]; try done;
    exfalso; apply (Hext x (list_elem_of_here _ _)) in Hp || apply Hp;
    try done; by apply (Hext x (list_elem_of_here _ _)).
Qed.

Section ReconcilerProofs.
Variable policyMapErr : list PolicyMapOp → PolicyMapOp → option PolicyMapError.
Variable rangeOrder : ∀ V : Type, gmap Key V → list (Key * V).
Hypothesis rangeOrder_perm : ∀ V (m : gmap Key V), rangeOrder V m ≡ₚ map_to_list m.

Lemma rangeOrder_NoDup V (m : gmap Key V) : NoDup (rangeOrder V m).*1.
Proof. rewrite rangeOrder_perm. apply NoDup_fst_map_to_list. Qed.

Lemma elem_of_rangeOrder V (m : gmap Key V) k v :
  (k, v) ∈ rangeOrder V m ↔ m !! k = Some v.
Proof. rewrite rangeOrder_perm. apply elem_of_map_to_list. Qed.

Lemma elem_of_rangeOrder_fst V (m : gmap Key V) k :
  k ∈ (rangeOrder V m).*1 ↔ is_Some (m !! k).
Proof.
  rewrite list_elem_of_fmap. split.
  - intros ([k' v] & -> & Hin). apply elem_of_rangeOrder in Hin. eauto.
  - intros [v Hv]. exists (k, v). split; [done|]. by apply elem_of_rangeOrder.
Qed.

Lemma addPolicyKey_step e r k entry w :
  store w r !! k = Some entry →
  store (addPolicyKey policyMapErr e k entry w).2 r = store w r ∧
  policyMapOps (addPolicyKey policyMapErr e k entry w).2 =
    policyMapOps w ++ [policyMapWrite k entry].
Proof.
  intros Hk. unfold addPolicyKey, issue.
  destruct (policyMapErr (policyMapOps w) (policyMapWrite k entry)); [done|].
  split; [|done]. cbn [snd writeMap store].
  destruct (decide (realizedMapStateMap e = r)) as [->|Hne].
  - rewrite fn_lookup_insert. by apply insert_id.
  - by rewrite fn_lookup_insert_ne.
Qed.

Lemma deletePolicyKey_step e r k w :
  store w r !! k = None →
  store (deletePolicyKey policyMapErr e k w).2 r = store w r ∧
  policyMapOps (deletePolicyKey policyMapErr e k w).2 =
    policyMapOps w ++ [DeleteKey k].
Proof.
  intros Hk. unfold deletePolicyKey, issue.
  assert (∀ ops,
    let r' := match store w (realizedMapStateMap e) !! k with
              | Some _ => (true, deleteMap (realizedMapStateMap e) k
                                   (mkWorld (store w) ops))
              | None => (true, mkWorld (store w) ops)
              end in
    store r'.2 r = store w r ∧ policyMapOps r'.2 = ops) as Hok.
  { intros ops. cbn zeta.
    destruct (store w (realizedMapStateMap e) !! k) eqn:Hrp; [|done].
    split; [|done]. cbn [snd deleteMap store].
    destruct (decide (realizedMapStateMap e = r)) as [Heq|Hne].
    - rewrite Heq, Hk in Hrp. discriminate Hrp.
    - by rewrite fn_lookup_insert_ne. }
  destruct (policyMapErr (policyMapOps w) (DeleteKey k)) as [[|]|];
    cbn [store policyMapOps]; [apply Hok|done|apply Hok].
Qed.

Lemma syncAdd_step e r wd st kv :
  let st' := syncAdd policyMapErr e r wd st kv in
  let R := store (world st) r in
  store (world st') r =
    (if differs R kv.1 (Exported kv.2) then <[kv.1 := Exported kv.2]> R else R) ∧
  policyMapOps (world st') =
    policyMapOps (world st) ++
    (if differs R kv.1 (Exported kv.2)
     then [policyMapWrite kv.1 (Exported kv.2)] else []).
Proof.
  unfold syncAdd. cbn zeta.
  destruct (differs (store (world st) r) kv.1 (Exported kv.2)).
  - destruct (addPolicyKey_step e r kv.1 (Exported kv.2)
                (writeMap r kv.1 (Exported kv.2) (world st))) as [Hs Ho].
    { cbn [writeMap store]. rewrite fn_lookup_insert. apply lookup_insert_eq. }
    destruct (addPolicyKey policyMapErr e kv.1 (Exported kv.2)
                (writeMap r kv.1 (Exported kv.2) (world st))) as [ok w2].
    cbn [snd world] in *. rewrite Hs, Ho. split; [|done].
    cbn [writeMap store]. apply fn_lookup_insert.
  - split; [done|]. by rewrite app_nil_r.
Qed.

Lemma foldl_syncAdd e r wd l st :
  NoDup l.*1 →
  let st' := foldl (syncAdd policyMapErr e r wd) st l in
  let R := store (world st) r in
  (∀ k, k ∉ l.*1 → store (world st') r !! k = R !! k) ∧
  (∀ k v, (k, v) ∈ l →
     store (world st') r !! k =
       if differs R k (Exported v) then Some (Exported v) else R !! k) ∧
  policyMapOps (world st') =
    policyMapOps (world st) ++
    ((λ kv, policyMapWrite kv.1 (Exported kv.2)) <$>
       filter (λ kv, Is_true (differs R kv.1 (Exported kv.2))) l).
Proof.
  revert st. induction l as [|[k0 v0] l IH]; intros st Hnd; cbn [foldl].
  { cbn zeta. split; [done|]. split; [|by rewrite app_nil_r].
    intros k v Hin. by apply elem_of_nil in Hin. }
  rewrite fmap_cons in Hnd. apply list.NoDup_cons in Hnd as [Hk0 Hnd].
  cbn [fst] in Hk0.
  destruct (syncAdd_step e r wd st (k0, v0)) as [Hs1 Ho1]. cbn [fst snd] in *.
  destruct (IH (syncAdd policyMapErr e r wd st (k0, v0)) Hnd) as (Ha & Hb & Hc).
  set (R := store (world st) r) in *.
  set (R1 := store (world (syncAdd policyMapErr e r wd st (k0, v0))) r) in *.
  assert (∀ k, k ≠ k0 → R1 !! k = R !! k) as Hfr.
  { intros k Hne. rewrite Hs1. destruct (differs R k0 (Exported v0)); [|done].
    by apply lookup_insert_ne. }
  assert (∀ k v, k ≠ k0 → differs R1 k v = differs R k v) as Hdf.
  { intros k v Hne. unfold differs. by rewrite Hfr. }
  cbn zeta. split; [|split].
  - intros k Hn. rewrite fmap_cons in Hn. apply not_elem_of_cons in Hn as [Hne Hn].
    rewrite Ha by done. by apply Hfr.
  - intros k v [Heq|Hin]%elem_of_cons.
    + injection Heq as -> ->. rewrite Ha by done. rewrite Hs1.
      destruct (differs R k0 (Exported v0)); [apply lookup_insert_eq|done].
    + assert (k ≠ k0) as Hne.
      { intros ->. apply Hk0. by apply (list_elem_of_fmap_2 fst _ (k0, v)). }
      rewrite (Hb k v Hin), Hdf, Hfr by done. done.
  - rewrite Hc, Ho1, <- app_assoc. f_equal.
    rewrite filter_cons. cbn [fst snd].
    rewrite (filter_ext_in (λ kv, Is_true (differs R1 kv.1 (Exported kv.2)))
                           (λ kv, Is_true (differs R kv.1 (Exported kv.2)))).
    + destruct (differs R k0 (Exported v0)); simpl; done.
    + intros [k v] Hin. cbn [fst snd]. rewrite Hdf; [done|].
      intros ->. apply Hk0. by apply (list_elem_of_fmap_2 fst _ (k0, v)).
Qed.

Lemma syncDelete_step e r wd st k0 :
  let st' := syncDelete policyMapErr e r wd st k0 in
  let R := store (world st) r in
  store (world st') r =
    (if decide (entries (desiredPolicy e) !! k0 = None) then delete k0 R else R) ∧
  policyMapOps (world st') =
    policyMapOps (world st) ++
    (if decide (entries (desiredPolicy e) !! k0 = None) then [DeleteKey k0] else []).
Proof.
  unfold syncDelete, Get, get, Lookup. cbn zeta. cbn [snd].
  destruct (decide (entries (desiredPolicy e) !! k0 = None)) as [Hd|Hd].
  - rewrite Hd. cbn [fmap option_fmap option_map].
    destruct (deletePolicyKey_step e r k0 (deleteMap r k0 (world st))) as [Hs Ho].
    { cbn [deleteMap store]. rewrite fn_lookup_insert. apply lookup_delete_eq. }
    destruct (deletePolicyKey policyMapErr e k0 (deleteMap r k0 (world st)))
      as [ok w2].
    cbn [snd world] in *. rewrite Hs, Ho. split; [|done].
    cbn [deleteMap store]. apply fn_lookup_insert.
  - destruct (entries (desiredPolicy e) !! k0); [|done].
    cbn [fmap option_fmap option_map]. split; [done|]. by rewrite app_nil_r.
Qed.

Lemma foldl_syncDelete e r wd ks st :
  let st' := foldl (syncDelete policyMapErr e r wd) st ks in
  let R := store (world st) r in
  (∀ k, store (world st') r !! k =
        if decide (k ∈ ks ∧ entries (desiredPolicy e) !! k = None)
        then None else R !! k) ∧
  policyMapOps (world st') =
    policyMapOps (world st) ++
    (DeleteKey <$> filter (λ k, entries (desiredPolicy e) !! k = None) ks).
Proof.
  revert st. induction ks as [|k0 ks IH]; intros st; cbn [foldl].
  { cbn zeta. split; [|by rewrite app_nil_r]. intros k.
    rewrite decide_False; [done|]. intros [Hin _]. by apply elem_of_nil in Hin. }
  destruct (syncDelete_step e r wd st k0) as [Hs1 Ho1].
  destruct (IH (syncDelete policyMapErr e r wd st k0)) as [Ha Hc].
  cbn zeta. split.
  - intros k. rewrite Ha, Hs1.
    destruct (decide (k = k0)) as [->|Hne].
    + destruct (decide (entries (desiredPolicy e) !! k0 = None)) as [Hd|Hd].
      * rewrite lookup_delete_eq.
        rewrite (decide_True (P := k0 ∈ k0 :: ks ∧ _)); [|split; [by left|done]].
        by case_decide.
      * rewrite !decide_False; [done|by intros [_ ?]|by intros [_ ?]].
    + assert (store (world st) r !! k =
              (if decide (entries (desiredPolicy e) !! k0 = None)
               then delete k0 (store (world st) r)
               else store (world st) r) !! k) as <-.
      { case_decide; [|done]. by rewrite lookup_delete_ne. }
      destruct (decide (k ∈ ks ∧ entries (desiredPolicy e) !! k = None))
        as [[Hin Hd]|Hn].
      * rewrite decide_True; [done|]. split; [by right|done].
      * rewrite decide_False; [done|].
        intros [[?|Hin]%elem_of_cons Hd]; [done|]. by apply Hn.
  - rewrite Hc, Ho1, <- app_assoc. f_equal.
    rewrite filter_cons. by case_decide.
Qed.
Lemma opKey_policyMapWrite k entry : opKey (policyMapWrite k entry) = k.
Proof. unfold policyMapWrite. by destruct (IsDeny entry). Qed.

Lemma isWrite_policyMapWrite k entry : isWrite (policyMapWrite k entry) = true.
Proof. unfold policyMapWrite. by destruct (IsDeny entry). Qed.


End ReconcilerProofs.


Example scenario_write_before_delete :
  let e := mkEndpoint (upsert keyA allowEntry newMapState) 0 in
  let w := mkWorld (λ _, {[keyD := Exported denyEntry]}) [] in
  policyMapOps (syncPolicyMapWith (λ _ _, None) (λ V, map_to_list) e 1 false w).1
  = [AllowKey keyA false 0 0; DeleteKey keyD].
Proof. vm_compute. reflexivity. Qed.

(** *** The invariants hold in every state the engine reaches *)

Lemma deny_dominance_step ms ms' key :
  deny_dominance ms →
  (∀ k v', k ≠ key → entries ms' !! k = Some v' →
           ∃ v, entries ms !! k = Some v ∧
                IsDeny (Exported v) = IsDeny (Exported v')) →
  (∀ v' a va, entries ms' !! key = Some v' → IsDeny (Exported v') = true →
              a ≠ key → entries ms' !! a = Some va →
              IsDeny (Exported va) = false →
              isPrefixOf (LPM key) (LPM a) = true →
              (Identity key = Identity a ∨ Identity key = 0) → False) →
  (∀ v' dk dv, entries ms' !! key = Some v' → IsDeny (Exported v') = false →
               dk ≠ key → entries ms' !! dk = Some dv →
               IsDeny (Exported dv) = true →
               isPrefixOf (LPM dk) (LPM key) = true →
               (Identity dk = Identity key ∨ Identity dk = 0) → False) →
  deny_dominance ms'.
Proof.
  intros Hdom Hother Hdeny Hallow a va dk vd Ha Hva Hdk Hvd Hp Hid.
  destruct (decide (a = key)) as [->|Hak], (decide (dk = key)) as [->|Hdkk].
  - congruence.
  - by eapply (Hallow va dk vd).
  - by eapply (Hdeny vd a va).
  - destruct (Hother a va Hak Ha) as (va0 & Ha0 & Hpa).
    destruct (Hother dk vd Hdkk Hdk) as (vd0 & Hd0 & Hpd).
    eapply (Hdom a va0 dk vd0); eauto; congruence.
Qed.

Lemma propagateAuthType_polarity newEntry ks ch ms k v' :
  entries (propagateAuthType newEntry ks ch ms).1 !! k = Some v' →
  ∃ v, entries ms !! k = Some v ∧ IsDeny (Exported v) = IsDeny (Exported v').
Proof.
  revert ch ms. induction ks as [|k0 ks IH]; intros ch ms;
    cbn [propagateAuthType]; [by eauto|].
  unfold forKey. destruct (entries ms !! k0) as [v0|] eqn:He; [|by apply IH].
  case_match; [by eauto|].
  unfold overrideAuthType. intros Hk. apply IH in Hk as (v & Hk & Hpol).
  simpl in Hk. destruct (decide (k0 = k)) as [->|Hne].
  - rewrite lookup_insert_eq in Hk. injection Hk as <-. eauto.
  - rewrite lookup_insert_ne in Hk by done. eauto.
Qed.

Lemma coveringAuthType_IsDeny ms newEntry ks e :
  coveringAuthType ms newEntry ks = Ok e →
  IsDeny (Exported e) = IsDeny (Exported newEntry).
Proof.
  induction ks as [|k0 ks IH]; simpl; [by intros [= <-]|].
  unfold forKey. destruct (entries ms !! k0) as [v0|]; [|done].
  destruct (IsDeny (Exported v0)); [done|].
  case_bool_decide; [by intros [= <-]|done].
Qed.

Lemma insertWithChanges_deny_dominance key entry features ch ms ms' ch' :
  trie_consistent ms → deny_dominance ms →
  insertWithChanges key entry features ch ms = Ok (ms', ch') →
  deny_dominance ms'.
Proof.
  intros Hc Hdom. unfold insertWithChanges, denyPreferredInsertWithChanges.
  destruct (coveredByDeny ms key entry (BroaderOrEqualKeys ms key)) eqn:Hcov.
  { by intros [= <- <-]. }
  rewrite coveredByDeny_false in Hcov.
  assert (∀ e1 ch1 ms1 b,
    IsDeny (Exported e1) = false → IsDeny (Exported entry) = false →
    (∀ k v', entries ms1 !! k = Some v' →
       ∃ v, entries ms !! k = Some v ∧ IsDeny (Exported v) = IsDeny (Exported v')) →
    addKeyWithChanges key e1 ch1 ms1 = (b, ms', ch') → deny_dominance ms') as Hallow.
  { intros e1 ch1 ms1 b He1 He Hpol Hadd.
    pose proof (addKeyWithChanges_entries_ne key e1 ch1 ms1) as Hne.
    pose proof (addKeyWithChanges_polarity key e1 ch1 ms1) as Hp.
    rewrite Hadd in Hne, Hp. cbn [fst snd] in Hne, Hp.
    assert (∀ dk dv, entries ms !! dk = Some dv → IsDeny (Exported dv) = true →
                     isPrefixOf (LPM dk) (LPM key) = true →
                     (Identity dk = Identity key ∨ Identity dk = 0) → False) as Hnc.
    { intros dk dv Hdk Hdv Hpre Hid.
      destruct (Hcov dk dv) as [Hx _]; [|done..|congruence].
      apply consistent_elem_of_BroaderOrEqualKeys; eauto. tauto. }
    apply (deny_dominance_step ms ms' key Hdom).
    - intros k v' Hk Hv'. rewrite Hne in Hv' by done. by apply Hpol.
    - intros v' a va Hv' Hd. exfalso.
      destruct (Hp v' Hv') as [Hx|[Hx _]]; [congruence|].
      destruct (Hpol key v' Hx) as (v & Hv & Hpv).
      apply (Hnc key v); eauto using isPrefixOf_refl; congruence.
    - intros v' dk dv Hv' _ Hdk Hdv Hd Hpre Hid.
      rewrite Hne in Hdv by done.
      destruct (Hpol dk dv Hdv) as (v & Hv & Hpv).
      apply (Hnc dk v); auto; congruence. }
  destruct (IsDeny (Exported entry)) eqn:Hd.
  - pose proof (deleteCovered_entries key (NarrowerOrEqualKeys ms key) ch ms) as He1.
    destruct (deleteCovered key (NarrowerOrEqualKeys ms key) ch ms) as [ms1 ch1].
    cbn [fst snd] in *.
    pose proof (addKeyWithChanges_entries_ne key entry ch1 ms1) as Hne.
    pose proof (addKeyWithChanges_polarity key entry ch1 ms1) as Hp.
    destruct (addKeyWithChanges key entry ch1 ms1) as [[b ms2] ch2].
    cbn [fst snd] in *. intros [= <- <-].
    apply (deny_dominance_step ms ms2 key Hdom).
    + intros k v' Hk Hv'. rewrite Hne, He1 in Hv' by done.
      destruct (entries ms !! k) as [v|]; [|done].
      case_match; [done|]. injection Hv' as <-. eauto.
    + intros v' a va _ _ Ha Hva _ Hpre Hid.
      rewrite Hne, He1 in Hva by done.
      destruct (entries ms !! a) as [v|] eqn:Hv; [|done].
      rewrite bool_decide_eq_true_2 in Hva.
      * rewrite (bool_decide_eq_false_2 (a = key)) in Hva by done.
        by rewrite andb_false_r in Hva.
      * apply consistent_elem_of_NarrowerOrEqualKeys; eauto.
        destruct Hid as [Hid|Hid]; [by right|by left].
    + intros v' dk dv Hv' Hallowed. exfalso.
      destruct (Hp v' Hv') as [Hx|[_ Hx]]; congruence.
  - destruct (contains features authRules).
    + unfold authPreferredInsert. case_bool_decide as Hdef.
      * destruct (coveringAuthType ms entry (CoveringKeysWithSameID ms key))
          as [e'|msg] eqn:Hcv; [|done].
        apply coveringAuthType_IsDeny in Hcv.
        destruct (addKeyWithChanges key e' ch ms) as [[b ms2] ch2] eqn:Hadd.
        intros [= <- <-]. apply (Hallow e' ch ms b); eauto; congruence.
      * pose proof (propagateAuthType_polarity entry
                      (SubsetKeysWithSameID ms key) ch ms) as Hpol.
        destruct (propagateAuthType entry (SubsetKeysWithSameID ms key) ch ms)
          as [ms1 ch1]. cbn [fst] in Hpol.
        destruct (addKeyWithChanges key entry ch1 ms1) as [[b ms2] ch2] eqn:Hadd.
        intros [= <- <-]. by apply (Hallow entry ch1 ms1 b).
    + destruct (addKeyWithChanges key entry ch ms) as [[b ms2] ch2] eqn:Hadd.
      intros [= <- <-]. apply (Hallow entry ch ms b); eauto.
Qed.

Lemma deleteKeyWithChanges_deny_dominance key owner ch ms :
  deny_dominance ms → deny_dominance (deleteKeyWithChanges key owner ch ms).1.
Proof.
  intros Hdom.
  assert (∀ k v', entries (deleteKeyWithChanges key owner ch ms).1 !! k = Some v' →
            ∃ v, entries ms !! k = Some v ∧
                 IsDeny (Exported v) = IsDeny (Exported v')) as Hpol.
  { intros k v'. destruct (decide (k = key)) as [->|Hne].
    - unfold deleteKeyWithChanges, get, Lookup. cbn [snd].
      destruct (entries ms !! key) as [entry|] eqn:He; [|simpl; by rewrite He].
      destruct (insertOldIfNotExists key entry ch) as [oldAdded ch1].
      assert (entries (delete_key key ms) !! key = None) as Hdel
        by (rewrite entries_delete_key; apply lookup_delete_eq).
      destruct owner as [o|]; [|cbn [fst]; by rewrite Hdel].
      case_bool_decide; [|cbn [fst]; rewrite He; intros [= <-]; by eauto].
      destruct (0 <? size _)%nat;
        [|cbn [fst]; by rewrite Hdel].
      simpl. rewrite lookup_insert_eq. intros [= <-]. eauto.
    - rewrite deleteKeyWithChanges_entries_ne by done. eauto. }
  intros a va dk vd Ha Hva Hdk Hvd Hp Hid.
  destruct (Hpol a va Ha) as (va0 & Ha0 & Hpa).
  destruct (Hpol dk vd Hdk) as (vd0 & Hd0 & Hpd).
  eapply (Hdom a va0 dk vd0); eauto; congruence.
Qed.

(** Every batch keeps the invariants I1 and I2. *)
Lemma applyBatch_invariants ops ch ms ms' ch' :
  trie_consistent ms → deny_dominance ms →
  applyBatch ops ch ms = Ok (ms', ch') →
  trie_consistent ms' ∧ deny_dominance ms'.
Proof.
  revert ch ms. induction ops as [|op ops IH]; intros ch ms Hc Hdom;
    cbn [applyBatch].
  { by intros [= <- <-]. }
  destruct op as [key entry features|key owner].
  - destruct (insertWithChanges_spec key entry features ch ms Hc)
      as (ms1 & ch1 & Hins & Hc1 & _).
    rewrite Hins. apply IH; [done|].
    by apply (insertWithChanges_deny_dominance key entry features ch ms ms1 ch1).
  - pose proof (deleteKeyWithChanges_consistent key owner ch ms Hc) as Hc1.
    pose proof (deleteKeyWithChanges_deny_dominance key owner ch ms Hdom) as Hd1.
    destruct (deleteKeyWithChanges key owner ch ms) as [ms1 ch1].
    by apply IH.
Qed.

Lemma deny_dominance_new : deny_dominance newMapState.
Proof. intros a va d vd Ha. simpl in Ha. by rewrite lookup_empty in Ha. Qed.

(** ** Further properties of the code *)



(** X2: deleting an existing key and upserting it again with the entry it
    had restores the map state, trie included; deleting a key that is not
    in the map changes nothing. *)
Theorem delete_upsert_round_trip (k : Key) (ms : mapState) :
  trie_consistent ms →
  match Lookup ms k with
  | Some e =>
      Lookup (delete_key k ms) k = None ∧
      S (Len (delete_key k ms)) = Len ms ∧
      upsert k e (delete_key k ms) = ms
  | None => delete_key k ms = ms
  end.
Proof.
  unfold Lookup, Len. intros Hc. destruct (entries ms !! k) as [e|] eqn:He.
  - rewrite entries_delete_key. repeat split.
    + by rewrite lookup_delete_eq.
    + erewrite map_size_delete_Some by eauto.
      assert (size (entries ms) ≠ 0%nat); [|lia].
      intros Hz%map_size_empty_inv. by rewrite Hz in He.
    + apply trie_consistent_unique; [|done|].
      * by apply upsert_consistent, delete_key_consistent.
      * rewrite entries_upsert, entries_delete_key, insert_delete_eq.
        by apply insert_id.
  - unfold delete_key. by rewrite He.
Qed.

(** *** The keys visited by the iterators *)

Lemma NoDup_fst_AncestorIterator t key : NoDup (AncestorIterator t key).*1.
Proof. apply NoDup_fst_filter, NoDup_fst_map_to_list. Qed.

Lemma NoDup_fst_DescendantIterator t key : NoDup (DescendantIterator t key).*1.
Proof. apply NoDup_fst_filter, NoDup_fst_map_to_list. Qed.

Lemma NoDup_forID k ids : NoDup (forID k ids).
Proof. unfold forID. case_decide; [apply NoDup_singleton|constructor]. Qed.

Lemma NoDup_forIDs k ids : NoDup (forIDs k ids).
Proof.
  unfold forIDs. apply NoDup_fmap_2; [|apply NoDup_elements].
  intros i j Hij. by injection Hij.
Qed.

Lemma NoDup_fst_inj {A B} (l : list (A * B)) p q :
  NoDup l.*1 → p ∈ l → q ∈ l → p.1 = q.1 → p = q.
Proof.
  induction l as [|x l IH]; [by intros _ ?%elem_of_nil|].
  rewrite fmap_cons. intros [Hx Hnd]%list.NoDup_cons.
  intros [-> | Hp]%elem_of_cons [-> | Hq]%elem_of_cons Heq; [done| | |by apply IH].
  - destruct Hx. rewrite Heq. by apply list_elem_of_fmap_2.
  - destruct Hx. rewrite <- Heq. by apply list_elem_of_fmap_2.
Qed.

(** Keys visited at different leaves differ. *)
Lemma NoDup_bind_leaves (f : LPMKey * IDSet → list Key) (l : list (LPMKey * IDSet)) :
  NoDup l.*1 →
  (∀ p k, k ∈ f p → LPM k = p.1) →
  (∀ p, NoDup (f p)) →
  NoDup (l ≫= f).
Proof.
  intros Hnd Hf Hp. apply NoDup_bind; [|done|by apply NoDup_fmap_1 in Hnd].
  intros p q k Hpl Hql Hkp%Hf Hkq%Hf.
  apply (NoDup_fst_inj l); [done..|congruence].
Qed.

Lemma NoDup_BroaderOrEqualKeys ms key : NoDup (BroaderOrEqualKeys ms key).
Proof.
  unfold BroaderOrEqualKeys.
  apply NoDup_bind_leaves; [apply NoDup_fst_AncestorIterator| |].
  - intros p k. cbn zeta. intros [Hk | Hk]%elem_of_app.
    + by apply elem_of_forID in Hk as [-> _].
    + destruct (negb _); [|by apply elem_of_nil in Hk].
      by apply elem_of_forID in Hk as [-> _].
  - intros p. cbn zeta. destruct (negb (Identity key =? 0)) eqn:E.
    + apply list.NoDup_app. split; [apply NoDup_forID|]. split; [|apply NoDup_forID].
      intros k [-> _]%elem_of_forID [Hk _]%elem_of_forID.
      injection Hk as Hk. apply negb_true_iff, N.eqb_neq in E. done.
    + rewrite app_nil_r. apply NoDup_forID.
Qed.

Lemma NoDup_NarrowerOrEqualKeys ms key : NoDup (NarrowerOrEqualKeys ms key).
Proof.
  unfold NarrowerOrEqualKeys.
  apply NoDup_bind_leaves; [apply NoDup_fst_DescendantIterator| |].
  - intros p k. cbn zeta. destruct (Identity key =? 0).
    + by intros [-> _]%elem_of_forIDs.
    + by intros [-> _]%elem_of_forID.
  - intros p. cbn zeta. destruct (Identity key =? 0);
      [apply NoDup_forIDs|apply NoDup_forID].
Qed.


Lemma lor_shiftl_inj x y x' y' n :
  y < 2 ^ n → y' < 2 ^ n →
  N.lor (N.shiftl x n) y = N.lor (N.shiftl x' n) y' → x = x' ∧ y = y'.
Proof.
  intros Hy Hy' Heq. split.
  - assert (∀ a b, b < 2 ^ n → N.shiftr (N.lor (N.shiftl a n) b) n = a) as Hs.
    { intros a b Hb. rewrite N.shiftr_lor, N.shiftr_shiftl_l, N.sub_diag, N.shiftl_0_r
        by lia.
      rewrite (N.shiftr_div_pow2 b), N.div_small by done. apply N.lor_0_r. }
    rewrite <- (Hs x y Hy), <- (Hs x' y' Hy'). by rewrite Heq.
  - assert (∀ a b, b < 2 ^ n → N.land (N.lor (N.shiftl a n) b) (N.ones n) = b) as Hm.
    { intros a b Hb. rewrite N.land_lor_distr_l, !N.land_ones.
      rewrite N.shiftl_mul_pow2, N.Div0.mod_mul, N.mod_small by done.
      apply N.lor_0_l. }
    rewrite <- (Hm x y Hy), <- (Hm x' y' Hy'). by rewrite Heq.
Qed.

Lemma keyBits_valid k :
  validLPMKey k →
  keyBits k = N.lor (N.shiftl (dirBit (Direction k)) 24)
                    (N.lor (N.shiftl (Nexthdr k) 16) (DestPort k)).
Proof.
  intros (Hp & Hq & _). unfold keyBits, dirBit.
  change 255 with (N.ones 8). change 65535 with (N.ones 16).
  rewrite !N.land_ones, !N.mod_small by done. done.
Qed.

Lemma keyBits_shiftr_direction k :
  validLPMKey k → N.shiftr (keyBits k) 24 = dirBit (Direction k).
Proof.
  intros Hv. rewrite (keyBits_valid k Hv). destruct Hv as (Hp & Hq & _).
  rewrite !N.shiftr_lor, N.shiftr_shiftl_l, N.shiftr_shiftl_r by lia.
  change (24 - 24) with 0. change (24 - 16) with 8.
  rewrite N.shiftl_0_r, !N.shiftr_div_pow2, !N.div_small by (cbn; lia).
  by rewrite !N.lor_0_r.
Qed.

Lemma keyBits_shiftr_port k l :
  validLPMKey k → l ≤ 16 →
  N.shiftr (keyBits k) (16 - l)
  = N.lor (N.shiftl (N.lor (N.shiftl (dirBit (Direction k)) 8) (Nexthdr k)) l)
          (DestPort k / 2 ^ (16 - l)).
Proof.
  intros Hv Hl. rewrite (keyBits_valid k Hv).
  rewrite !N.shiftr_lor, !N.shiftr_shiftl_l by lia.
  rewrite N.shiftl_lor, N.shiftl_shiftl, N.shiftr_div_pow2, N.lor_assoc.
  replace (24 - (16 - l)) with (8 + l) by lia.
  replace (16 - (16 - l)) with l by lia. done.
Qed.

(** The prefix relation of the trie, field by field. *)
Lemma isPrefixOf_fields a b :
  validLPMKey a → validLPMKey b →
  isPrefixOf a b = true ↔ portProtoCovers a b.
Proof.
  intros Ha Hb. unfold isPrefixOf, portProtoCovers, PrefixLength, MapStatePrefixLen.
  rewrite andb_true_iff, N.leb_le, N.eqb_eq.
  assert (∀ x y, dirBit x = dirBit y ↔ x = y) as Hdir by (by intros [] []).
  destruct (N.eqb_spec (Nexthdr a) 0) as [Hza|Hza].
  - change (25 - 1) with 24. rewrite !keyBits_shiftr_direction, Hdir by done.
    split; [intros [_ Hd]; split; [done|by left]|].
    intros [Hd _]. split; [|done]. destruct (Nexthdr b =? 0); lia.
  - pose proof Ha as (Hpa & Hqa & Hla). pose proof Hb as (Hpb & Hqb & Hlb).
    replace (25 - (9 + PortPrefixLen a)) with (16 - PortPrefixLen a) by lia.
    rewrite !keyBits_shiftr_port by done.
    assert (∀ q, q < 65536 → q / 2 ^ (16 - PortPrefixLen a) < 2 ^ PortPrefixLen a) as Hq.
    { intros q Hq. apply N.Div0.div_lt_upper_bound.
      rewrite <- N.pow_add_r. replace (16 - PortPrefixLen a + PortPrefixLen a) with 16 by lia.
      done. }
    split.
    + intros [Hle Heq].
      apply lor_shiftl_inj in Heq as [Heq Hport]; [|by apply Hq..].
      apply lor_shiftl_inj in Heq as [Hd Hp]; [|done..].
      apply Hdir in Hd. split; [done|]. right. split; [done|]. split; [|done].
      destruct (N.eqb_spec (Nexthdr b) 0); lia.
    + intros [Hd [Hz|(Hp & Hle & Hport)]]; [done|].
      split.
      * destruct (N.eqb_spec (Nexthdr b) 0); lia.
      * by rewrite Hd, Hp, Hport.
Qed.

(** X3: on a consistent map state whose keys have fields within their
    widths, [BroaderOrEqualKeys] visits, once each, exactly the keys of the
    map whose identity is the key's or the wildcard and whose port/proto is
    broader than or equal to the key's: the same direction and either the
    wildcard protocol, or the same protocol and a port range that contains
    the key's.  So an L3-only key is visited for every key of its
    direction. *)
Theorem BroaderOrEqualKeys_exact (ms : mapState) (key : Key) :
  trie_consistent ms →
  validLPMKey (LPM key) →
  (∀ k, is_Some (Lookup ms k) → validLPMKey (LPM k)) →
  NoDup (BroaderOrEqualKeys ms key) ∧
  ∀ k, k ∈ BroaderOrEqualKeys ms key ↔
       is_Some (Lookup ms k) ∧ portProtoCovers (LPM k) (LPM key) ∧
       (Identity k = 0 ∨ Identity k = Identity key).
Proof.
  intros [Hk _] Hvk Hv. split; [apply NoDup_BroaderOrEqualKeys|].
  intros k. unfold Lookup in *. rewrite elem_of_BroaderOrEqualKeys. split.
  - intros (ids & Ht & Hin & Hp & Hid).
    assert (is_Some (entries ms !! k)) as Hs by (apply Hk; eauto).
    split; [done|]. split; [|done]. apply isPrefixOf_fields; auto.
  - intros (Hs & Hp & Hid). pose proof Hs as (ids & Ht & Hin)%Hk.
    exists ids. split; [done|]. split; [done|]. split; [|done].
    apply isPrefixOf_fields; auto.
Qed.

(** X4: on a consistent map state whose keys have fields within their
    widths, [NarrowerOrEqualKeys] visits, once each, exactly the keys of
    the map whose identity is the key's, or any when the key has the
    wildcard identity, and whose port/proto is narrower than or equal to
    the key's: the same direction and, unless the key has the wildcard
    protocol, the same protocol and a port range within the key's.  So
    for an L3-only key the keys of all protocols and ports of its
    direction are visited. *)
Theorem NarrowerOrEqualKeys_exact (ms : mapState) (key : Key) :
  trie_consistent ms →
  validLPMKey (LPM key) →
  (∀ k, is_Some (Lookup ms k) → validLPMKey (LPM k)) →
  NoDup (NarrowerOrEqualKeys ms key) ∧
  ∀ k, k ∈ NarrowerOrEqualKeys ms key ↔
       is_Some (Lookup ms k) ∧ portProtoCovers (LPM key) (LPM k) ∧
       (Identity key = 0 ∨ Identity k = Identity key).
Proof.
  intros [Hk _] Hvk Hv. split; [apply NoDup_NarrowerOrEqualKeys|].
  intros k. unfold Lookup in *. rewrite elem_of_NarrowerOrEqualKeys. split.
  - intros (ids & Ht & Hin & Hp & Hid).
    assert (is_Some (entries ms !! k)) as Hs by (apply Hk; eauto).
    split; [done|]. split; [|done]. apply isPrefixOf_fields; auto.
  - intros (Hs & Hp & Hid). pose proof Hs as (ids & Ht & Hin)%Hk.
    exists ids. split; [done|]. split; [done|]. split; [|done].
    apply isPrefixOf_fields; auto.
Qed.

(** A comparison that checks the lengths and then looks every key of the
    first map up in the second compares the key sets and the entries. *)
Lemma size_forallb_lookup {A B} (f : B → A → bool) (mA : gmap Key A) (mB : gmap Key B) :
  bool_decide (size mA = size mB) &&
  forallb (λ kv : Key * A, match mB !! kv.1 with
                           | Some vB => f vB kv.2
                           | None => false
                           end) (map_to_list mA) = true ↔
  dom mA = dom mB ∧
  ∀ k vA vB, mA !! k = Some vA → mB !! k = Some vB → f vB vA = true.
Proof.
  rewrite andb_true_iff, bool_decide_eq_true, forallb_forall. split.
  - intros [Hsz Hall].
    assert (∀ k vA, mA !! k = Some vA → ∃ vB, mB !! k = Some vB ∧ f vB vA = true)
      as Hall'.
    { intros k vA Hk. specialize (Hall (k, vA)). simpl in Hall.
      assert (In (k, vA) (map_to_list mA)) as Hin
        by (apply list_elem_of_In; by apply elem_of_map_to_list).
      specialize (Hall Hin). destruct (mB !! k) as [vB|]; [eauto|done]. }
    split.
    + apply set_subseteq_size_eq.
      * intros k [vA Hk]%elem_of_dom. apply Hall' in Hk as (vB & Hk & _).
        apply elem_of_dom. eauto.
      * rewrite !size_dom. lia.
    + intros k vA vB HA HB. apply Hall' in HA as (vB' & HB' & Hf). congruence.
  - intros [Hdom Hall]. split.
    + by rewrite <- !size_dom, Hdom.
    + intros [k vA] Hin%list_elem_of_In%elem_of_map_to_list. simpl.
      assert (is_Some (mB !! k)) as [vB HB].
      { apply elem_of_dom. rewrite <- Hdom. apply elem_of_dom. eauto. }
      rewrite HB. eauto.
Qed.

(** X5: [Equals] holds exactly when the map state and the exported map
    have the same keys and, at every key, entries that are [Equal]. *)
Theorem Equals_iff (msA : mapState) (msB : MapStateMap) :
  Equals msA msB = true ↔
  dom (entries msA) = dom msB ∧
  ∀ k vA vB, Lookup msA k = Some vA → msB !! k = Some vB →
             Equal vB (Exported vA) = true.
Proof.
  unfold Equals, Len, Lookup.
  apply (size_forallb_lookup (λ vB vA, Equal vB (Exported vA))).
Qed.

Lemma deepEqual_iff e o :
  deepEqual e o = true ↔
  IsDeny (Exported e) = IsDeny (Exported o) ∧
  ProxyPort (Exported e) = ProxyPort (Exported o) ∧
  AuthTy (Exported e) = AuthTy (Exported o) ∧
  Listener (Exported e) = Listener (Exported o) ∧
  priority e = priority o ∧
  derivedFromRules e = derivedFromRules o ∧
  owners e = owners o.
Proof.
  unfold deepEqual, Equal.
  rewrite !andb_true_iff, !bool_decide_eq_true, !N.eqb_eq. naive_solver.
Qed.

Lemma mapState_Equal_iff msA msB :
  mapState_Equal msA msB = true ↔
  dom (entries msA) = dom (entries msB) ∧
  ∀ k vA vB, entries msA !! k = Some vA → entries msB !! k = Some vB →
             deepEqual vB vA = true.
Proof.
  unfold mapState_Equal, forEach, Len, get, Lookup. cbn [snd].
  apply (size_forallb_lookup deepEqual).
Qed.

(** X6: [mapState.Equal] is an equivalence of map states, although it only
    looks the keys of its receiver up in its argument: it holds exactly
    when both have the same keys and at every key entries that agree in
    all fields but [HasAuthType], which [deepEqual] does not compare. *)
Theorem mapState_Equal_equivalence (a b c : mapState) :
  mapState_Equal a a = true ∧
  mapState_Equal a b = mapState_Equal b a ∧
  (mapState_Equal a b = true → mapState_Equal b c = true →
   mapState_Equal a c = true) ∧
  (mapState_Equal a b = true ↔
   dom (entries a) = dom (entries b) ∧
   ∀ k va vb, Lookup a k = Some va → Lookup b k = Some vb →
     Listener (Exported va) = Listener (Exported vb) ∧
     ProxyPort (Exported va) = ProxyPort (Exported vb) ∧
     IsDeny (Exported va) = IsDeny (Exported vb) ∧
     AuthTy (Exported va) = AuthTy (Exported vb) ∧
     priority va = priority vb ∧
     derivedFromRules va = derivedFromRules vb ∧
     owners va = owners vb).
Proof.
  assert (∀ x y, mapState_Equal x y = true → mapState_Equal y x = true) as Hsym.
  { intros x y [Hd Hall]%mapState_Equal_iff. apply mapState_Equal_iff.
    split; [done|]. intros k vA vB HA HB. specialize (Hall k vB vA HB HA).
    apply deepEqual_iff in Hall. apply deepEqual_iff. naive_solver. }
  split; [|split; [|split]].
  - apply mapState_Equal_iff. split; [done|]. intros k vA vB HA HB.
    assert (vA = vB) as -> by congruence. by apply deepEqual_iff.
  - destruct (mapState_Equal a b) eqn:Hab.
    + symmetry. by apply Hsym.
    + destruct (mapState_Equal b a) eqn:Hba; [|done].
      apply Hsym in Hba. congruence.
  - intros [Hd1 H1]%mapState_Equal_iff [Hd2 H2]%mapState_Equal_iff.
    apply mapState_Equal_iff. split; [congruence|].
    intros k vA vC HA HC.
    assert (is_Some (entries b !! k)) as [vB HB].
    { apply elem_of_dom. rewrite <- Hd1. apply elem_of_dom. eauto. }
    specialize (H1 k vA vB HA HB). specialize (H2 k vB vC HB HC).
    apply deepEqual_iff in H1 as (? & ? & ? & ? & ? & ? & ?).
    apply deepEqual_iff in H2 as (? & ? & ? & ? & ? & ? & ?).
    apply deepEqual_iff. repeat split; congruence.
  - rewrite mapState_Equal_iff. unfold Lookup. split.
    + intros [Hd Hall]. split; [done|]. intros k va vb Ha Hb.
      specialize (Hall k va vb Ha Hb). apply deepEqual_iff in Hall.
      destruct Hall as (? & ? & ? & ? & ? & ? & ?). by repeat split.
    + intros [Hd Hall]. split; [done|]. intros k va vb Ha Hb.
      specialize (Hall k va vb Ha Hb). apply deepEqual_iff.
      destruct Hall as (? & ? & ? & ? & ? & ? & ?). by repeat split.
Qed.

Lemma String_compare_refl (x : string) : String.compare x x = Eq.
Proof.
  pose proof (String.compare_antisym x x) as H.
  by destruct (String.compare x x).
Qed.

Lemma MergeSorted_nil_l b : MergeSorted [] b = b.
Proof. by destruct b. Qed.

Lemma MergeSorted_self a : MergeSorted a a = a.
Proof.
  induction a as [|x a IH]; [done|].
  cbn. rewrite String_compare_refl. by rewrite IH.
Qed.

Lemma MergeSorted_idemp a b : MergeSorted (MergeSorted a b) b = MergeSorted a b.
Proof.
  revert b. induction a as [|x a IHa]; intros b.
  - rewrite MergeSorted_nil_l. apply MergeSorted_self.
  - induction b as [|y b IHb]; [by rewrite !MergeSorted_nil_r|].
    cbn. destruct (String.compare x y) eqn:E.
    + apply String.compare_eq_iff in E as ->.
      cbn. rewrite String_compare_refl. by rewrite IHa.
    + cbn. rewrite E. f_equal. apply IHa.
    + cbn. rewrite String_compare_refl. f_equal. apply IHb.
Qed.

Ltac entry_simpl :=
  cbn [Exported ProxyPort priority Listener IsDeny HasAuth AuthTy
       derivedFromRules owners fst snd negb andb orb] in *.

Lemma mergeProxy_idemp e entry :
  let r := mergeProxy e entry in
  mergeProxy (mkmapStateEntry r.1 r.2 (derivedFromRules e) (owners e)) entry = r.
Proof.
  cbv zeta.
  destruct e as [[l p d h a] pr dr ow], entry as [[l0 p0 d0 h0 a0] pr0 dr0 ow0].
  unfold mergeProxy, IsRedirectEntry, withProxy. entry_simpl.
  destruct (p0 =? 0) eqn:E0, (p =? 0) eqn:E1, (pr0 <? pr) eqn:E2,
    (pr0 =? pr) eqn:E3, (p0 <? p) eqn:E4; entry_simpl;
    rewrite ?E0, ?E1, ?E2, ?E3, ?E4, ?N.ltb_irrefl, ?N.eqb_refl; entry_simpl;
    rewrite ?E0, ?E1, ?E2, ?E3, ?E4, ?N.ltb_irrefl, ?N.eqb_refl; done.
Qed.

Lemma mergeAuth_idemp x y : mergeAuth (mergeAuth x y) y = mergeAuth x y.
Proof.
  destruct x as [l p d h a], y as [l0 p0 d0 h0 a0].
  unfold mergeAuth, withAuth. entry_simpl.
  destruct h0, h; entry_simpl; try done;
    destruct (a <? a0) eqn:E; entry_simpl; rewrite ?N.ltb_irrefl, ?E; done.
Qed.

Lemma mergeAuth_fields x y :
  Listener (mergeAuth x y) = Listener x ∧ ProxyPort (mergeAuth x y) = ProxyPort x ∧
  IsDeny (mergeAuth x y) = IsDeny x.
Proof.
  unfold mergeAuth, withAuth. destruct (HasAuth y), (HasAuth x); try done.
  by destruct (_ <? _).
Qed.

Lemma withProxy_eta x : withProxy x (ProxyPort x) (Listener x) = x.
Proof. by destruct x. Qed.

Lemma mergeProxy_mergeAuth e entry x1 prio1 dr ow :
  mergeProxy e entry = (x1, prio1) →
  mergeProxy (mkmapStateEntry (mergeAuth x1 (Exported entry)) prio1 dr ow) entry
  = (mergeAuth x1 (Exported entry), prio1).
Proof.
  intros Ep. pose proof (mergeProxy_idemp e entry) as Hi.
  cbv zeta in Hi. rewrite Ep in Hi. cbn [fst snd] in Hi.
  pose proof (mergeAuth_fields x1 (Exported entry)) as (Hl & Hp & _).
  revert Hi. unfold mergeProxy. entry_simpl. unfold IsRedirectEntry at 2 4.
  rewrite Hp. destruct (_ && _); [|done].
  intros [= Hi1 Hi2]. rewrite Hi2. f_equal.
  rewrite <- (withProxy_eta (mergeAuth x1 (Exported entry))) at 2.
  rewrite Hl, Hp, <- Hi1. done.
Qed.

Lemma mergeProxy_IsDeny e entry : IsDeny (mergeProxy e entry).1 = IsDeny (Exported e).
Proof. unfold mergeProxy. by destruct (_ && _). Qed.

Lemma merge_idemp e entry : merge (merge e entry) entry = merge e entry.
Proof.
  assert (∀ X Y : gset MapStateOwner, X ∪ Y ∪ Y = X ∪ Y) as Hu by set_solver.
  assert (∀ a : LabelArrayList,
            (if (0 <? length (derivedFromRules entry))%nat
             then MergeSorted
                    (if (0 <? length (derivedFromRules entry))%nat
                     then MergeSorted a (derivedFromRules entry) else a)
                    (derivedFromRules entry)
             else if (0 <? length (derivedFromRules entry))%nat
                  then MergeSorted a (derivedFromRules entry) else a)
            = if (0 <? length (derivedFromRules entry))%nat
              then MergeSorted a (derivedFromRules entry) else a) as Hdr.
  { intros a. destruct (0 <? _)%nat; [apply MergeSorted_idemp|done]. }
  unfold merge at 2 3.
  destruct (bool_decide (IsDeny (Exported e) = IsDeny (Exported entry))) eqn:Ed;
    cbn [negb].
  2: { unfold merge. by rewrite Ed. }
  apply bool_decide_eq_true in Ed.
  destruct (IsDeny (Exported e)) eqn:Ede; cbn [negb].
  - unfold merge. entry_simpl.
    rewrite Ede, <- Ed. rewrite bool_decide_eq_true_2 by done. cbn [negb].
    by rewrite Hu, Hdr.
  - destruct (mergeProxy e entry) as [x1 prio1] eqn:Ep.
    unfold merge. entry_simpl.
    pose proof (mergeAuth_fields x1 (Exported entry)) as (_ & _ & Hd).
    pose proof (mergeProxy_IsDeny e entry) as Hx1. rewrite Ep, Ede in Hx1.
    cbn [fst] in Hx1.
    rewrite Hd, Hx1, <- Ed. rewrite bool_decide_eq_true_2 by done. cbn [negb].
    rewrite (mergeProxy_mergeAuth e entry x1 prio1) by done.
    by rewrite mergeAuth_idemp, Hu, Hdr.
Qed.

(** *** The cases of [addKeyWithChanges] and [deleteKeyWithChanges] *)

Lemma addKeyWithChanges_cases key entry ch ms :
  addKeyWithChanges key entry ch ms =
  match entries ms !! key with
  | Some oldEntry =>
      if bool_decide (IsDeny (Exported oldEntry) = IsDeny (Exported entry)) then
        if deepEqual entry oldEntry then (false, ms, ch)
        else
          let ch1 := (insertOldIfNotExists key oldEntry ch).2 in
          (true, updateExisting key (merge oldEntry entry) ms,
           if Equal (Exported oldEntry) (Exported entry) then ch1
           else recordAdd key ch1)
      else if IsDeny (Exported entry) then (true, upsert key entry ms, recordAdd key ch)
      else (false, ms, ch)
  | None => (true, upsert key entry ms, recordAdd key ch)
  end.
Proof.
  unfold addKeyWithChanges, get, Lookup, insert, recordAdd. cbn [snd].
  destruct (entries ms !! key) as [oldEntry|]; [|by destruct (Adds ch)].
  case_bool_decide.
  - destruct (deepEqual entry oldEntry); [done|]. cbv zeta.
    destruct (Adds (insertOldIfNotExists key oldEntry ch).2);
      by destruct (Equal (Exported oldEntry) (Exported entry)).
  - destruct (IsDeny (Exported entry)); [|done]. by destruct (Adds ch).
Qed.

Lemma deleteKeyWithChanges_cases key owner ch ms :
  deleteKeyWithChanges key owner ch ms =
  match entries ms !! key with
  | Some entry =>
      let ch1 := (insertOldIfNotExists key entry ch).2 in
      match owner with
      | Some _ =>
          if bool_decide (owner ∈ owners entry) then
            if (0 <? size (owners entry ∖ {[owner]}))%nat then
              (updateExisting key
                 (mkmapStateEntry (Exported entry) (priority entry)
                    (derivedFromRules entry) (owners entry ∖ {[owner]})) ms, ch1)
            else (delete_key key ms, recordDelete key ch1)
          else (ms, ch)
      | None => (delete_key key ms, recordDelete key ch1)
      end
  | None => (ms, ch)
  end.
Proof.
  unfold deleteKeyWithChanges, get, Lookup, recordDelete. cbn [snd].
  destruct (entries ms !! key) as [entry|]; [|done].
  destruct (insertOldIfNotExists key entry ch) as [oldAdded ch1] eqn:Ei.
  cbn [snd]. destruct owner as [o|]; [|done].
  case_bool_decide; [done|]. f_equal.
  destruct oldAdded.
  - pose proof (insertOldIfNotExists_undo key entry ch) as Hu.
    rewrite Ei in Hu. by apply Hu.
  - unfold insertOldIfNotExists in Ei. destruct (old ch) as [o'|]; [|by injection Ei].
    destruct (o' !! key); [by injection Ei|].
    destruct (inKeys key (Adds ch)); [by injection Ei|done].
Qed.

(** *** Repeating an addition *)

Lemma deepEqual_refl e : deepEqual e e = true.
Proof.
  unfold deepEqual. rewrite Equal_refl, N.eqb_refl.
  by rewrite !bool_decide_eq_true_2.
Qed.

Lemma Equal_iff e o :
  Equal e o = true ↔
  IsDeny e = IsDeny o ∧ ProxyPort e = ProxyPort o ∧ AuthTy e = AuthTy o.
Proof.
  unfold Equal. rewrite !andb_true_iff, bool_decide_eq_true, !N.eqb_eq. naive_solver.
Qed.

Lemma mergeProxy_ProxyPort e entry :
  ProxyPort (mergeProxy e entry).1 = ProxyPort (Exported e) ∨
  ProxyPort (mergeProxy e entry).1 = ProxyPort (Exported entry).
Proof. unfold mergeProxy. destruct (_ && _); [by right|by left]. Qed.

Lemma mergeAuth_AuthTy x y :
  AuthTy (mergeAuth x y) = AuthTy x ∨ AuthTy (mergeAuth x y) = AuthTy y.
Proof.
  unfold mergeAuth. destruct (HasAuth y), (HasAuth x); cbn; eauto.
  destruct (_ <? _); cbn; eauto.
Qed.

Lemma mergeProxy_AuthTy e entry : AuthTy (mergeProxy e entry).1 = AuthTy (Exported e).
Proof. unfold mergeProxy. by destruct (_ && _). Qed.

(** A merged entry has the proxy port of one of the two entries and the
    auth type of one of the two. *)
Lemma merge_datapath e entry :
  (ProxyPort (Exported (merge e entry)) = ProxyPort (Exported e) ∨
   ProxyPort (Exported (merge e entry)) = ProxyPort (Exported entry)) ∧
  (AuthTy (Exported (merge e entry)) = AuthTy (Exported e) ∨
   AuthTy (Exported (merge e entry)) = AuthTy (Exported entry)).
Proof.
  unfold merge. case_bool_decide; cbn [negb]; [|by split; left].
  destruct (IsDeny (Exported e)); cbn [negb]; [by split; left|].
  destruct (mergeProxy e entry) as [x1 prio1] eqn:Ep. entry_simpl.
  pose proof (mergeAuth_fields x1 (Exported entry)) as (_ & Hp & _).
  pose proof (mergeProxy_ProxyPort e entry) as Hpp.
  pose proof (mergeProxy_AuthTy e entry) as Ha.
  pose proof (mergeAuth_AuthTy x1 (Exported entry)) as Haa.
  rewrite Ep in Hpp, Ha. cbn [fst] in *. rewrite Hp, <- Ha. done.
Qed.

Lemma Equal_merge e entry :
  Equal (Exported e) (Exported entry) = true →
  Equal (Exported (merge e entry)) (Exported entry) = true.
Proof.
  rewrite !Equal_iff. intros (Hd & Hp & Ha).
  pose proof (merge_datapath e entry) as [Hp' Ha'].
  rewrite merge_IsDeny. repeat split; [done| |]; naive_solver congruence.
Qed.

Lemma insertOldIfNotExists_settled key v ch :
  settled key ch → insertOldIfNotExists key v ch = (false, ch).
Proof.
  unfold settled, insertOldIfNotExists. destruct (old ch) as [o|]; [|done].
  intros [[x ->] | ->]; [done|]. by destruct (o !! key).
Qed.

Lemma settled_insertOldIfNotExists key v ch :
  settled key (insertOldIfNotExists key v ch).2.
Proof.
  unfold insertOldIfNotExists. destruct (old ch) as [o|] eqn:Ho.
  - destruct (o !! key) eqn:Hk.
    + cbn [snd]. unfold settled. rewrite Ho, Hk. by left.
    + destruct (inKeys key (Adds ch)) eqn:Ha; cbn [snd]; unfold settled.
      * rewrite Ho. by right.
      * cbn [old]. left. by rewrite lookup_insert_eq.
  - cbn [snd]. unfold settled. by rewrite Ho.
Qed.

Lemma settled_recordAdd key ch : settled key ch → settled key (recordAdd key ch).
Proof.
  unfold settled, recordAdd. destruct (Adds ch) as [a|] eqn:Ha; [|by rewrite Ha].
  cbn [old Adds]. destruct (old ch); [|done]. intros [?|Hin]; [by left|].
  right. unfold inKeys in *. apply bool_decide_eq_true. 
  apply bool_decide_eq_true in Hin. set_solver.
Qed.

Lemma recordAdd_idemp key ch : recordAdd key (recordAdd key ch) = recordAdd key ch.
Proof.
  unfold recordAdd. destruct (Adds ch) as [a|] eqn:Ha; [|by rewrite Ha].
  cbn [Adds Deletes old]. f_equal; [f_equal; set_solver|].
  destruct (Deletes ch); [|done]. f_equal. set_solver.
Qed.

Lemma updateExisting_id key v ms : entries ms !! key = Some v → updateExisting key v ms = ms.
Proof.
  intros Hk. unfold updateExisting. destruct ms as [es t]. cbn in *.
  f_equal. by apply insert_id.
Qed.

(** X7: adding the same entry at the same key a second time changes
    neither the map state nor the change state. *)
Theorem addKeyWithChanges_idempotent (key : Key) (entry : mapStateEntry)
    (changes : ChangeState) (ms : mapState) :
  let r := addKeyWithChanges key entry changes ms in
  let r' := addKeyWithChanges key entry r.2 r.1.2 in
  r'.1.2 = r.1.2 ∧ r'.2 = r.2.
Proof.
  cbv zeta. rewrite (addKeyWithChanges_cases key entry changes ms).
  assert (∀ ch, addKeyWithChanges key entry ch (upsert key entry ms)
                = (false, upsert key entry ms, ch)) as Hnew.
  { intros ch. rewrite addKeyWithChanges_cases, entries_upsert, lookup_insert_eq.
    by rewrite bool_decide_eq_true_2, deepEqual_refl. }
  destruct (entries ms !! key) as [oldEntry|] eqn:Hk; [|by rewrite Hnew].
  case_bool_decide as Hpol.
  - destruct (deepEqual entry oldEntry) eqn:Hde; cbn [fst snd].
    { rewrite addKeyWithChanges_cases, Hk.
      by rewrite bool_decide_eq_true_2, Hde. }
    cbv zeta. cbn [fst snd].
    set (c1 := (insertOldIfNotExists key oldEntry changes).2).
    set (m := merge oldEntry entry).
    assert (settled key c1) as Hs1 by apply settled_insertOldIfNotExists.
    assert (entries (updateExisting key m ms) !! key = Some m) as Hm
      by (cbn; by rewrite lookup_insert_eq).
    assert (updateExisting key (merge m entry) (updateExisting key m ms)
            = updateExisting key m ms) as Hup.
    { unfold m at 1. rewrite merge_idemp. fold m. by apply updateExisting_id. }
    rewrite addKeyWithChanges_cases, Hm.
    rewrite bool_decide_eq_true_2 by (unfold m; by rewrite merge_IsDeny).
    destruct (deepEqual entry m); [done|]. cbv zeta. rewrite Hup.
    destruct (Equal (Exported oldEntry) (Exported entry)) eqn:He.
    + rewrite (insertOldIfNotExists_settled key m c1 Hs1). cbn [snd].
      unfold m. by rewrite Equal_merge.
    + rewrite (insertOldIfNotExists_settled key m (recordAdd key c1))
        by by apply settled_recordAdd.
      cbn [snd]. rewrite recordAdd_idemp. by destruct (Equal (Exported m) (Exported entry)).
  - destruct (IsDeny (Exported entry)) eqn:E; cbn [fst snd]; [by rewrite Hnew|].
    rewrite addKeyWithChanges_cases, Hk, E.
    by rewrite bool_decide_eq_false_2.
Qed.

(** *** The order of merging *)

Lemma mergeProxy_port_comm a b :
  ProxyPort (mergeProxy a b).1 = ProxyPort (mergeProxy b a).1.
Proof.
  destruct a as [[l p d h a] pr dr ow], b as [[l0 p0 d0 h0 a0] pr0 dr0 ow0].
  unfold mergeProxy, IsRedirectEntry, withProxy. entry_simpl.
  destruct (N.eqb_spec p 0), (N.eqb_spec p0 0), (N.ltb_spec pr0 pr),
    (N.ltb_spec pr pr0), (N.eqb_spec pr0 pr), (N.eqb_spec pr pr0),
    (N.ltb_spec p0 p), (N.ltb_spec p p0); entry_simpl; lia.
Qed.

Lemma merge_allow_Exported a b :
  IsDeny (Exported a) = false → IsDeny (Exported b) = false →
  Exported (merge a b) = mergeAuth (mergeProxy a b).1 (Exported b).
Proof.
  intros Ha Hb. unfold merge. rewrite Ha, Hb.
  rewrite bool_decide_eq_true_2 by done. cbn [negb].
  by destruct (mergeProxy a b).
Qed.

Lemma mergeProxy_auth a b :
  HasAuth (mergeProxy a b).1 = HasAuth (Exported a) ∧
  AuthTy (mergeProxy a b).1 = AuthTy (Exported a).
Proof. unfold mergeProxy. by destruct (_ && _). Qed.

(** X8: for two allow entries the merged proxy port, the merged
    [HasAuthType] and the merged owners do not depend on which entry is
    merged into which; neither does the merged auth type, unless both
    entries have a default auth type, in which case the auth type of the
    entry merged in prevails. *)
Theorem merge_order (a b : mapStateEntry) :
  IsDeny (Exported a) = false → IsDeny (Exported b) = false →
  ProxyPort (Exported (merge a b)) = ProxyPort (Exported (merge b a)) ∧
  HasAuth (Exported (merge a b)) = HasAuth (Exported (merge b a)) ∧
  owners (merge a b) = owners (merge b a) ∧
  (HasAuth (Exported a) = ExplicitAuthType ∨ HasAuth (Exported b) = ExplicitAuthType →
   AuthTy (Exported (merge a b)) = AuthTy (Exported (merge b a))) ∧
  (HasAuth (Exported a) = DefaultAuthType → HasAuth (Exported b) = DefaultAuthType →
   AuthTy (Exported (merge a b)) = AuthTy (Exported b)).
Proof.
  intros Ha Hb. rewrite !merge_allow_Exported by done.
  pose proof (mergeAuth_fields (mergeProxy a b).1 (Exported b)) as (_ & Hp1 & _).
  pose proof (mergeAuth_fields (mergeProxy b a).1 (Exported a)) as (_ & Hp2 & _).
  pose proof (mergeProxy_auth a b) as [Hh1 Ha1].
  pose proof (mergeProxy_auth b a) as [Hh2 Ha2].
  split; [by rewrite Hp1, Hp2, mergeProxy_port_comm|].
  assert (owners (merge a b) = owners (merge b a)) as Ho.
  { unfold merge. rewrite Ha, Hb. rewrite !bool_decide_eq_true_2 by done.
    cbn [negb]. destruct (mergeProxy a b), (mergeProxy b a). cbn. set_solver. }
  revert Hh1 Ha1 Hh2 Ha2. unfold mergeAuth, withAuth.
  generalize (mergeProxy a b).1 (mergeProxy b a).1. intros x y Hh1 Ha1 Hh2 Ha2.
  rewrite Hh1, Hh2.
  destruct (HasAuth (Exported a)) eqn:E1, (HasAuth (Exported b)) eqn:E2; entry_simpl;
    rewrite ?Ha1, ?Ha2, ?Hh1, ?Hh2.
  - repeat split; try done. by intros [?|?].
  - repeat split; try done.
  - repeat split; try done.
  - destruct (N.ltb_spec (AuthTy (Exported a)) (AuthTy (Exported b))),
      (N.ltb_spec (AuthTy (Exported b)) (AuthTy (Exported a))); entry_simpl;
      rewrite ?Ha1, ?Ha2, ?Hh1, ?Hh2; repeat split; try done; intros; lia.
Qed.

Lemma runSteps_app tr1 tr2 st : runSteps (tr1 ++ tr2) st = runSteps tr2 (runSteps tr1 st).
Proof. apply foldl_app. Qed.

Lemma overrideAuthType_AuthTy newEntry newEntry' k v ch ms :
  AuthTy (Exported newEntry) = AuthTy (Exported newEntry') →
  overrideAuthType newEntry k v ch ms = overrideAuthType newEntry' k v ch ms.
Proof. unfold overrideAuthType. by intros ->. Qed.

Lemma deleteCovered_trace newKey ks ch ms :
  ∃ tr, runSteps tr (ms, ch) = deleteCovered newKey ks ch ms ∧
        Forall (λ s, ∃ k, s = StepDelete k None ∧ k ∈ ks) tr.
Proof.
  revert ch ms. induction ks as [|k ks IH]; intros ch ms; [by exists []|].
  assert (∀ tr, Forall (λ s, ∃ k', s = StepDelete k' None ∧ k' ∈ ks) tr →
                Forall (λ s, ∃ k', s = StepDelete k' None ∧ k' ∈ k :: ks) tr) as Hw.
  { intros tr. apply Forall_impl. intros s (k' & -> & Hk'). exists k'.
    split; [done|]. by apply elem_of_cons; right. }
  cbn [deleteCovered].
  destruct (forKey ms k) as [v|]; [|destruct (IH ch ms) as (tr & <- & Htr); eauto].
  destruct (negb (IsDeny (Exported v) && bool_decide (k = newKey)));
    [|destruct (IH ch ms) as (tr & <- & Htr); eauto].
  destruct (deleteKeyWithChanges k None ch ms) as [ms1 ch1] eqn:Hd.
  destruct (IH ch1 ms1) as (tr & <- & Htr).
  exists (StepDelete k None :: tr). split.
  - unfold runSteps. cbn [foldl runStep fst snd]. by rewrite Hd.
  - constructor; [|by apply Hw]. exists k. split; [done|]. by apply elem_of_cons; left.
Qed.

Lemma propagateAuthType_trace newEntry ks ch ms :
  ∃ tr, runSteps tr (ms, ch) = propagateAuthType newEntry ks ch ms ∧
        Forall (λ s, ∃ k, s = StepAuth k (AuthTy (Exported newEntry)) ∧ k ∈ ks) tr.
Proof.
  revert ch ms. induction ks as [|k ks IH]; intros ch ms; [by exists []|].
  assert (∀ tr, Forall (λ s, ∃ k', s = StepAuth k' (AuthTy (Exported newEntry))
                                   ∧ k' ∈ ks) tr →
                Forall (λ s, ∃ k', s = StepAuth k' (AuthTy (Exported newEntry))
                                   ∧ k' ∈ k :: ks) tr) as Hw.
  { intros tr. apply Forall_impl. intros s (k' & -> & Hk'). exists k'.
    split; [done|]. by apply elem_of_cons; right. }
  cbn [propagateAuthType].
  destruct (forKey ms k) as [v|] eqn:Hk;
    [|destruct (IH ch ms) as (tr & <- & Htr); eauto].
  destruct (IsDeny (Exported v) || bool_decide (HasAuth (Exported v) = ExplicitAuthType))
    eqn:Hstop; [by exists []|].
  destruct (overrideAuthType newEntry k v ch ms) as [ms1 ch1] eqn:Ho.
  destruct (IH ch1 ms1) as (tr & <- & Htr).
  exists (StepAuth k (AuthTy (Exported newEntry)) :: tr). split.
  - unfold runSteps. cbn [foldl runStep fst snd]. rewrite Hk, Hstop.
    rewrite (overrideAuthType_AuthTy _ newEntry); [by rewrite Ho|done].
  - constructor; [|by apply Hw]. exists k. split; [done|]. by apply elem_of_cons; left.
Qed.

Lemma coveringAuthType_cases ms newEntry ks e :
  coveringAuthType ms newEntry ks = Ok e →
  e = newEntry ∨ ∃ a, e = setAuthType newEntry a.
Proof.
  induction ks as [|k ks IH]; cbn [coveringAuthType]; [intros [= <-]; by left|].
  destruct (forKey ms k) as [v|]; [|done].
  destruct (IsDeny (Exported v)); [done|].
  case_bool_decide; [|done]. intros [= <-]. right. eauto.
Qed.

Lemma insertWithChanges_trace key entry features ch ms ms' ch' :
  insertWithChanges key entry features ch ms = Ok (ms', ch') →
  ∃ tr, runSteps tr (ms, ch) = (ms', ch') ∧
        Forall (insertStep ms key entry features) tr.
Proof.
  unfold insertWithChanges, denyPreferredInsertWithChanges.
  destruct (coveredByDeny ms key entry (BroaderOrEqualKeys ms key));
    [intros [= <- <-]; by exists []|].
  destruct (IsDeny (Exported entry)) eqn:Hd.
  - destruct (deleteCovered_trace key (NarrowerOrEqualKeys ms key) ch ms)
      as (tr & Hrun & Htr).
    destruct (deleteCovered key (NarrowerOrEqualKeys ms key) ch ms) as [ms1 ch1].
    destruct (addKeyWithChanges key entry ch1 ms1) as [[b ms2] ch2] eqn:Ha.
    intros [= <- <-]. exists (tr ++ [StepAdd key entry]). split.
    + rewrite runSteps_app, Hrun. unfold runSteps. cbn [foldl runStep fst snd].
      by rewrite Ha.
    + apply Forall_app. split.
      * eapply list.Forall_impl; [exact Htr|]. intros s (k & -> & Hk). by cbn.
      * constructor; [|constructor]. cbn. auto.
  - destruct (contains features authRules) eqn:Hf.
    + unfold authPreferredInsert. case_bool_decide as Hdef.
      * destruct (coveringAuthType ms entry (CoveringKeysWithSameID ms key))
          as [e'|] eqn:Hc; [|done].
        apply coveringAuthType_cases in Hc.
        destruct (addKeyWithChanges key e' ch ms) as [[b ms2] ch2] eqn:Ha.
        intros [= <- <-]. exists [StepAdd key e']. split.
        -- unfold runSteps. cbn [foldl runStep fst snd]. by rewrite Ha.
        -- constructor; [|constructor]. cbn. split; [done|].
           destruct Hc as [-> | [a ->]]; [by left|right; eauto].
      * destruct (propagateAuthType_trace entry (SubsetKeysWithSameID ms key) ch ms)
          as (tr & Hrun & Htr).
        destruct (propagateAuthType entry (SubsetKeysWithSameID ms key) ch ms)
          as [ms1 ch1].
        destruct (addKeyWithChanges key entry ch1 ms1) as [[b ms2] ch2] eqn:Ha.
        intros [= <- <-]. exists (tr ++ [StepAdd key entry]). split.
        -- rewrite runSteps_app, Hrun. unfold runSteps. cbn [foldl runStep fst snd].
           by rewrite Ha.
        -- apply Forall_app. split.
           ++ eapply list.Forall_impl; [exact Htr|]. intros s (k & -> & Hk). cbn.
              repeat split; try done. by destruct (HasAuth (Exported entry)).
           ++ constructor; [|constructor]. cbn. auto.
    + destruct (addKeyWithChanges key entry ch ms) as [[b ms2] ch2] eqn:Ha.
      intros [= <- <-]. exists [StepAdd key entry]. split.
      * unfold runSteps. cbn [foldl runStep fst snd]. by rewrite Ha.
      * constructor; [|constructor]. cbn. auto.
Qed.

Lemma batchEntries_cons op ops :
  batchEntries (op :: ops) =
  match op with BatchInsert _ entry _ => [entry] | BatchDelete _ _ => [] end
  ++ batchEntries ops.
Proof. done. Qed.

Lemma batchStep_cons op ops s : batchStep ops s → batchStep (op :: ops) s.
Proof.
  destruct s as [k e|k o|k a]; cbn [batchStep]; [|done|].
  - intros (entry & Hin & He). exists entry. split; [|done].
    rewrite batchEntries_cons. apply elem_of_app. by right.
  - intros (key & entry & f & Hin & H). exists key, entry, f.
    split; [by apply elem_of_cons; right|done].
Qed.

Lemma applyBatch_trace ops ch ms ms' ch' :
  applyBatch ops ch ms = Ok (ms', ch') →
  ∃ tr, runSteps tr (ms, ch) = (ms', ch') ∧ Forall (batchStep ops) tr.
Proof.
  revert ch ms. induction ops as [|op ops IH]; intros ch ms.
  - intros [= <- <-]. by exists [].
  - destruct op as [key entry features|key owner]; cbn [applyBatch].
    + destruct (insertWithChanges key entry features ch ms) as [[ms1 ch1]|] eqn:Hi;
        [|done].
      intros (tr2 & Hrun2 & Htr2)%IH.
      apply insertWithChanges_trace in Hi as (tr1 & Hrun1 & Htr1).
      exists (tr1 ++ tr2). split; [by rewrite runSteps_app, Hrun1|].
      apply Forall_app. split.
      * eapply list.Forall_impl; [exact Htr1|].
        intros [k e|k o|k a]; cbn [batchStep insertStep]; [|done|].
        -- intros [-> He]. exists entry. split.
           ++ rewrite batchEntries_cons. apply elem_of_app. left.
              by apply list_elem_of_singleton.
           ++ destruct He as [-> | (a & -> & _)]; eauto.
        -- intros (-> & Hd & Hh & Hf & _). exists key, entry, features.
           split; [by apply elem_of_cons; left|done].
      * eapply list.Forall_impl; [exact Htr2|]. apply batchStep_cons.
    + destruct (deleteKeyWithChanges key owner ch ms) as [ms1 ch1] eqn:Hd.
      intros (tr2 & Hrun2 & Htr2)%IH.
      exists (StepDelete key owner :: tr2). split.
      * unfold runSteps in *. cbn [foldl runStep fst snd]. by rewrite Hd.
      * constructor; [done|].
        eapply list.Forall_impl; [exact Htr2|]. apply batchStep_cons.
Qed.

(** An invariant of steps is an invariant of traces. *)
Lemma runSteps_ind (Inv : mapState * ChangeState → Prop) (ok : EngineStep → Prop) tr st :
  (∀ st s, ok s → Inv st → Inv (runStep st s)) →
  Forall ok tr → Inv st → Inv (runSteps tr st).
Proof.
  intros Hstep Htr. revert st. induction Htr as [|s tr Hs Htr IH]; intros st Hst; [done|].
  unfold runSteps. cbn [foldl]. apply IH. by apply Hstep.
Qed.

(** *** The entries after a step *)

Lemma runStep_entries st s k' :
  entries (runStep st s).1 !! k' = entries st.1 !! k' ∨
  match s with
  | StepAdd k e =>
      k' = k ∧
      (entries (runStep st s).1 !! k = Some e ∨
       ∃ oldEntry, entries st.1 !! k = Some oldEntry ∧
                   IsDeny (Exported oldEntry) = IsDeny (Exported e) ∧
                   entries (runStep st s).1 !! k = Some (merge oldEntry e))
  | StepDelete k owner =>
      k' = k ∧
      (entries (runStep st s).1 !! k = None ∨
       ∃ v o, entries st.1 !! k = Some v ∧ owner = Some o ∧
              entries (runStep st s).1 !! k =
              Some (mkmapStateEntry (Exported v) (priority v) (derivedFromRules v)
                                    (owners v ∖ {[owner]})))
  | StepAuth k a =>
      k' = k ∧
      ∃ v, entries st.1 !! k = Some v ∧ IsDeny (Exported v) = false ∧
           HasAuth (Exported v) = DefaultAuthType ∧
           entries (runStep st s).1 !! k = Some (setAuthType v a)
  end.
Proof.
  destruct st as [ms ch]. destruct s as [k e|k owner|k a]; cbn [runStep fst snd].
  - destruct (decide (k' = k)) as [->|Hne].
    2: { left. pose proof (addKeyWithChanges_entries_ne k e ch ms k' Hne) as H.
         by destruct (addKeyWithChanges k e ch ms) as [[b ms'] ch']. }
    rewrite addKeyWithChanges_cases.
    destruct (entries ms !! k) as [oldEntry|] eqn:Hk.
    + case_bool_decide as Hpol.
      * destruct (deepEqual e oldEntry); [by left|]. right. split; [done|]. right.
        exists oldEntry. cbn. by rewrite lookup_insert_eq.
      * destruct (IsDeny (Exported e)); [|by left]. right. split; [done|]. left.
        cbn [fst]. by rewrite entries_upsert, lookup_insert_eq.
    + right. split; [done|]. left. cbn [fst].
      by rewrite entries_upsert, lookup_insert_eq.
  - destruct (decide (k' = k)) as [->|Hne].
    2: { left. by apply deleteKeyWithChanges_entries_ne. }
    rewrite deleteKeyWithChanges_cases.
    destruct (entries ms !! k) as [v|] eqn:Hk; [|by left].
    cbv zeta. destruct owner as [o|].
    + case_bool_decide; [|by left]. destruct (0 <? _)%nat.
      * right. split; [done|]. right. exists v, o. cbn.
        by rewrite lookup_insert_eq.
      * right. split; [done|]. left. cbn [fst].
        by rewrite entries_delete_key, lookup_delete_eq.
    + right. split; [done|]. left. cbn [fst].
      by rewrite entries_delete_key, lookup_delete_eq.
  - unfold forKey. destruct (entries ms !! k) as [v|] eqn:Hk; [|by left].
    destruct (IsDeny (Exported v)) eqn:Hd; cbn [orb]; [by left|].
    case_bool_decide as Hh; [by left|].
    destruct (decide (k' = k)) as [->|Hne].
    + right. split; [done|]. exists v. unfold overrideAuthType. cbn.
      rewrite lookup_insert_eq. repeat split; try done.
      by destruct (HasAuth (Exported v)).
    + left. unfold overrideAuthType. cbn. by rewrite lookup_insert_ne.
Qed.

(** *** Properties of entries that the engine keeps *)

Section EntryInvariant.
Variable P : mapStateEntry → Prop.
Hypothesis P_merge : ∀ e entry,
  IsDeny (Exported e) = IsDeny (Exported entry) → P e → P entry → P (merge e entry).
Hypothesis P_owners : ∀ e ow,
  P e → P (mkmapStateEntry (Exported e) (priority e) (derivedFromRules e) ow).
Hypothesis P_auth : ∀ e a, P e → P (setAuthType e a).

Lemma runStep_entries_closed st s :
  match s with StepAdd _ e => P e | _ => True end →
  (∀ k v, entries st.1 !! k = Some v → P v) →
  ∀ k v, entries (runStep st s).1 !! k = Some v → P v.
Proof.
  intros Hs Hall k' v' Hk'.
  destruct (runStep_entries st s k') as [Heq | Hcase];
    [rewrite Heq in Hk'; by eapply Hall|].
  destruct s as [k e|k owner|k a].
  - destruct Hcase as [-> [He | (oldEntry & Ho & Hpol & He)]].
    + rewrite He in Hk'. by injection Hk' as <-.
    + rewrite He in Hk'. injection Hk' as <-. apply P_merge; [done| |done].
      by eapply Hall.
  - destruct Hcase as [-> [He | (v & o & Ho & -> & He)]]; [congruence|].
    rewrite He in Hk'. injection Hk' as <-. apply P_owners. by eapply Hall.
  - destruct Hcase as [-> (v & Ho & _ & _ & He)].
    rewrite He in Hk'. injection Hk' as <-. apply P_auth. by eapply Hall.
Qed.

Lemma applyBatch_entries_closed ops ch ms ms' ch' :
  Forall P (batchEntries ops) →
  (∀ k v, entries ms !! k = Some v → P v) →
  applyBatch ops ch ms = Ok (ms', ch') →
  ∀ k v, entries ms' !! k = Some v → P v.
Proof.
  intros Hops Hall (tr & Hrun & Htr)%applyBatch_trace.
  change ms' with (ms', ch').1. rewrite <- Hrun.
  apply (runSteps_ind (λ st, ∀ k v, entries st.1 !! k = Some v → P v)
                      (batchStep ops)); [|done|done].
  intros st s Hs. apply runStep_entries_closed.
  destruct s as [k e|k o|k a]; [|done..].
  destruct Hs as (entry & Hin & He). rewrite list.Forall_forall in Hops.
  destruct He as [-> | [a ->]]; [by apply Hops|]. by apply P_auth, Hops.
Qed.
End EntryInvariant.

Lemma redirect_wf_merge e entry :
  redirect_wf e → redirect_wf entry → redirect_wf (merge e entry).
Proof.
  unfold redirect_wf, merge. intros He Hentry.
  case_bool_decide; cbn [negb]; [|done].
  destruct (IsDeny (Exported e)); cbn [negb]; [done|].
  destruct (mergeProxy e entry) as [x1 prio1] eqn:Ep. entry_simpl.
  pose proof (mergeAuth_fields x1 (Exported entry)) as (Hl & Hp & _).
  unfold IsRedirectEntry in *. rewrite Hl, Hp.
  unfold mergeProxy in Ep. destruct (_ && _); injection Ep as <- <-; [|done].
  by unfold withProxy.
Qed.

Lemma redirect_wf_newMapStateEntry cs derivedFrom proxyPort listener prio deny
    hasAuth authType :
  redirect_wf (newMapStateEntry cs derivedFrom proxyPort listener prio deny
                                hasAuth authType).
Proof.
  unfold redirect_wf, newMapStateEntry, IsRedirectEntry.
  destruct (N.eqb_spec proxyPort 0) as [->|Hp]; [done|].
  destruct (N.eqb_spec prio 0) as [->|Hq]; entry_simpl.
  - apply N.eqb_neq in Hp as Hp'. by rewrite Hp'.
  - apply N.eqb_neq in Hp as Hp'. by rewrite Hp'.
Qed.

(** X9: an entry of the map that does not redirect has neither a listener
    nor a priority, and one that redirects has a priority: this holds for
    every entry made by [newMapStateEntry], is kept by [merge], and hence
    holds for every entry of the map after a batch of insertions of such
    entries and of deletions. *)
Theorem redirect_wf_kept (ops : list BatchOp) (changes : ChangeState)
    (ms ms' : mapState) (changes' : ChangeState) :
  Forall redirect_wf (batchEntries ops) →
  (∀ k v, Lookup ms k = Some v → redirect_wf v) →
  applyBatch ops changes ms = Ok (ms', changes') →
  ∀ k v, Lookup ms' k = Some v → redirect_wf v.
Proof.
  unfold Lookup. apply (applyBatch_entries_closed redirect_wf).
  - intros e entry _. apply redirect_wf_merge.
  - by intros [x p d o] ow.
  - by intros [[l p d h a] pr dr ow] a'.
Qed.

(** X10: [toMapStateEntry] makes the entry that [newMapStateEntry] makes
    from the fields of the exported entry, and the exported part of the
    result is the given entry unless that one names a listener without
    redirecting. *)
Theorem toMapStateEntry_newMapStateEntry (e : MapStateEntry) (prio : N)
    (cs : MapStateOwner) (derivedFrom : LabelArrayList) :
  toMapStateEntry e prio cs derivedFrom =
    newMapStateEntry cs derivedFrom (ProxyPort e) (Listener e) prio (IsDeny e)
                     (HasAuth e) (AuthTy e) ∧
  redirect_wf (toMapStateEntry e prio cs derivedFrom) ∧
  (Exported (toMapStateEntry e prio cs derivedFrom) = e ↔
   (ProxyPort e = 0 → Listener e = EmptyString)).
Proof.
  assert (toMapStateEntry e prio cs derivedFrom =
          newMapStateEntry cs derivedFrom (ProxyPort e) (Listener e) prio (IsDeny e)
                           (HasAuth e) (AuthTy e)) as Heq.
  { unfold toMapStateEntry, newMapStateEntry.
    destruct (ProxyPort e =? 0); [done|]. by destruct (prio =? 0). }
  split; [done|]. split; [rewrite Heq; apply redirect_wf_newMapStateEntry|].
  unfold toMapStateEntry. destruct e as [l p d h a]. entry_simpl.
  destruct (N.eqb_spec p 0) as [->|Hp].
  - cbn. split; [by intros [= <-]|]. intros H. by rewrite H.
  - destruct (prio =? 0); cbn; (split; [done|by intros _]).
Qed.

(** *** The change state after a step *)

Lemma insertOldIfNotExists_Adds key v ch :
  Adds (insertOldIfNotExists key v ch).2 = Adds ch ∧
  Deletes (insertOldIfNotExists key v ch).2 = Deletes ch.
Proof.
  unfold insertOldIfNotExists. destruct (old ch) as [o|]; [|done].
  destruct (o !! key); [done|]. by destruct (inKeys key (Adds ch)).
Qed.

Lemma runStep_changes_sound st s :
  changes_sound st.1 st.2 → changes_sound (runStep st s).1 (runStep st s).2.
Proof.
  destruct st as [ms ch]. unfold changes_sound, Lookup. cbn [fst snd].
  intros (a & d & Ha & Hd & Hin & Hout).
  destruct s as [k e|k owner|k a0]; cbn [runStep fst snd].
  - rewrite addKeyWithChanges_cases.
    assert (∀ ch1 (ms1 : mapState), Adds ch1 = Some a → Deletes ch1 = Some d →
              (∀ k', k' ≠ k → entries ms1 !! k' = entries ms !! k') →
              is_Some (entries ms1 !! k) →
              ∃ a' d', Adds (recordAdd k ch1) = Some a' ∧
                       Deletes (recordAdd k ch1) = Some d' ∧
                       (∀ k', k' ∈ a' → is_Some (entries ms1 !! k')) ∧
                       (∀ k', k' ∈ d' → entries ms1 !! k' = None)) as Hrec.
    { intros ch1 ms1 Ha1 Hd1 Hne Hk. unfold recordAdd. rewrite Ha1, Hd1.
      eexists _, _. split; [done|]. split; [done|]. cbn. split.
      - intros k' [->%elem_of_singleton | Hk']%elem_of_union; [done|].
        destruct (decide (k' = k)) as [->|Hn]; [done|]. rewrite Hne by done. auto.
      - intros k' [Hk' Hn%not_elem_of_singleton]%elem_of_difference.
        rewrite Hne by done. auto. }
    assert (∀ ch1 (ms1 : mapState), Adds ch1 = Some a → Deletes ch1 = Some d →
              (∀ k', k' ≠ k → entries ms1 !! k' = entries ms !! k') →
              (is_Some (entries ms1 !! k) ↔ is_Some (entries ms !! k)) →
              ∃ a' d', Adds ch1 = Some a' ∧ Deletes ch1 = Some d' ∧
                       (∀ k', k' ∈ a' → is_Some (entries ms1 !! k')) ∧
                       (∀ k', k' ∈ d' → entries ms1 !! k' = None)) as Hsame.
    { intros ch1 ms1 Ha1 Hd1 Hne Hk. exists a, d. split; [done|]. split; [done|].
      split.
      - intros k' Hk'. destruct (decide (k' = k)) as [->|Hn]; [apply Hk; auto|].
        rewrite Hne by done. auto.
      - intros k' Hk'. destruct (decide (k' = k)) as [->|Hn].
        + apply Hout in Hk'. apply eq_None_not_Some. intros Hs%Hk.
          rewrite Hk' in Hs. by destruct Hs.
        + rewrite Hne by done. auto. }
    pose proof (insertOldIfNotExists_Adds k) as Hio.
    destruct (entries ms !! k) as [oldEntry|] eqn:Hk.
    + case_bool_decide.
      * destruct (deepEqual e oldEntry); cbn [fst snd]; [by exists a, d|].
        destruct (Hio oldEntry ch) as [Ha1 Hd1].
        destruct (Equal (Exported oldEntry) (Exported e)).
        -- apply Hsame; [congruence..| |].
           ++ intros k' Hn. cbn. by rewrite lookup_insert_ne.
           ++ cbn. rewrite lookup_insert_eq, ?Hk. by split.
        -- apply Hrec; [congruence..| |].
           ++ intros k' Hn. cbn. by rewrite lookup_insert_ne.
           ++ cbn. by rewrite lookup_insert_eq.
      * destruct (IsDeny (Exported e)); cbn [fst snd]; [|by exists a, d].
        apply Hrec; [done..| |].
        -- intros k' Hn. by rewrite entries_upsert, lookup_insert_ne.
        -- by rewrite entries_upsert, lookup_insert_eq.
    + cbn [fst snd]. apply Hrec; [done..| |].
      * intros k' Hn. by rewrite entries_upsert, lookup_insert_ne.
      * by rewrite entries_upsert, lookup_insert_eq.
  - rewrite deleteKeyWithChanges_cases.
    destruct (entries ms !! k) as [v|] eqn:Hk; [|by exists a, d].
    cbv zeta. destruct (insertOldIfNotExists_Adds k v ch) as [Ha1 Hd1].
    assert (∃ a' d',
              Adds (recordDelete k (insertOldIfNotExists k v ch).2) = Some a' ∧
              Deletes (recordDelete k (insertOldIfNotExists k v ch).2) = Some d' ∧
              (∀ k', k' ∈ a' → is_Some (entries (delete_key k ms) !! k')) ∧
              (∀ k', k' ∈ d' → entries (delete_key k ms) !! k' = None)) as Hdel.
    { unfold recordDelete. rewrite Ha1, Hd1, Ha, Hd. eexists _, _.
      split; [done|]. split; [done|]. cbn. rewrite entries_delete_key. split.
      - intros k' [Hk' Hn%not_elem_of_singleton]%elem_of_difference.
        rewrite lookup_delete_ne by done. auto.
      - intros k' [->%elem_of_singleton | Hk']%elem_of_union;
          [by rewrite lookup_delete_eq|].
        destruct (decide (k' = k)) as [->|Hn]; [by rewrite lookup_delete_eq|].
        rewrite lookup_delete_ne by done. auto. }
    destruct owner as [o|]; [|done].
    case_bool_decide; [|by exists a, d].
    destruct (0 <? _)%nat; [|done]. cbn [fst snd].
    exists a, d. split; [congruence|]. split; [congruence|]. cbn. split.
    + intros k' Hk'. destruct (decide (k' = k)) as [->|Hn];
        [by rewrite lookup_insert_eq|]. rewrite lookup_insert_ne by done. auto.
    + intros k' Hk'. destruct (decide (k' = k)) as [->|Hn];
        [apply Hout in Hk'; congruence|]. rewrite lookup_insert_ne by done. auto.
  - unfold forKey. destruct (entries ms !! k) as [v|] eqn:Hk; [|by exists a, d].
    destruct (_ || _); [by exists a, d|].
    unfold overrideAuthType. cbn [fst snd entries].
    destruct (insertOldIfNotExists_Adds k v ch) as [Ha1 Hd1].
    exists a, d. split; [congruence|]. split; [congruence|]. split.
    + intros k' Hk'. destruct (decide (k' = k)) as [->|Hn];
        [by rewrite lookup_insert_eq|]. rewrite lookup_insert_ne by done. auto.
    + intros k' Hk'. destruct (decide (k' = k)) as [->|Hn];
        [apply Hout in Hk'; congruence|]. rewrite lookup_insert_ne by done. auto.
Qed.

(** X11: after a batch recorded into a change state whose [Adds] and
    [Deletes] are not nil and, like those of a new change state, name only
    keys of the map and only keys not in the map, every key in [Adds] is
    in the map, no key in [Deletes] is, and no key is in both. *)
Theorem applyBatch_changes_sound (ops : list BatchOp) (changes : ChangeState)
    (ms ms' : mapState) (changes' : ChangeState) :
  changes_sound ms changes →
  applyBatch ops changes ms = Ok (ms', changes') →
  ∃ a d, Adds changes' = Some a ∧ Deletes changes' = Some d ∧
         (∀ k, k ∈ a → is_Some (Get ms' k)) ∧
         (∀ k, k ∈ d → Get ms' k = None) ∧
         a ## d.
Proof.
  intros Hs (tr & Hrun & Htr)%applyBatch_trace.
  assert (changes_sound (ms', changes').1 (ms', changes').2) as Hs'.
  { rewrite <- Hrun.
    apply (runSteps_ind (λ st, changes_sound st.1 st.2) (λ _, True));
      [|by apply Forall_true|done].
    intros st s _. apply runStep_changes_sound. }
  destruct Hs' as (a & d & Ha & Hd & Hin & Hout). cbn [fst snd] in *.
  exists a, d. unfold Get, get, Lookup in *. cbn [snd].
  split; [done|]. split; [done|]. split; [|split].
  - intros k Hk. apply fmap_is_Some. auto.
  - intros k Hk. by rewrite Hout.
  - intros k Hka Hkd. apply Hin in Hka as [x Hx]. apply Hout in Hkd. congruence.
Qed.

(** *** What an insertion leaves alone *)

(** X12: an insertion at a key leaves every key alone that the key does not
    cover, that is, whose prefix is not narrower than or equal to the
    key's or whose identity differs from the key's identity, unless that
    one is the wildcard. *)
Theorem insertWithChanges_frame (key : Key) (entry : mapStateEntry)
    (features : policyFeatures) (changes : ChangeState) (ms ms' : mapState)
    (changes' : ChangeState) (k : Key) :
  insertWithChanges key entry features changes ms = Ok (ms', changes') →
  ¬ (isPrefixOf (LPM key) (LPM k) = true ∧
     (Identity key = 0 ∨ Identity k = Identity key)) →
  Lookup ms' k = Lookup ms k.
Proof.
  unfold Lookup. intros (tr & Hrun & Htr)%insertWithChanges_trace Hk.
  change ms' with (ms', changes').1. rewrite <- Hrun.
  apply (runSteps_ind (λ st, entries st.1 !! k = entries ms !! k)
                      (insertStep ms key entry features)); [|done|done].
  intros st s Hs Hst. rewrite <- Hst.
  destruct (runStep_entries st s k) as [Heq | Hcase]; [done|].
  destruct Hk. destruct s as [k0 e|k0 owner|k0 a].
  - destruct Hs as [-> _]. destruct Hcase as [-> _].
    split; [apply isPrefixOf_refl|by right].
  - destruct Hs as (_ & _ & Hin). destruct Hcase as [-> _].
    apply elem_of_NarrowerOrEqualKeys in Hin as (ids & _ & _ & Hp & Hid). done.
  - destruct Hs as (_ & _ & _ & _ & Hin). destruct Hcase as [-> _].
    apply elem_of_SubsetKeysWithSameID in Hin as (ids & _ & _ & Hp & _ & Hid).
    split; [done|by right].
Qed.

(** X13: the insertion of an allow entry removes no key and leaves every
    deny entry as it is. *)
Theorem insertWithChanges_allow_keeps (key : Key) (entry : mapStateEntry)
    (features : policyFeatures) (changes : ChangeState) (ms ms' : mapState)
    (changes' : ChangeState) :
  IsDeny (Exported entry) = false →
  insertWithChanges key entry features changes ms = Ok (ms', changes') →
  (∀ k, is_Some (Lookup ms k) → is_Some (Lookup ms' k)) ∧
  (∀ k v, Lookup ms k = Some v → IsDeny (Exported v) = true → Lookup ms' k = Some v).
Proof.
  unfold Lookup. intros Hallow (tr & Hrun & Htr)%insertWithChanges_trace.
  change ms' with (ms', changes').1. rewrite <- Hrun.
  apply (runSteps_ind
           (λ st, (∀ k, is_Some (entries ms !! k) → is_Some (entries st.1 !! k)) ∧
                  (∀ k v, entries ms !! k = Some v → IsDeny (Exported v) = true →
                          entries st.1 !! k = Some v))
           (insertStep ms key entry features)); [|done|done].
  intros st s Hs [Hkeys Hdeny].
  assert (∀ k, (entries (runStep st s).1 !! k = entries st.1 !! k) ∨
               (∃ v v', entries st.1 !! k = Some v ∧ IsDeny (Exported v) = false ∧
                        entries (runStep st s).1 !! k = Some v') ∨
               (entries st.1 !! k = None ∧ is_Some (entries (runStep st s).1 !! k)))
    as Hstep.
  { intros k. destruct (runStep_entries st s k) as [Heq | Hcase]; [by left|].
    destruct s as [k0 e|k0 owner|k0 a].
    - destruct Hs as [_ He]. destruct Hcase as [-> Hcase].
      assert (IsDeny (Exported e) = false) as Hea.
      { destruct He as [-> | (a & -> & _)]; [done|]. by destruct entry as [[]]. }
      destruct (entries st.1 !! k0) as [v0|] eqn:Hk0.
      + destruct (IsDeny (Exported v0)) eqn:Hd0.
        * left. destruct st as [ms0 ch0]. cbn [runStep fst snd] in *.
          rewrite addKeyWithChanges_cases, Hk0.
          rewrite bool_decide_eq_false_2 by congruence. by rewrite Hea.
        * right. left. destruct Hcase as [Hc | (o & _ & _ & Hc)]; eauto.
      + right. right. split; [done|].
        destruct Hcase as [Hc | (o & _ & _ & Hc)]; rewrite Hc; eauto.
    - destruct Hs as (_ & Hd & _). congruence.
    - destruct Hcase as [-> (v & Hv & Hd & _ & Hc)]. right. left. eauto. }
  split.
  - intros k Hk%Hkeys. destruct (Hstep k) as [-> | [(v & v' & _ & _ & ->) | [_ H]]]; eauto.
  - intros k v Hk Hd. specialize (Hdeny k v Hk Hd).
    destruct (Hstep k) as [-> | [(v0 & v' & Hv0 & Hd0 & _) | [Hn _]]]; [done|..];
      congruence.
Qed.

(** *** What the change state tells the datapath *)

Lemma datapathEq_refl x : datapathEq x x.
Proof. destruct x; [apply Equal_refl|done]. Qed.

Lemma datapathEq_trans x y z : datapathEq x y → datapathEq y z → datapathEq x z.
Proof.
  destruct x, y, z; cbn; try done. rewrite !Equal_iff. naive_solver congruence.
Qed.

Lemma Equal_merge_old e entry :
  Equal (Exported e) (Exported entry) = true →
  Equal (Exported e) (Exported (merge e entry)) = true.
Proof.
  intros He. pose proof (Equal_merge e entry He) as Hm.
  rewrite !Equal_iff in *. naive_solver congruence.
Qed.

Lemma runStep_tracks ms0 st s :
  (∀ k a, s ≠ StepAuth k a) →
  (∃ a d, Adds st.2 = Some a ∧ Deletes st.2 = Some d ∧
          ∀ k, k ∉ a → k ∉ d → datapathEq (entries ms0 !! k) (entries st.1 !! k)) →
  ∃ a d, Adds (runStep st s).2 = Some a ∧ Deletes (runStep st s).2 = Some d ∧
         ∀ k, k ∉ a → k ∉ d →
              datapathEq (entries ms0 !! k) (entries (runStep st s).1 !! k).
Proof.
  destruct st as [ms ch]. cbn [fst snd]. intros Hs (a & d & Ha & Hd & Hall).
  assert (∀ k ch1 (ms1 : mapState), Adds ch1 = Some a → Deletes ch1 = Some d →
            (∀ k', k' ≠ k → entries ms1 !! k' = entries ms !! k') →
            ∃ a' d', Adds (recordAdd k ch1) = Some a' ∧
                     Deletes (recordAdd k ch1) = Some d' ∧
                     ∀ k', k' ∉ a' → k' ∉ d' →
                           datapathEq (entries ms0 !! k') (entries ms1 !! k')) as Hadd.
  { intros k ch1 ms1 Ha1 Hd1 Hne. unfold recordAdd. rewrite Ha1, Hd1.
    eexists _, _. split; [done|]. split; [done|]. cbn. intros k' Hka Hkd.
    assert (k' ≠ k) as Hn by set_solver. rewrite Hne by done.
    apply Hall; set_solver. }
  assert (∀ k ch1 (ms1 : mapState), Adds ch1 = Some a → Deletes ch1 = Some d →
            (∀ k', k' ≠ k → entries ms1 !! k' = entries ms !! k') →
            ∃ a' d', Adds (recordDelete k ch1) = Some a' ∧
                     Deletes (recordDelete k ch1) = Some d' ∧
                     ∀ k', k' ∉ a' → k' ∉ d' →
                           datapathEq (entries ms0 !! k') (entries ms1 !! k')) as Hdel.
  { intros k ch1 ms1 Ha1 Hd1 Hne. unfold recordDelete. rewrite Ha1, Hd1.
    eexists _, _. split; [done|]. split; [done|]. cbn. intros k' Hka Hkd.
    assert (k' ≠ k) as Hn by set_solver. rewrite Hne by done.
    apply Hall; set_solver. }
  assert (∀ k ch1 (ms1 : mapState), Adds ch1 = Some a → Deletes ch1 = Some d →
            (∀ k', k' ≠ k → entries ms1 !! k' = entries ms !! k') →
            datapathEq (entries ms !! k) (entries ms1 !! k) →
            ∃ a' d', Adds ch1 = Some a' ∧ Deletes ch1 = Some d' ∧
                     ∀ k', k' ∉ a' → k' ∉ d' →
                           datapathEq (entries ms0 !! k') (entries ms1 !! k')) as Hsame.
  { intros k ch1 ms1 Ha1 Hd1 Hne Hk. exists a, d. split; [done|]. split; [done|].
    intros k' Hka Hkd. destruct (decide (k' = k)) as [->|Hn].
    - eapply datapathEq_trans; [by apply Hall|done].
    - rewrite Hne by done. by apply Hall. }
  destruct s as [k e|k owner|k a0]; cbn [runStep fst snd]; [| |by destruct (Hs k a0)].
  - rewrite addKeyWithChanges_cases.
    destruct (entries ms !! k) as [oldEntry|] eqn:Hk.
    + case_bool_decide.
      * destruct (deepEqual e oldEntry); cbn [fst snd]; [by exists a, d|].
        destruct (insertOldIfNotExists_Adds k oldEntry ch) as [Ha1 Hd1].
        destruct (Equal (Exported oldEntry) (Exported e)) eqn:He.
        -- apply (Hsame k); [congruence..| |].
           ++ intros k' Hn. cbn. by rewrite lookup_insert_ne.
           ++ cbn. rewrite lookup_insert_eq, Hk. cbn. by apply Equal_merge_old.
        -- apply (Hadd k); [congruence..|].
           intros k' Hn. cbn. by rewrite lookup_insert_ne.
      * destruct (IsDeny (Exported e)); cbn [fst snd]; [|by exists a, d].
        apply (Hadd k); [done..|].
        intros k' Hn. by rewrite entries_upsert, lookup_insert_ne.
    + cbn [fst snd]. apply (Hadd k); [done..|].
      intros k' Hn. by rewrite entries_upsert, lookup_insert_ne.
  - rewrite deleteKeyWithChanges_cases.
    destruct (entries ms !! k) as [v|] eqn:Hk; [|by exists a, d].
    cbv zeta. destruct (insertOldIfNotExists_Adds k v ch) as [Ha1 Hd1].
    assert (∀ k', k' ≠ k → entries (delete_key k ms) !! k' = entries ms !! k') as Hne.
    { intros k' Hn. by rewrite entries_delete_key, lookup_delete_ne. }
    destruct owner as [o|]; [|apply (Hdel k); [congruence..|done]].
    case_bool_decide; [|by exists a, d].
    destruct (0 <? _)%nat; [|apply (Hdel k); [congruence..|done]].
    cbn [fst snd]. apply (Hsame k); [congruence..| |].
    + intros k' Hn. cbn. by rewrite lookup_insert_ne.
    + cbn. rewrite lookup_insert_eq, Hk. cbn. apply Equal_refl.
Qed.

(** X14: when no insertion of a batch propagates an auth type, every key at
    which the datapath could see a difference between the map state
    before and after the batch is recorded in [Adds] or in [Deletes]. *)
Theorem applyBatch_tracks_datapath (ops : list BatchOp) (changes : ChangeState)
    (ms ms' : mapState) (changes' : ChangeState) :
  is_Some (Adds changes) → is_Some (Deletes changes) →
  noAuthPropagation ops →
  applyBatch ops changes ms = Ok (ms', changes') →
  ∃ a d, Adds changes' = Some a ∧ Deletes changes' = Some d ∧
         ∀ k, k ∉ a → k ∉ d → datapathEq (Lookup ms k) (Lookup ms' k).
Proof.
  unfold Lookup. intros [a0 Ha0] [d0 Hd0] Hno (tr & Hrun & Htr)%applyBatch_trace.
  cut (∃ a d, Adds (ms', changes').2 = Some a ∧ Deletes (ms', changes').2 = Some d ∧
              ∀ k, k ∉ a → k ∉ d →
                   datapathEq (entries ms !! k) (entries (ms', changes').1 !! k));
    [done|].
  rewrite <- Hrun.
  apply (runSteps_ind
           (λ st, ∃ a d, Adds st.2 = Some a ∧ Deletes st.2 = Some d ∧
                         ∀ k, k ∉ a → k ∉ d →
                              datapathEq (entries ms !! k) (entries st.1 !! k))
           (batchStep ops)); [|done|].
  - intros st s Hs. apply runStep_tracks. intros k a ->.
    destruct Hs as (key & entry & features & Hin & Hf & Hd & Hh).
    specialize (Hno key entry features Hin Hf Hd). congruence.
  - exists a0, d0. split; [done|]. split; [done|]. intros k _ _. apply datapathEq_refl.
Qed.

(** *** Deleting the contribution of an owner *)

(** X15: [deleteKeyWithChanges] changes neither the map state nor the
    change state when the key is not in the map or the owner does not own
    its entry; when the owner is one of several owners the key stays, its
    entry losing only that owner, and neither [Adds] nor [Deletes] changes;
    when the owner is the only owner the key is deleted as by the nil
    owner. *)
Theorem deleteKeyWithChanges_owner (key : Key) (o : N)
    (changes : ChangeState) (ms : mapState) :
  let r := deleteKeyWithChanges key (Some o) changes ms in
  match Lookup ms key with
  | None => r = (ms, changes)
  | Some entry =>
      (Some o ∉ owners entry → r = (ms, changes)) ∧
      (Some o ∈ owners entry → owners entry ≠ {[Some o]} →
       Lookup r.1 key =
         Some (mkmapStateEntry (Exported entry) (priority entry)
                               (derivedFromRules entry)
                               (owners entry ∖ {[Some o]})) ∧
       trie r.1 = trie ms ∧
       (∀ k, k ≠ key → Lookup r.1 k = Lookup ms k) ∧
       Adds r.2 = Adds changes ∧ Deletes r.2 = Deletes changes) ∧
      (owners entry = {[Some o]} → r = deleteKeyWithChanges key None changes ms)
  end.
Proof.
  cbv zeta. unfold Lookup. rewrite !deleteKeyWithChanges_cases.
  destruct (entries ms !! key) as [entry|] eqn:Hk; [|done]. cbv zeta.
  split; [|split].
  - intros Ho. by rewrite bool_decide_eq_false_2.
  - intros Ho Hne. rewrite bool_decide_eq_true_2 by done.
    destruct (0 <? size _)%nat eqn:Hsz.
    + cbn [fst snd entries trie updateExisting].
      rewrite lookup_insert_eq. split; [done|]. split; [done|]. split.
      * intros k Hn. by rewrite lookup_insert_ne.
      * apply insertOldIfNotExists_Adds.
    + exfalso. apply Nat.ltb_ge, Nat.le_0_r, size_empty_inv in Hsz. rename Hsz into Hz.
      apply Hne. apply set_eq. intros x.
      rewrite elem_of_singleton. split; [|by intros ->].
      intros Hx. destruct (decide (x = Some o)) as [|Hxo]; [done|]. exfalso.
      apply (not_elem_of_empty (C:=gset MapStateOwner) x). rewrite <- Hz.
      apply elem_of_difference. split; [done|]. by apply not_elem_of_singleton.
  - intros Ho. rewrite bool_decide_eq_true_2 by set_solver.
    destruct (0 <? size _)%nat eqn:Hsz; [|done].
    exfalso. apply Nat.ltb_lt in Hsz. rewrite Ho in Hsz.
    rewrite (proj2 (size_empty_iff _)) in Hsz; [lia|]. set_solver.
Qed.

(** *** The auth type of the most specific covering key *)

#[local] Instance longerPrefix_trans : Transitive longerPrefix.
Proof. intros a b c. unfold longerPrefix. lia. Qed.

#[local] Instance longerPrefix_total : Total longerPrefix.
Proof. intros a b. unfold longerPrefix. lia. Qed.

Lemma StronglySorted_CoveringKeysWithSameID ms key :
  StronglySorted longerKey (CoveringKeysWithSameID ms key).
Proof.
  unfold CoveringKeysWithSameID, AncestorLongestPrefixFirstIterator.
  pose proof (StronglySorted_merge_sort longerPrefix
                (AncestorIterator (trie ms) (LPM key))) as Hs.
  induction Hs as [|p l Hs IH Hall]; [constructor|].
  rewrite bind_cons. cbn zeta.
  destruct (negb (PortProtoIsEqual (mkKey p.1 0) key)); [|done].
  unfold forID. case_decide; [|done].
  constructor; [done|].
  apply list.Forall_forall. intros k (q & Hk & Hq)%list_elem_of_bind.
  rewrite list.Forall_forall in Hall. specialize (Hall q Hq).
  cbn zeta in Hk. destruct (negb _); [|by apply elem_of_nil in Hk].
  apply elem_of_forID in Hk as [-> _]. done.
Qed.

Lemma coveringAuthType_most_specific ms newEntry ks c vc :
  StronglySorted longerKey ks →
  (∀ k v, k ∈ ks → entries ms !! k = Some v → IsDeny (Exported v) = false) →
  c ∈ ks → entries ms !! c = Some vc →
  HasAuth (Exported vc) = ExplicitAuthType →
  (∀ k v, k ∈ ks → k ≠ c → entries ms !! k = Some v →
          HasAuth (Exported v) = ExplicitAuthType →
          PrefixLength (LPM k) < PrefixLength (LPM c)) →
  coveringAuthType ms newEntry ks = Ok (setAuthType newEntry (AuthTy (Exported vc))).
Proof.
  intros Hs Hnd Hc Hvc Hex Hmost.
  induction Hs as [|k ks Hs IH Hall]; [by apply elem_of_nil in Hc|].
  cbn [coveringAuthType]. unfold forKey.
  destruct (decide (k = c)) as [->|Hne].
  - rewrite Hvc. rewrite (Hnd c vc); [|by left|done].
    by rewrite bool_decide_eq_true_2.
  - apply elem_of_cons in Hc as [->|Hc]; [done|].
    assert (coveringAuthType ms newEntry ks
            = Ok (setAuthType newEntry (AuthTy (Exported vc)))) as Hrest.
    { apply IH; [|done|].
      - intros k' v' Hin. apply Hnd. by right.
      - intros k' v' Hin. apply Hmost. by right. }
    destruct (entries ms !! k) as [v|] eqn:Hk; [|done].
    rewrite (Hnd k v); [|by left|done].
    case_bool_decide as Hh; [|done]. exfalso.
    assert (PrefixLength (LPM k) < PrefixLength (LPM c)) as Hlt
      by (apply (Hmost k v); [by left|done..]).
    rewrite list.Forall_forall in Hall. specialize (Hall c Hc).
    unfold longerKey in Hall. lia.
Qed.

Lemma coveringAuthType_none ms newEntry ks :
  (∀ k v, k ∈ ks → entries ms !! k = Some v →
          IsDeny (Exported v) = false ∧ HasAuth (Exported v) = DefaultAuthType) →
  coveringAuthType ms newEntry ks = Ok newEntry.
Proof.
  induction ks as [|k ks IH]; intros Hall; [done|].
  cbn [coveringAuthType]. unfold forKey.
  assert (coveringAuthType ms newEntry ks = Ok newEntry) as Hrest.
  { apply IH. intros k' v' Hin. apply Hall. by right. }
  destruct (entries ms !! k) as [v|] eqn:Hk; [|done].
  destruct (Hall k v) as [-> Hh]; [by left|done|].
  by rewrite bool_decide_eq_false_2 by congruence.
Qed.

(** X16: with the auth feature active, an allow entry with default auth
    type that is inserted at a new key which no deny entry covers gets the
    auth type of the most specific key of broader port/proto and the same
    identity that has an explicit auth type, its own [HasAuthType] staying
    default; without such a key it is inserted as it is. *)
Theorem auth_inherited (ms : mapState) (newKey : Key) (newEntry : mapStateEntry)
    (features : policyFeatures) (changes : ChangeState) :
  trie_consistent ms →
  contains features authRules = true →
  IsDeny (Exported newEntry) = false →
  HasAuth (Exported newEntry) = DefaultAuthType →
  (∀ dk dv, Lookup ms dk = Some dv → IsDeny (Exported dv) = true →
            isPrefixOf (LPM dk) (LPM newKey) = true →
            (Identity dk = Identity newKey ∨ Identity dk = 0) → False) →
  Lookup ms newKey = None →
  let covering := CoveringKeysWithSameID ms newKey in
  ∃ ms' changes',
    insertWithChanges newKey newEntry features changes ms = Ok (ms', changes') ∧
    (∀ c vc,
       c ∈ covering → Lookup ms c = Some vc →
       HasAuth (Exported vc) = ExplicitAuthType →
       (∀ k v, k ∈ covering → k ≠ c → Lookup ms k = Some v →
               HasAuth (Exported v) = ExplicitAuthType →
               PrefixLength (LPM k) < PrefixLength (LPM c)) →
       Lookup ms' newKey = Some (setAuthType newEntry (AuthTy (Exported vc))) ∧
       HasAuth (Exported (setAuthType newEntry (AuthTy (Exported vc))))
         = DefaultAuthType) ∧
    ((∀ k v, k ∈ covering → Lookup ms k = Some v →
             HasAuth (Exported v) = DefaultAuthType) →
     Lookup ms' newKey = Some newEntry).
Proof.
  intros Hc Hf Hallow Hdef Hnodeny Hnew covering. unfold Lookup in *.
  assert (coveredByDeny ms newKey newEntry (BroaderOrEqualKeys ms newKey) = false)
    as Hcov.
  { apply coveredByDeny_false. intros k v Hin Hk Hd. exfalso.
    apply elem_of_BroaderOrEqualKeys in Hin as (ids & _ & _ & Hp & Hid).
    apply (Hnodeny k v Hk Hd Hp). naive_solver. }
  assert (∀ k v, k ∈ covering → entries ms !! k = Some v →
                 IsDeny (Exported v) = false) as Hnd.
  { intros k v Hin Hk. destruct (IsDeny (Exported v)) eqn:Hd; [|done]. exfalso.
    apply elem_of_CoveringKeysWithSameID in Hin as (ids & _ & _ & Hp & _ & Hid).
    apply (Hnodeny k v Hk Hd Hp). by left. }
  unfold insertWithChanges, denyPreferredInsertWithChanges.
  rewrite Hcov, Hallow, Hf. unfold authPreferredInsert.
  rewrite bool_decide_eq_true_2 by done. fold covering.
  destruct (coveringAuthType_ok ms newEntry covering Hnd) as (e' & He' & _).
  rewrite He'. rewrite addKeyWithChanges_cases, Hnew.
  eexists _, _. split; [done|]. rewrite entries_upsert, lookup_insert_eq. split.
  - intros c vc Hin Hvc Hex Hmost.
    rewrite (coveringAuthType_most_specific ms newEntry covering c vc) in He';
      [|apply StronglySorted_CoveringKeysWithSameID|done..].
    injection He' as <-. split; [done|]. by destruct newEntry as [[]].
  - intros Hall. rewrite coveringAuthType_none in He'; [by injection He' as <-|].
    intros k v Hin Hk. split; [by eapply Hnd|by eapply Hall].
Qed.

Lemma stateA_consistent : trie_consistent stateA.
Proof. apply upsert_consistent, trie_consistent_new. Qed.

Lemma stateAD_consistent : trie_consistent stateAD.
Proof. apply upsert_consistent, stateA_consistent. Qed.

Lemma delete_upsert_round_trip_witness :
  Lookup (delete_key keyA stateA) keyA = None ∧
  upsert keyA allowEntry (delete_key keyA stateA) = stateA.
Proof.
  pose proof (delete_upsert_round_trip keyA stateA stateA_consistent) as H.
  assert (Lookup stateA keyA = Some allowEntry) as E by (vm_compute; reflexivity).
  rewrite E in H. destruct H as (H1 & _ & H3). split; [exact H1|exact H3].
Defined.

Lemma stateAL_consistent : trie_consistent stateAL.
Proof. apply upsert_consistent, stateA_consistent. Qed.

Lemma stateAL_valid k : is_Some (Lookup stateAL k) → validLPMKey (LPM k).
Proof.
  unfold Lookup, stateAL, stateA. rewrite !entries_upsert. intros [v Hv].
  destruct (decide (keyL3 = k)) as [<-|Hne1]; [vm_compute; split; [reflexivity|]; split; [reflexivity|discriminate]|].
  rewrite lookup_insert_ne in Hv by done.
  destruct (decide (keyA = k)) as [<-|Hne2]; [vm_compute; split; [reflexivity|]; split; [reflexivity|discriminate]|].
  rewrite lookup_insert_ne in Hv by done. cbn [newMapState entries] in Hv.
  rewrite lookup_empty in Hv. discriminate Hv.
Qed.

(** The L3-only key is visited for a key of TCP, and the other way
    round. *)
Lemma BroaderOrEqualKeys_exact_witness : keyL3 ∈ BroaderOrEqualKeys stateAL keyA.
Proof.
  apply (BroaderOrEqualKeys_exact stateAL keyA stateAL_consistent).
  - vm_compute. split; [reflexivity|]. split; [reflexivity|discriminate].
  - exact stateAL_valid.
  - split; [exists denyEntry; vm_compute; reflexivity|].
    split; [|right; reflexivity].
    split; [reflexivity|left; reflexivity].
Defined.

Lemma NarrowerOrEqualKeys_exact_witness : keyA ∈ NarrowerOrEqualKeys stateAL keyL3.
Proof.
  apply (NarrowerOrEqualKeys_exact stateAL keyL3 stateAL_consistent).
  - vm_compute. split; [reflexivity|]. split; [reflexivity|discriminate].
  - exact stateAL_valid.
  - split; [exists allowEntry; vm_compute; reflexivity|].
    split; [|right; reflexivity].
    split; [reflexivity|left; reflexivity].
Defined.

Lemma merge_order_witness :
  let a := newMapStateEntry None [] 8080 "L1" 0 false DefaultAuthType 0 in
  let b := newMapStateEntry None [] 9090 "L2" 0 false ExplicitAuthType 2 in
  ProxyPort (Exported (merge a b)) = ProxyPort (Exported (merge b a)) ∧
  AuthTy (Exported (merge a b)) = AuthTy (Exported (merge b a)).
Proof.
  intros a b.
  destruct (merge_order a b) as (H1 & _ & _ & H4 & _); [reflexivity..|].
  split; [exact H1|]. apply H4. right. reflexivity.
Defined.

Lemma redirect_wf_kept_witness :
  ∃ ms' changes',
    applyBatch [BatchInsert keyA redirectEntry allFeatures;
                BatchInsert keyA allowEntry allFeatures]
               newChangeState newMapState = Ok (ms', changes') ∧
    ∀ k v, Lookup ms' k = Some v → redirect_wf v.
Proof.
  assert (∃ r, applyBatch [BatchInsert keyA redirectEntry allFeatures;
                           BatchInsert keyA allowEntry allFeatures]
                          newChangeState newMapState = Ok r) as [[ms' ch'] E]
    by (eexists; vm_compute; reflexivity).
  exists ms', ch'. split; [exact E|].
  apply (redirect_wf_kept [BatchInsert keyA redirectEntry allFeatures;
                           BatchInsert keyA allowEntry allFeatures]
                          newChangeState newMapState ms' ch'); [| |exact E].
  - repeat constructor. discriminate.
  - intros k v Hk. unfold Lookup, newMapState in Hk. cbn [entries] in Hk.
    rewrite lookup_empty in Hk. discriminate Hk.
Defined.

Lemma applyBatch_changes_sound_witness :
  ∃ ms' changes' a d,
    applyBatch [BatchInsert keyD denyEntry allFeatures; BatchDelete keyD None]
               newChangeState stateA = Ok (ms', changes') ∧
    Adds changes' = Some a ∧ Deletes changes' = Some d ∧
    (∀ k, k ∈ a → is_Some (Get ms' k)) ∧
    (∀ k, k ∈ d → Get ms' k = None) ∧
    a ## d.
Proof.
  assert (∃ r, applyBatch [BatchInsert keyD denyEntry allFeatures;
                           BatchDelete keyD None]
                          newChangeState stateA = Ok r) as [[ms' ch'] E]
    by (eexists; vm_compute; reflexivity).
  exists ms', ch'.
  destruct (applyBatch_changes_sound
              [BatchInsert keyD denyEntry allFeatures; BatchDelete keyD None]
              newChangeState stateA ms' ch') as (a & d & H); [|exact E|].
  - exists ∅, ∅. split; [reflexivity|]. split; [reflexivity|].
    split; intros k Hk; apply not_elem_of_empty in Hk; destruct Hk.
  - exists a, d. split; [exact E|exact H].
Defined.

(** An L3-only deny entry for ingress leaves the egress key as it is. *)
Lemma insertWithChanges_frame_witness :
  ∃ ms' changes',
    insertWithChanges keyL3 denyEntry allFeatures newChangeState
                      (upsert EgressKey allowEntry stateA) = Ok (ms', changes') ∧
    Lookup ms' EgressKey = Lookup (upsert EgressKey allowEntry stateA) EgressKey.
Proof.
  assert (∃ r, insertWithChanges keyL3 denyEntry allFeatures newChangeState
                 (upsert EgressKey allowEntry stateA) = Ok r) as [[ms' ch'] E]
    by (eexists; vm_compute; reflexivity).
  exists ms', ch'. split; [exact E|].
  apply (insertWithChanges_frame keyL3 denyEntry allFeatures newChangeState
           (upsert EgressKey allowEntry stateA) ms' ch' EgressKey E).
  intros [Hp _]. vm_compute in Hp. discriminate Hp.
Defined.

Lemma insertWithChanges_allow_keeps_witness :
  ∃ ms' changes',
    insertWithChanges keyA2 explicitEntry allFeatures newChangeState stateA
      = Ok (ms', changes') ∧
    (∀ k, is_Some (Lookup stateA k) → is_Some (Lookup ms' k)) ∧
    (∀ k v, Lookup stateA k = Some v → IsDeny (Exported v) = true →
            Lookup ms' k = Some v).
Proof.
  assert (∃ r, insertWithChanges keyA2 explicitEntry allFeatures newChangeState
                 stateA = Ok r) as [[ms' ch'] E]
    by (eexists; vm_compute; reflexivity).
  exists ms', ch'. split; [exact E|].
  apply (insertWithChanges_allow_keeps keyA2 explicitEntry allFeatures
           newChangeState stateA ms' ch'); [reflexivity|exact E].
Defined.

Lemma applyBatch_tracks_datapath_witness :
  ∃ ms' changes' a d,
    applyBatch [BatchInsert keyD denyEntry allFeatures;
                BatchInsert keyA2 allowEntry allFeatures]
               newChangeState stateA = Ok (ms', changes') ∧
    Adds changes' = Some a ∧ Deletes changes' = Some d ∧
    ∀ k, k ∉ a → k ∉ d → datapathEq (Lookup stateA k) (Lookup ms' k).
Proof.
  assert (∃ r, applyBatch [BatchInsert keyD denyEntry allFeatures;
                           BatchInsert keyA2 allowEntry allFeatures]
                          newChangeState stateA = Ok r) as [[ms' ch'] E]
    by (eexists; vm_compute; reflexivity).
  exists ms', ch'.
  destruct (applyBatch_tracks_datapath
              [BatchInsert keyD denyEntry allFeatures;
               BatchInsert keyA2 allowEntry allFeatures]
              newChangeState stateA ms' ch') as (a & d & H); [..|exact E|].
  - by exists ∅.
  - by exists ∅.
  - intros key entry features Hin _ _.
    apply elem_of_cons in Hin as [Hin|Hin]; [by injection Hin as _ -> _|].
    apply elem_of_cons in Hin as [Hin|Hin]; [by injection Hin as _ -> _|].
    apply elem_of_nil in Hin. destruct Hin.
  - exists a, d. split; [exact E|exact H].
Defined.

(** The auth type is inherited from an L3-only key. *)
Lemma auth_inherited_witness :
  ∃ ms' changes',
    insertWithChanges keyA allowEntry allFeatures newChangeState
                      (upsert keyL3 explicitEntry newMapState) = Ok (ms', changes') ∧
    Lookup ms' keyA = Some (setAuthType allowEntry 2).
Proof.
  destruct (auth_inherited (upsert keyL3 explicitEntry newMapState) keyA allowEntry
              allFeatures newChangeState) as (ms' & ch' & E & H & _).
  - apply upsert_consistent, trie_consistent_new.
  - reflexivity.
  - reflexivity.
  - reflexivity.
  - intros dk dv Hd Hdeny _ _. unfold Lookup in Hd. rewrite entries_upsert in Hd.
    destruct (decide (keyL3 = dk)) as [<-|Hne].
    + rewrite lookup_insert_eq in Hd. injection Hd as <-. discriminate Hdeny.
    + rewrite lookup_insert_ne in Hd by done. discriminate Hd.
  - reflexivity.
  - exists ms', ch'. split; [exact E|].
    apply (H keyL3 explicitEntry).
    + vm_compute. apply elem_of_cons. left. reflexivity.
    + reflexivity.
    + reflexivity.
    + intros k v Hin Hne. vm_compute in Hin.
      apply elem_of_cons in Hin as [Hin|Hin]; [destruct (Hne Hin)|].
      apply elem_of_nil in Hin. destruct Hin.
Defined.

(** *** Proxy identifiers *)

Lemma Split_nonempty s sep : Split s sep ≠ [].
Proof.
  induction s as [|c s IH]; simpl; [done|].
  destruct (Ascii.eqb c sep); [done|]. by destruct (Split s sep).
Qed.

Lemma Split_no_sep s sep : Contains s sep = false → Split s sep = [s].
Proof.
  induction s as [|c s IH]; simpl; [done|].
  intros [Hc Hs]%orb_false_iff. rewrite Hc, IH by done. done.
Qed.

Lemma Split_append s rest sep :
  Contains s sep = false →
  Split (s +:+ String sep rest) sep = s :: Split rest sep.
Proof.
  induction s as [|c s IH]; simpl.
  - intros _. by rewrite Ascii.eqb_refl.
  - intros [Hc Hs]%orb_false_iff. rewrite Hc, IH by done. done.
Qed.

Lemma Split_length_append s rest sep :
  length (Split (s +:+ String sep rest) sep)
  = (length (Split s sep) + length (Split rest sep))%nat.
Proof.
  induction s as [|c s IH]; simpl.
  - by rewrite Ascii.eqb_refl.
  - destruct (Ascii.eqb c sep); simpl; [by rewrite IH|].
    pose proof (Split_nonempty (s +:+ String sep rest) sep) as H1.
    pose proof (Split_nonempty s sep) as H2.
    destruct (Split (s +:+ String sep rest) sep), (Split s sep);
      try done; simpl in *; lia.
Qed.

Lemma Split_length_Contains s sep :
  Contains s sep = true → (2 ≤ length (Split s sep))%nat.
Proof.
  induction s as [|c s IH]; simpl; [done|].
  pose proof (Split_nonempty s sep) as Hne.
  destruct (Ascii.eqb c sep); simpl.
  - intros _. destruct (Split s sep); [done|simpl; lia].
  - intros Hs%IH. destruct (Split s sep); simpl in *; lia.
Qed.

Lemma Contains_cons ch s c :
  Contains (String ch s) c = Ascii.eqb ch c || Contains s c.
Proof. reflexivity. Qed.

Lemma Contains_digits d c :
  (∀ x, x ∈ ["0";"1";"2";"3";"4";"5";"6";"7";"8";"9"]%char → x ≠ c) →
  Contains (DecimalString.NilEmpty.string_of_uint d) c = false.
Proof.
  intros Hc.
  induction d; simpl (DecimalString.NilEmpty.string_of_uint _); [done|..];
    rewrite Contains_cons, IHd, orb_false_r; apply Ascii.eqb_neq, Hc;
    repeat first [apply list_elem_of_here | apply list_elem_of_further].
Qed.

Lemma Contains_formatUint n : Contains (formatUint n) ":"%char = false.
Proof.
  unfold formatUint, DecimalString.NilZero.string_of_uint.
  assert (∀ d, Contains (DecimalString.NilEmpty.string_of_uint d) ":"%char = false) as H.
  { intros d. apply Contains_digits. intros x Hx.
    repeat (apply elem_of_cons in Hx as [->|Hx]; [done|]).
    by apply elem_of_nil in Hx. }
  destruct (N.to_uint n); try apply H. done.
Qed.

Lemma ParseUint16_formatUint n : n ≤ 65535 → ParseUint16 (formatUint n) = inl n.
Proof.
  intros Hn. unfold ParseUint16, formatUint.
  rewrite DecimalString.NilZero.usu.
  - rewrite DecimalN.Unsigned.of_to.
    destruct (N.leb_spec n 65535); [done|lia].
  - destruct n as [|p]; [done|]. apply DecimalPos.Unsigned.to_uint_nonnil.
Qed.

Lemma append_colon x : ":" +:+ x = String ":"%char x.
Proof. reflexivity. Qed.

Lemma Split_ProxyID endpointID ingress protocol port listener :
  Contains protocol ":"%char = false → Contains listener ":"%char = false →
  Split (ProxyID endpointID ingress protocol port listener) ":"%char =
  [formatUint endpointID; if ingress then "ingress" else "egress"; protocol;
   formatUint port; listener].
Proof.
  intros Hp Hl. unfold ProxyID. cbv zeta. rewrite !append_colon.
  rewrite Split_append by apply Contains_formatUint.
  rewrite Split_append by by destruct ingress.
  rewrite Split_append by done.
  rewrite Split_append by apply Contains_formatUint.
  by rewrite Split_no_sep.
Qed.

Lemma ParseProxyID_ProxyID_ok endpointID ingress protocol port listener :
  endpointID ≤ 65535 → port ≤ 65535 →
  Contains protocol ":"%char = false → Contains listener ":"%char = false →
  ParseProxyID (ProxyID endpointID ingress protocol port listener)
  = (endpointID, ingress, protocol, port, listener, None).
Proof.
  intros He Hpo Hp Hl. unfold ParseProxyID. rewrite Split_ProxyID by done.
  rewrite !ParseUint16_formatUint by done. cbv zeta. by destruct ingress.
Qed.

(** X17: [ParseProxyID] returns the components from which [ProxyID] made
    the identifier, and no error, when the endpoint ID and the port are
    16-bit numbers and neither the protocol nor the listener contains a
    colon; the key of the proxy statistics made from the parsed
    components is then the key made from the original ones. *)
Theorem ParseProxyID_ProxyID (endpointID : N) (ingress : bool) (protocol : string)
    (port : N) (listener : string) (proxyPort : N) :
  endpointID ≤ 65535 → port ≤ 65535 →
  Contains protocol ":"%char = false → Contains listener ":"%char = false →
  ParseProxyID (ProxyID endpointID ingress protocol port listener)
  = (endpointID, ingress, protocol, port, listener, None) ∧
  (let '(_, ingress', protocol', port', _, _) :=
     ParseProxyID (ProxyID endpointID ingress protocol port listener) in
   ProxyStatsKey ingress' protocol' port' proxyPort
   = ProxyStatsKey ingress protocol port proxyPort).
Proof.
  intros He Hpo Hp Hl. by rewrite ParseProxyID_ProxyID_ok.
Qed.

(** X18: [ProxyID] identifies a proxy mapping uniquely: for 16-bit
    endpoint IDs and ports and protocols and listeners without a colon,
    equal identifiers are made from equal components. *)
Theorem ProxyID_unique (endpointID endpointID' : N) (ingress ingress' : bool)
    (protocol protocol' : string) (port port' : N) (listener listener' : string) :
  endpointID ≤ 65535 → port ≤ 65535 → endpointID' ≤ 65535 → port' ≤ 65535 →
  Contains protocol ":"%char = false → Contains listener ":"%char = false →
  Contains protocol' ":"%char = false → Contains listener' ":"%char = false →
  ProxyID endpointID ingress protocol port listener
  = ProxyID endpointID' ingress' protocol' port' listener' →
  endpointID = endpointID' ∧ ingress = ingress' ∧ protocol = protocol' ∧
  port = port' ∧ listener = listener'.
Proof.
  intros He Hpo He' Hpo' Hp Hl Hp' Hl' Heq.
  pose proof (ParseProxyID_ProxyID_ok endpointID ingress protocol port listener
                He Hpo Hp Hl) as H1.
  pose proof (ParseProxyID_ProxyID_ok endpointID' ingress' protocol' port' listener'
                He' Hpo' Hp' Hl') as H2.
  rewrite Heq, H2 in H1. by injection H1 as -> -> -> -> ->.
Qed.

(** X19: an identifier that [ProxyID] makes with a protocol or a listener
    that contains a colon is refused by [ParseProxyID]: the error says that
    the structure is invalid and all other results are zero. *)
Theorem ParseProxyID_colon (endpointID : N) (ingress : bool) (protocol : string)
    (port : N) (listener : string) :
  Contains protocol ":"%char = true ∨ Contains listener ":"%char = true →
  let proxyID := ProxyID endpointID ingress protocol port listener in
  ParseProxyID proxyID
  = (0, false, EmptyString, 0, EmptyString, Some (InvalidProxyIDStructure proxyID)).
Proof.
  intros Hc proxyID. unfold ParseProxyID.
  assert (6 ≤ length (Split proxyID ":"%char))%nat as Hlen.
  { unfold proxyID, ProxyID. cbv zeta. rewrite !append_colon.
    rewrite !Split_length_append.
    pose proof (Split_nonempty (formatUint endpointID) ":"%char) as H1.
    pose proof (Split_nonempty (if ingress then "ingress" else "egress") ":"%char) as H2.
    pose proof (Split_nonempty protocol ":"%char) as H3.
    pose proof (Split_nonempty (formatUint port) ":"%char) as H4.
    pose proof (Split_nonempty listener ":"%char) as H5.
    assert (∀ l : list string, l ≠ [] → (1 ≤ length l)%nat) as Hpos
      by (intros [|? ?]; [done|cbn; lia]).
    apply Hpos in H1, H2, H3, H4, H5.
    destruct Hc as [Hc%Split_length_Contains | Hc%Split_length_Contains]; lia. }
  destruct (Split proxyID ":"%char) as [|c0 [|c1 [|c2 [|c3 [|c4 [|c5 l]]]]]];
    cbn in Hlen; try done; lia.
Qed.

(** *** The queue of incremental changes *)

Section MapChangesQueueProofs.
Variable u8protoString : N → string.

Lemma consumeSynced_applyBatch p features l ch ms :
  consumeSynced u8protoString p features l ch ms
  = applyBatch (syncedOps u8protoString p features l) ch ms.
Proof.
  revert ch ms. induction l as [|c l IH]; intros ch ms; [done|].
  unfold syncedOps. rewrite bind_cons. fold (syncedOps u8protoString p features l).
  cbn [consumeSynced]. destruct (mcAdd c).
  - destruct (realizedEntry u8protoString p (mcKey c) (mcValue c)) as [entry|];
      [|apply IH].
    cbn [app applyBatch].
    destruct (insertWithChanges (mcKey c) entry features ch ms) as [[ms' ch']|];
      [apply IH|done].
  - cbn [app applyBatch].
    destruct (deleteKeyWithChanges _ _ ch ms) as [ms' ch']. apply IH.
Qed.


Lemma realizedEntry_port p key entry entry' :
  realizedEntry u8protoString p key entry = Some entry' →
  (∀ id port, Redirects p !! id = Some port → port ≠ unrealizedRedirectPort) →
  ProxyPort (Exported entry') ≠ unrealizedRedirectPort.
Proof.
  unfold realizedEntry. intros He Hr.
  destruct (N.eqb_spec (ProxyPort (Exported entry)) unrealizedRedirectPort) as [Hu|Hu].
  - destruct (Redirects p !! _) as [port|] eqn:Hp; [|done].
    injection He as <-. cbn. by eapply Hr.
  - by injection He as <-.
Qed.

(** X21: the port of an unrealized redirect (65535) does not reach the
    policy map: when no redirect of the endpoint policy has it as proxy
    port and no entry of the policy map state has it, no entry of the
    policy map state has it after [consumeMapChanges]. *)
Theorem consumeMapChanges_realized (mc mc' : MapChanges) (p p' : EndpointPolicy)
    (features : policyFeatures) (v : option N) (changes' : ChangeState) :
  (∀ id port, Redirects p !! id = Some port → port ≠ unrealizedRedirectPort) →
  (∀ k e, Lookup (policyMapState p) k = Some e →
          ProxyPort (Exported e) ≠ unrealizedRedirectPort) →
  consumeMapChanges u8protoString mc p features = Ok (mc', p', (v, changes')) →
  ∀ k e, Lookup (policyMapState p') k = Some e →
         ProxyPort (Exported e) ≠ unrealizedRedirectPort.
Proof.
  unfold Lookup, consumeMapChanges. intros Hr Hms.
  rewrite consumeSynced_applyBatch.
  destruct (applyBatch _ _ _) as [[ms' ch']|] eqn:Hb; [|done].
  intros [= <- <- <- <-]. cbn [policyMapState].
  assert (Forall (λ e, ProxyPort (Exported e) ≠ unrealizedRedirectPort)
                 (batchEntries (syncedOps u8protoString p features (synced mc))))
    as Hops.
  { apply list.Forall_forall. intros e He.
    unfold batchEntries, syncedOps in He.
    apply list_elem_of_bind in He as (op & He & Hop).
    apply list_elem_of_bind in Hop as (c & Hop & Hc).
    destruct (mcAdd c).
    - destruct (realizedEntry u8protoString p (mcKey c) (mcValue c)) as [entry|] eqn:Hre;
        [|by apply elem_of_nil in Hop].
      apply list_elem_of_singleton in Hop as ->.
      apply list_elem_of_singleton in He as ->. by eapply realizedEntry_port.
    - apply list_elem_of_singleton in Hop as ->. by apply elem_of_nil in He. }
  apply (applyBatch_entries_closed
           (λ e, ProxyPort (Exported e) ≠ unrealizedRedirectPort)) with
    (ops := syncedOps u8protoString p features (synced mc))
    (ch := newChangeState) (ms := policyMapState p) (ch' := ch'); try done.
  intros e entry _ He Hentry.
  by destruct (merge_datapath e entry) as [[-> | ->] _].
Qed.
Variable Tx : Type.
Variable After : Tx → N → bool.
Variable GetVersionHandle : Tx → N.

Lemma syncedOps_app p features l1 l2 :
  syncedOps u8protoString p features (l1 ++ l2)
  = syncedOps u8protoString p features l1 ++ syncedOps u8protoString p features l2.
Proof. unfold syncedOps. apply bind_app. Qed.

Lemma syncedOps_keys p features add id keys value :
  ProxyPort (Exported value) ≠ unrealizedRedirectPort →
  syncedOps u8protoString p features
    ((λ k, mkmapChange add (WithIdentity k id) value) <$> keys)
  = (λ k, if add then BatchInsert (WithIdentity k id) value features
          else BatchDelete (WithIdentity k id) (ownersGet (owners value))) <$> keys.
Proof.
  intros Hv. induction keys as [|k keys IHk]; [done|].
  rewrite !fmap_cons. unfold syncedOps in *. rewrite bind_cons, IHk.
  cbn [mcAdd mcKey mcValue]. destruct add; [|done]. unfold realizedEntry.
  by destruct (N.eqb_spec (ProxyPort (Exported value)) unrealizedRedirectPort).
Qed.

Lemma syncedOps_identities p features add ids keys value :
  ProxyPort (Exported value) ≠ unrealizedRedirectPort →
  syncedOps u8protoString p features
    (ids ≫= λ id, (λ k, mkmapChange add (WithIdentity k id) value) <$> keys)
  = ids ≫= λ id, (λ k, if add then BatchInsert (WithIdentity k id) value features
                       else BatchDelete (WithIdentity k id)
                                        (ownersGet (owners value))) <$> keys.
Proof.
  intros Hv. induction ids as [|id ids IH]; [done|].
  by rewrite !bind_cons, syncedOps_app, IH, syncedOps_keys.
Qed.

(** X22: on an empty queue, identities accumulated with
    [AccumulateMapChanges] for a value that is not an unrealized redirect
    (its proxy port is not 65535) and synced with [SyncMapChanges] by a
    transaction after the first version are applied by
    [consumeMapChanges] as one batch into a new change state: for every
    added identity and key an insertion of the value, then for every
    deleted identity and key a deletion on behalf of the owner of the
    value; the handle of the transaction is returned.  When the
    transaction is not after the first version nothing is applied. *)
Theorem accumulate_sync_consume (mc : MapChanges) (txn : Tx) (adds deletes : list N)
    (keys : list Key) (value : mapStateEntry) (p : EndpointPolicy)
    (features : policyFeatures) :
  pending mc = [] → synced mc = [] →
  ProxyPort (Exported value) ≠ unrealizedRedirectPort →
  let ops := identityOps adds deletes keys value features in
  let mc' := SyncMapChanges Tx After GetVersionHandle txn
               (AccumulateMapChanges adds deletes keys value mc) in
  pending mc' = [] ∧
  if After txn (firstVersion mc) && negb (bool_decide (ops = [])) then
    consumeMapChanges u8protoString mc' p features
    = match applyBatch ops newChangeState (policyMapState p) with
      | Ok (ms', changes') =>
          Ok (mkMapChanges (firstVersion mc) [] [] None,
              mkEndpointPolicy (policyOwnerID p) (Redirects p) ms',
              (Some (GetVersionHandle txn), changes'))
      | Panic msg => Panic msg
      end
  else
    consumeMapChanges u8protoString mc' p features
    = Ok (mkMapChanges (firstVersion mc) [] [] None, p, (version mc, newChangeState)).
Proof.
  intros Hp Hs Hv ops mc'.
  set (l := (adds ≫= λ id, (λ k, mkmapChange true (WithIdentity k id) value) <$> keys)
            ++ (deletes ≫= λ id,
                  (λ k, mkmapChange false (WithIdentity k id) value) <$> keys)).
  assert (pending (AccumulateMapChanges adds deletes keys value mc) = l) as Hl.
  { unfold AccumulateMapChanges. cbn [pending]. by rewrite Hp. }
  assert (syncedOps u8protoString p features l = ops) as Hops.
  { unfold l, ops, identityOps. rewrite syncedOps_app.
    by rewrite !syncedOps_identities. }
  assert (length l = length ops) as Hlen.
  { unfold l, ops, identityOps. rewrite !length_app. f_equal.
    - clear. induction adds as [|id adds IH]; [done|].
      rewrite !bind_cons, !length_app, IH. by rewrite !length_fmap.
    - clear. induction deletes as [|id deletes IH]; [done|].
      rewrite !bind_cons, !length_app, IH. by rewrite !length_fmap. }
  unfold mc', SyncMapChanges. rewrite Hl.
  cbn [AccumulateMapChanges firstVersion synced version]. rewrite Hs.
  destruct p as [pid red ms].
  destruct (0 <? length l)%nat eqn:Hpos.
  - assert (ops ≠ []) as Hne.
    { intros Hnil. rewrite Hnil in Hlen. apply Nat.ltb_lt in Hpos.
      cbn in Hlen. lia. }
    rewrite (bool_decide_eq_false_2 _ Hne). cbn [negb]. rewrite andb_true_r.
    destruct (After txn (firstVersion mc)); cbn [pending]; (split; [done|]).
    + unfold consumeMapChanges. cbn [synced app firstVersion pending version].
      by rewrite consumeSynced_applyBatch, Hops.
    + done.
  - assert (ops = []) as Hnil.
    { apply Nat.ltb_ge in Hpos. apply length_zero_iff_nil. lia. }
    rewrite (bool_decide_eq_true_2 _ Hnil). cbn [negb]. rewrite andb_false_r.
    cbn [pending]. done.
Qed.
End MapChangesQueueProofs.

(** *** Incremental updates of the external policy map *)

Section IncrementalUpdateProofs.
Variable policyMapErr : list PolicyMapOp → PolicyMapOp → option PolicyMapError.
Variable rangeKeys : gset Key → list Key.
Hypothesis rangeKeys_perm : ∀ s, rangeKeys s ≡ₚ elements s.

Lemma elem_of_rangeKeys s k : k ∈ rangeKeys s ↔ k ∈ s.
Proof. by rewrite rangeKeys_perm, elem_of_elements. Qed.

Lemma NoDup_rangeKeys s : NoDup (rangeKeys s).
Proof. rewrite rangeKeys_perm. apply NoDup_elements. Qed.

(** The steps of the two loops: the operations issued, the number of
    errors, and the realized map of the endpoint. *)
Lemma applyAdd_step e st k :
  let st' := applyAdd policyMapErr e st k in
  let r := realizedMapStateMap e in
  match Get (desiredPolicy e) k with
  | Some entry =>
      let op := policyMapWrite k entry in
      let err := policyMapErr (policyMapOps st.1) op in
      policyMapOps st'.1 = policyMapOps st.1 ++ [op] ∧
      st'.2 = (st.2 + if opFailed op err then 1 else 0)%nat ∧
      ∀ r', store st'.1 r' =
            (if opFailed op err then store st.1
             else <[r := <[k := entry]> (store st.1 r)]> (store st.1)) r'
  | None => st' = st
  end.
Proof.
  cbv zeta. unfold applyAdd. destruct (Get (desiredPolicy e) k) as [entry|]; [|done].
  unfold addPolicyKey, issue.
  assert (opFailed (policyMapWrite k entry)
            (policyMapErr (policyMapOps st.1) (policyMapWrite k entry))
          = bool_decide (is_Some (policyMapErr (policyMapOps st.1)
                                    (policyMapWrite k entry)))) as ->.
  { destruct (policyMapErr _ _) as [[|]|]; unfold policyMapWrite;
      by destruct (IsDeny entry). }
  destruct (policyMapErr (policyMapOps st.1) (policyMapWrite k entry)) as [err|];
    cbn [fst snd policyMapOps store writeMap].
  - rewrite bool_decide_eq_true_2 by eauto. split; [done|]. split; [lia|done].
  - rewrite bool_decide_eq_false_2 by (by intros [? ?]). split; [done|].
    split; [lia|done].
Qed.

Lemma applyDelete_step e st k :
  let st' := applyDelete policyMapErr e st k in
  let r := realizedMapStateMap e in
  let op := DeleteKey k in
  let err := policyMapErr (policyMapOps st.1) op in
  policyMapOps st'.1 = policyMapOps st.1 ++ [op] ∧
  st'.2 = (st.2 + if opFailed op err then 1 else 0)%nat ∧
  ∀ r', store st'.1 r' =
        (if opFailed op err then store st.1
         else <[r := delete k (store st.1 r)]> (store st.1)) r'.
Proof.
  cbv zeta. unfold applyDelete, deletePolicyKey, issue.
  assert (∀ ops,
    let x := match store st.1 (realizedMapStateMap e) !! k with
             | Some _ => (true, deleteMap (realizedMapStateMap e) k
                                  (mkWorld (store st.1) ops))
             | None => (true, mkWorld (store st.1) ops)
             end in
    x.1 = true ∧ policyMapOps x.2 = ops ∧
    ∀ r', store x.2 r' =
          <[realizedMapStateMap e := delete k (store st.1 (realizedMapStateMap e))]>
            (store st.1) r') as Hok.
  { intros ops. cbv zeta.
    destruct (store st.1 (realizedMapStateMap e) !! k) eqn:Hk;
      cbn [fst snd deleteMap store policyMapOps]; [done|].
    split; [done|]. split; [done|]. intros r'.
    rewrite delete_id by done.
    destruct (decide (realizedMapStateMap e = r')) as [<-|Hne];
      [by rewrite fn_lookup_insert|by rewrite fn_lookup_insert_ne]. }
  destruct (policyMapErr (policyMapOps st.1) (DeleteKey k)) as [[|]|];
    cbn [opFailed].
  - specialize (Hok (policyMapOps st.1 ++ [DeleteKey k])). cbv zeta in Hok.
    destruct Hok as (H1 & H2 & H3). cbn [store policyMapOps] in *.
    destruct (match store st.1 (realizedMapStateMap e) !! k with
              | Some _ => _ | None => _ end) as [ok w'].
    cbn [fst snd] in *. subst ok. split; [done|]. split; [lia|done].
  - cbn [fst snd policyMapOps store]. split; [done|]. split; [lia|done].
  - specialize (Hok (policyMapOps st.1 ++ [DeleteKey k])). cbv zeta in Hok.
    destruct Hok as (H1 & H2 & H3). cbn [store policyMapOps] in *.
    destruct (match store st.1 (realizedMapStateMap e) !! k with
              | Some _ => _ | None => _ end) as [ok w'].
    cbn [fst snd] in *. subst ok. split; [done|]. split; [lia|done].
Qed.

Lemma failedOps_app hist ops1 ops2 :
  failedOps policyMapErr hist (ops1 ++ ops2)
  = (failedOps policyMapErr hist ops1 + failedOps policyMapErr (hist ++ ops1) ops2)%nat.
Proof.
  revert hist. induction ops1 as [|op ops1 IH]; intros hist; cbn [app failedOps].
  - by rewrite app_nil_r.
  - rewrite IH, <- app_assoc. cbn [app]. lia.
Qed.

(** The writes of the first loop. *)
Lemma foldl_applyAdd e l st :
  let st' := foldl (applyAdd policyMapErr e) st l in
  let r := realizedMapStateMap e in
  let writes := omap (λ k, policyMapWrite k <$> Get (desiredPolicy e) k) l in
  policyMapOps st'.1 = policyMapOps st.1 ++ writes ∧
  st'.2 = (st.2 + failedOps policyMapErr (policyMapOps st.1) writes)%nat ∧
  (failedOps policyMapErr (policyMapOps st.1) writes = 0%nat →
   (∀ r', r' ≠ r → store st'.1 r' = store st.1 r') ∧
   ∀ k, store st'.1 r !! k =
        match (if decide (k ∈ l) then Get (desiredPolicy e) k else None) with
        | Some entry => Some entry
        | None => store st.1 r !! k
        end).
Proof.
  cbv zeta. revert st. induction l as [|k0 l IH]; intros st; cbn [foldl omap list_omap].
  { rewrite app_nil_r. split; [done|]. split; [cbn; lia|]. intros _.
    split; [done|]. intros k. rewrite decide_False; [done|]. apply not_elem_of_nil. }
  pose proof (applyAdd_step e st k0) as Hstep. cbv zeta in Hstep.
  specialize (IH (applyAdd policyMapErr e st k0)).
  destruct (Get (desiredPolicy e) k0) as [entry|] eqn:Hg; cbn [fmap option_fmap option_map];
    fold (@omap list _ _ _ (λ k, policyMapWrite k <$> Get (desiredPolicy e) k) l).
  - destruct Hstep as (Ho & He & Hs). destruct IH as (IHo & IHe & IHs).
    rewrite Ho in IHo, IHe, IHs. cbn [failedOps].
    split; [by rewrite IHo, <- app_assoc|]. split; [rewrite IHe, He; lia|].
    intros Hz.
    destruct (opFailed (policyMapWrite k0 entry)
                (policyMapErr (policyMapOps st.1) (policyMapWrite k0 entry)));
      [lia|].
    destruct IHs as [IHr IHk]; [lia|]. split.
    + intros r' Hr'. rewrite IHr, Hs by done. by rewrite fn_lookup_insert_ne.
    + intros k. rewrite IHk, Hs, fn_lookup_insert.
      destruct (decide (k ∈ l)) as [Hin|Hnin].
      * rewrite decide_True by (by apply elem_of_cons; right).
        destruct (Get (desiredPolicy e) k) eqn:Hk; [done|].
        destruct (decide (k = k0)) as [->|Hne]; [congruence|].
        by rewrite lookup_insert_ne.
      * destruct (decide (k = k0)) as [->|Hne].
        -- rewrite decide_True by (by apply elem_of_cons; left).
           by rewrite Hg, lookup_insert_eq.
        -- rewrite decide_False by (intros [?|?]%elem_of_cons; done).
           by rewrite lookup_insert_ne.
  - rewrite Hstep in IH |- *. destruct IH as (IHo & IHe & IHs).
    split; [done|]. split; [done|]. intros Hz. destruct (IHs Hz) as [IHr IHk].
    split; [done|]. intros k. rewrite IHk.
    destruct (decide (k ∈ l)) as [Hin|Hnin].
    + by rewrite decide_True by (by apply elem_of_cons; right).
    + destruct (decide (k = k0)) as [->|Hne].
      * rewrite decide_True by (by apply elem_of_cons; left). by rewrite Hg.
      * by rewrite decide_False by (intros [?|?]%elem_of_cons; done).
Qed.

(** The deletes of the second loop. *)
Lemma foldl_applyDelete e l st :
  let st' := foldl (applyDelete policyMapErr e) st l in
  let r := realizedMapStateMap e in
  let deletes := DeleteKey <$> l in
  policyMapOps st'.1 = policyMapOps st.1 ++ deletes ∧
  st'.2 = (st.2 + failedOps policyMapErr (policyMapOps st.1) deletes)%nat ∧
  (failedOps policyMapErr (policyMapOps st.1) deletes = 0%nat →
   (∀ r', r' ≠ r → store st'.1 r' = store st.1 r') ∧
   ∀ k, store st'.1 r !! k = if decide (k ∈ l) then None else store st.1 r !! k).
Proof.
  cbv zeta. revert st. induction l as [|k0 l IH]; intros st; cbn [foldl fmap list_fmap].
  { rewrite app_nil_r. split; [done|]. split; [cbn; lia|]. intros _.
    split; [done|]. intros k. rewrite decide_False; [done|]. apply not_elem_of_nil. }
  pose proof (applyDelete_step e st k0) as Hstep. cbv zeta in Hstep.
  specialize (IH (applyDelete policyMapErr e st k0)).
  destruct Hstep as (Ho & He & Hs). destruct IH as (IHo & IHe & IHs).
  rewrite Ho in IHo, IHe, IHs. cbn [failedOps].
  split; [by rewrite IHo, <- app_assoc|]. split; [rewrite IHe, He; lia|].
  intros Hz.
  destruct (opFailed (DeleteKey k0) (policyMapErr (policyMapOps st.1) (DeleteKey k0)));
    [lia|].
  destruct IHs as [IHr IHk]; [lia|]. split.
  - intros r' Hr'. rewrite IHr, Hs by done. by rewrite fn_lookup_insert_ne.
  - intros k. rewrite IHk, Hs, fn_lookup_insert.
    destruct (decide (k ∈ l)) as [Hin|Hnin].
    + by rewrite decide_True by (by apply elem_of_cons; right).
    + destruct (decide (k = k0)) as [->|Hne].
      * rewrite decide_True by (by apply elem_of_cons; left).
        by rewrite lookup_delete_eq.
      * rewrite decide_False by (intros [?|?]%elem_of_cons; done).
        by rewrite lookup_delete_ne.
Qed.
(** What a batch recorded into a fresh change state leaves: the added keys
    are present, the deleted keys are absent, and with no auth type
    propagated every other key has the datapath entry it had. *)
Lemma applyBatch_changes_track (ops : list BatchOp) (ms ms' : mapState)
    (changes' : ChangeState) :
  noAuthPropagation ops →
  applyBatch ops newChangeState ms = Ok (ms', changes') →
  ∃ a d, Adds changes' = Some a ∧ Deletes changes' = Some d ∧
         (∀ k, k ∈ a → is_Some (entries ms' !! k)) ∧
         (∀ k, k ∈ d → entries ms' !! k = None) ∧
         (∀ k, k ∉ a → k ∉ d → datapathEq (entries ms !! k) (entries ms' !! k)).
Proof.
  intros Hno (tr & Hrun & Htr)%applyBatch_trace.
  assert (changes_sound (ms', changes').1 (ms', changes').2) as Hs.
  { rewrite <- Hrun.
    apply (runSteps_ind (λ st, changes_sound st.1 st.2) (λ _, True));
      [|by apply Forall_true|].
    - intros st s _. apply runStep_changes_sound.
    - exists ∅, ∅. split; [done|]. split; [done|]. split; intros k Hk.
      + by apply elem_of_empty in Hk.
      + by apply elem_of_empty in Hk. }
  assert (∃ a d, Adds (ms', changes').2 = Some a ∧ Deletes (ms', changes').2 = Some d ∧
            ∀ k, k ∉ a → k ∉ d →
                 datapathEq (entries ms !! k) (entries (ms', changes').1 !! k)) as Ht.
  { rewrite <- Hrun.
    apply (runSteps_ind
             (λ st, ∃ a d, Adds st.2 = Some a ∧ Deletes st.2 = Some d ∧
                           ∀ k, k ∉ a → k ∉ d →
                                datapathEq (entries ms !! k) (entries st.1 !! k))
             (batchStep ops)); [|done|].
    - intros st s Hst. apply runStep_tracks. intros k a ->.
      destruct Hst as (key & entry & features & Hin & Hf & Hd & Hh).
      specialize (Hno key entry features Hin Hf Hd). congruence.
    - exists ∅, ∅. split; [done|]. split; [done|]. intros k _ _.
      apply datapathEq_refl. }
  destruct Hs as (a & d & Ha & Hd & Hin & Hout).
  destruct Ht as (a' & d' & Ha' & Hd' & Hrest). cbn [fst snd] in *.
  unfold Lookup in *. exists a, d. do 4 (split; [done|]).
  assert (a' = a) as -> by congruence. assert (d' = d) as -> by congruence.
  done.
Qed.

(** The realized map after the two loops when no operation failed. *)
Lemma applyPolicyMapChanges_store e changes w w' :
  applyPolicyMapChanges policyMapErr rangeKeys e false false changes w = (w', false) →
  (∀ r', r' ≠ realizedMapStateMap e → store w' r' = store w r') ∧
  ∀ k, store w' (realizedMapStateMap e) !! k =
       if decide (k ∈ keysOf (Deletes changes)) then None
       else match (if decide (k ∈ keysOf (Adds changes))
                   then Get (desiredPolicy e) k else None) with
            | Some entry => Some entry
            | None => store w (realizedMapStateMap e) !! k
            end.
Proof.
  unfold applyPolicyMapChanges. cbv zeta.
  set (la := rangeKeys (keysOf (Adds changes))).
  set (ld := rangeKeys (keysOf (Deletes changes))).
  set (st1 := foldl (applyAdd policyMapErr e) (w, 0%nat) la).
  intros [= Hw Herr]. apply bool_decide_eq_false in Herr.
  destruct (foldl_applyAdd e la (w, 0%nat)) as (_ & He1 & Hs1).
  destruct (foldl_applyDelete e ld st1) as (_ & He2 & Hs2).
  fold st1 in He1, Hs1. cbn [fst snd] in He1, Hs1.
  destruct Hs1 as [Hr1 Hk1]; [lia|]. destruct Hs2 as [Hr2 Hk2]; [lia|].
  rewrite Hw in Hr2, Hk2. split.
  - intros r' Hr'. by rewrite Hr2, Hr1.
  - intros k. rewrite Hk2, Hk1.
    destruct (decide (k ∈ ld)) as [Hd|Hd],
             (decide (k ∈ keysOf (Deletes changes))) as [Hd'|Hd'];
      unfold ld in Hd; rewrite elem_of_rangeKeys in Hd; try done.
    destruct (decide (k ∈ la)) as [Ha|Ha],
             (decide (k ∈ keysOf (Adds changes))) as [Ha'|Ha'];
      unfold la in Ha; rewrite elem_of_rangeKeys in Ha; done.
Qed.

(** X23: apart from the proxy, [applyPolicyMapChanges] issues nothing for
    an endpoint without policy map or with a new policy.  Otherwise it
    issues one write for each key of [changes.Adds] that the desired
    policy has, with the entry of the desired policy, then one delete for
    each key of [changes.Deletes], all writes before all deletes; every
    operation is issued whichever of them fail, and an error is returned
    exactly when a write failed or a delete failed with an error other
    than "no such entry". *)
Theorem applyPolicyMapChanges_writes_before_deletes (e : Endpoint)
    (changes : ChangeState) (w : World) :
  (∀ hasNewPolicy,
     applyPolicyMapChanges policyMapErr rangeKeys e true hasNewPolicy changes w
     = (w, false)) ∧
  applyPolicyMapChanges policyMapErr rangeKeys e false true changes w = (w, false) ∧
  let res := applyPolicyMapChanges policyMapErr rangeKeys e false false changes w in
  ∃ writes deletes,
    policyMapOps res.1 = policyMapOps w ++ writes ++ deletes ∧
    Forall (λ op, ∃ entry, Get (desiredPolicy e) (opKey op) = Some entry ∧
                           op = policyMapWrite (opKey op) entry) writes ∧
    Forall (λ op, op = DeleteKey (opKey op)) deletes ∧
    NoDup (opKey <$> writes) ∧ NoDup (opKey <$> deletes) ∧
    (∀ k, k ∈ opKey <$> writes ↔
          k ∈ keysOf (Adds changes) ∧ is_Some (Get (desiredPolicy e) k)) ∧
    (∀ k, k ∈ opKey <$> deletes ↔ k ∈ keysOf (Deletes changes)) ∧
    res.2 = bool_decide
              (0 < failedOps policyMapErr (policyMapOps w) (writes ++ deletes))%nat.
Proof.
  split; [done|]. split; [done|]. unfold applyPolicyMapChanges. cbv zeta.
  set (la := rangeKeys (keysOf (Adds changes))).
  set (ld := rangeKeys (keysOf (Deletes changes))).
  set (st1 := foldl (applyAdd policyMapErr e) (w, 0%nat) la).
  destruct (foldl_applyAdd e la (w, 0%nat)) as (Ho1 & He1 & _).
  destruct (foldl_applyDelete e ld st1) as (Ho2 & He2 & _).
  fold st1 in Ho1, He1. cbn [fst snd] in *.
  set (writes := omap (λ k, policyMapWrite k <$> Get (desiredPolicy e) k) la) in *.
  exists writes, (DeleteKey <$> ld).
  assert (∀ l : list Key,
            opKey <$> omap (λ k, policyMapWrite k <$> Get (desiredPolicy e) k) l
               = filter (λ k, is_Some (Get (desiredPolicy e) k)) l) as Hkeys.
  { induction l as [|k l IH]; [done|]. cbn [omap list_omap].
    rewrite filter_cons.
    destruct (Get (desiredPolicy e) k) as [entry|] eqn:Hg;
      cbn [fmap option_fmap option_map].
    - rewrite decide_True by eauto. cbn [fmap list_fmap].
      rewrite opKey_policyMapWrite. f_equal. exact IH.
    - rewrite decide_False by (by intros [? ?]). exact IH. }
  assert (opKey <$> (DeleteKey <$> ld) = ld) as Hdk.
  { rewrite <- list_fmap_compose. apply list_fmap_id. }
  split; [by rewrite Ho2, Ho1, app_assoc|]. split; [|split; [|split; [|split; [|split; [|split]]]]].
  - apply list.Forall_forall. intros op Hop. unfold writes in Hop.
    apply list_elem_of_omap in Hop as (k & _ & Hk).
    destruct (Get (desiredPolicy e) k) as [entry|] eqn:Hg; [|done].
    cbn in Hk. injection Hk as <-. rewrite opKey_policyMapWrite. eauto.
  - apply list.Forall_forall. by intros op (k & -> & _)%list_elem_of_fmap.
  - unfold writes. rewrite Hkeys. apply list.NoDup_filter, NoDup_rangeKeys.
  - rewrite Hdk. apply NoDup_rangeKeys.
  - intros k. unfold writes. rewrite Hkeys, list_elem_of_filter.
    unfold la. rewrite elem_of_rangeKeys. tauto.
  - intros k. rewrite Hdk. apply elem_of_rangeKeys.
  - rewrite He2, He1, failedOps_app, Ho1. done.
Qed.

(** X24: when [applyPolicyMapChanges] returns no error for an endpoint
    with a policy map and no new policy, the realized map of the endpoint
    has afterwards no key of [changes.Deletes]; every other key of
    [changes.Adds] that the desired policy has carries the entry of the
    desired policy; every remaining key is as it was, and no other map
    is changed.  A key in both sets ends up deleted. *)
Theorem applyPolicyMapChanges_realized (e : Endpoint) (changes : ChangeState)
    (w w' : World) :
  applyPolicyMapChanges policyMapErr rangeKeys e false false changes w = (w', false) →
  (∀ r', r' ≠ realizedMapStateMap e → store w' r' = store w r') ∧
  ∀ k, store w' (realizedMapStateMap e) !! k =
       if decide (k ∈ keysOf (Deletes changes)) then None
       else match (if decide (k ∈ keysOf (Adds changes))
                   then Get (desiredPolicy e) k else None) with
            | Some entry => Some entry
            | None => store w (realizedMapStateMap e) !! k
            end.
Proof. apply applyPolicyMapChanges_store. Qed.

(** X25: incremental updates keep the realized map in sync.  Let the
    realized map of the endpoint be equal ([Equals]) to the desired map
    state; let a batch of insertions and deletions that propagates no auth
    type be applied to the desired map state, recorded into a fresh change
    state; and let [applyPolicyMapChanges] apply the recorded changes
    without error.  Then the realized map is again equal to the desired
    map state. *)
Theorem incremental_update_in_sync (e : Endpoint) (ops : list BatchOp)
    (ms : mapState) (changes : ChangeState) (w w' : World) :
  Equals ms (store w (realizedMapStateMap e)) = true →
  noAuthPropagation ops →
  applyBatch ops newChangeState ms = Ok (desiredPolicy e, changes) →
  applyPolicyMapChanges policyMapErr rangeKeys e false false changes w = (w', false) →
  Equals (desiredPolicy e) (store w' (realizedMapStateMap e)) = true.
Proof.
  intros Heq Hno Hbatch Happly.
  destruct (applyBatch_changes_track ops ms _ _ Hno Hbatch)
    as (a & d & Ha & Hd & Hin & Hout & Hrest).
  destruct (applyPolicyMapChanges_store e changes w w' Happly) as [_ Hk].
  rewrite Ha, Hd in Hk. cbn [keysOf] in Hk.
  set (R := store w (realizedMapStateMap e)) in *.
  set (R' := store w' (realizedMapStateMap e)) in *.
  unfold Equals, Len in Heq |- *.
  apply (size_forallb_lookup (λ vB vA, Equal vB (Exported vA))) in Heq
    as [Hdom Hall].
  apply (size_forallb_lookup (λ vB vA, Equal vB (Exported vA))).
  assert (∀ k, match entries (desiredPolicy e) !! k, R' !! k with
               | Some vA, Some vB => Equal vB (Exported vA) = true
               | None, None => True
               | _, _ => False
               end) as Hpt.
  { intros k. rewrite Hk. unfold Get, get, Lookup. cbn [snd].
    destruct (decide (k ∈ d)) as [Hkd|Hkd]; [by rewrite Hout|].
    destruct (decide (k ∈ a)) as [Hka|Hka].
    - destruct (Hin k Hka) as [v Hv]. rewrite Hv. cbn. apply Equal_refl.
    - specialize (Hrest k Hka Hkd). unfold datapathEq in Hrest.
      destruct (entries ms !! k) as [v0|] eqn:H0;
        destruct (entries (desiredPolicy e) !! k) as [v1|] eqn:H1; try done; cbn.
      + assert (is_Some (R !! k)) as [vB HB].
        { apply elem_of_dom. rewrite <- Hdom. apply elem_of_dom. eauto. }
        rewrite HB. specialize (Hall k v0 vB H0 HB).
        rewrite !Equal_iff in *. destruct Hall as (? & ? & ?).
        destruct Hrest as (? & ? & ?). repeat split; congruence.
      + destruct (R !! k) as [vB|] eqn:HB; [|done].
        assert (is_Some (entries ms !! k)) as [? ?]; [|congruence].
        apply elem_of_dom. rewrite Hdom. apply elem_of_dom. eauto. }
  split.
  - apply set_eq. intros k. rewrite !elem_of_dom. specialize (Hpt k).
    destruct (entries (desiredPolicy e) !! k), (R' !! k); try done;
      split; try (intros [? ?]; done); eauto.
  - intros k vA vB HA HB. specialize (Hpt k). by rewrite HA, HB in Hpt.
Qed.
End IncrementalUpdateProofs.

(** *** The diffs of the full synchronisation *)

Section SyncDiffs.
Variable policyMapErr : list PolicyMapOp → PolicyMapOp → option PolicyMapError.
Variable rangeOrder : ∀ V : Type, gmap Key V → list (Key * V).

Lemma sync_inv_snoc e w0 wd cs st w2 c (ok : bool) :
  sync_inv policyMapErr e w0 wd cs st →
  changeOf e c →
  policyMapOps w2 = policyMapOps (world st) ++ [changeOp c] →
  ok = negb (opFailed (changeOp c) (policyMapErr (policyMapOps (world st)) (changeOp c))) →
  sync_inv policyMapErr e w0 wd (cs ++ [c])
    (mkSyncState w2 (if ok then errors st else S (errors st)) (S (diffCount st))
       (if wd then diffs st ++ [c] else diffs st)).
Proof.
  intros (Ho & He & Hn & Hd & Hc) Hcc Hw2 Hok. unfold sync_inv.
  cbn [world errors diffCount diffs]. rewrite fmap_app. cbn [fmap list_fmap].
  split; [by rewrite Hw2, Ho, <- app_assoc|]. split; [|split; [|split]].
  - rewrite failedOps_app. cbn [failedOps]. rewrite <- Ho, <- He, Hok.
    destruct (opFailed _ _); cbn [negb]; lia.
  - rewrite length_app, Hn. cbn. lia.
  - rewrite Hd. by destruct wd.
  - apply Forall_app. split; [done|]. by apply Forall_singleton.
Qed.

Lemma syncAdd_inv e r wd w0 cs st kv :
  entries (desiredPolicy e) !! kv.1 = Some kv.2 →
  sync_inv policyMapErr e w0 wd cs st →
  ∃ cs', sync_inv policyMapErr e w0 wd cs' (syncAdd policyMapErr e r wd st kv).
Proof.
  intros Hkv Hinv. unfold syncAdd. cbv zeta.
  destruct (differs (store (world st) r) kv.1 (Exported kv.2)); [|by exists cs].
  exists (cs ++ [mkMapChange true kv.1 (Exported kv.2)]).
  unfold addPolicyKey, issue. cbn [policyMapOps writeMap].
  set (op := policyMapWrite kv.1 (Exported kv.2)).
  assert (changeOp (mkMapChange true kv.1 (Exported kv.2)) = op) as Hop by done.
  assert (changeOf e (mkMapChange true kv.1 (Exported kv.2))) as Hc.
  { unfold changeOf, Get, get, Lookup. cbn. by rewrite Hkv. }
  assert (∀ err, opFailed op (Some err) = true) as Hf.
  { intros err. unfold op, policyMapWrite.
    destruct (IsDeny (Exported kv.2)); by destruct err. }
  destruct (policyMapErr (policyMapOps (world st)) op) as [err|] eqn:Herr.
  - apply (sync_inv_snoc e w0 wd cs st _ _ false); [done|done|by rewrite Hop|].
    by rewrite Hop, Herr, Hf.
  - apply (sync_inv_snoc e w0 wd cs st _ _ true); [done|done|by rewrite Hop|].
    by rewrite Hop, Herr.
Qed.

Lemma syncDelete_inv e r wd w0 cs st k :
  sync_inv policyMapErr e w0 wd cs st →
  ∃ cs', sync_inv policyMapErr e w0 wd cs' (syncDelete policyMapErr e r wd st k).
Proof.
  intros Hinv. unfold syncDelete.
  destruct (Get (desiredPolicy e) k) eqn:Hg; [by exists cs|].
  exists (cs ++ [mkMapChange false k zeroMapStateEntry]). cbv zeta.
  unfold deletePolicyKey, issue. cbn [policyMapOps deleteMap store].
  assert (changeOf e (mkMapChange false k zeroMapStateEntry)) as Hc.
  { unfold changeOf. by cbn. }
  set (w1 := mkWorld _ (policyMapOps (world st) ++ [DeleteKey k])).
  assert (∀ x : bool * World,
            x = match store w1 (realizedMapStateMap e) !! k with
                | Some _ => (true, deleteMap (realizedMapStateMap e) k w1)
                | None => (true, w1)
                end →
            x.1 = true ∧
            policyMapOps x.2 = policyMapOps (world st) ++ [DeleteKey k]) as Hx.
  { intros x ->. by destruct (store w1 (realizedMapStateMap e) !! k). }
  destruct (policyMapErr (policyMapOps (world st)) (DeleteKey k)) as [[|]|] eqn:Herr.
  - destruct (Hx _ eq_refl) as [H1 H2].
    destruct (match store w1 (realizedMapStateMap e) !! k with
              | Some _ => _ | None => _ end) as [ok w2].
    cbn [fst snd] in *. subst ok.
    apply (sync_inv_snoc e w0 wd cs st _ _ true); [done|done|done|].
    cbn [changeOp Add ChangeKey]. by rewrite Herr.
  - apply (sync_inv_snoc e w0 wd cs st _ _ false); [done|done|done|].
    cbn [changeOp Add ChangeKey]. by rewrite Herr.
  - destruct (Hx _ eq_refl) as [H1 H2].
    destruct (match store w1 (realizedMapStateMap e) !! k with
              | Some _ => _ | None => _ end) as [ok w2].
    cbn [fst snd] in *. subst ok.
    apply (sync_inv_snoc e w0 wd cs st _ _ true); [done|done|done|].
    cbn [changeOp Add ChangeKey]. by rewrite Herr.
Qed.

Lemma foldl_inv {A S} (f : S → A → S) (P : A → Prop) (I : S → Prop) l st :
  (∀ st x, P x → I st → I (f st x)) → Forall P l → I st → I (foldl f st l).
Proof.
  intros Hstep. revert st. induction l as [|x l IH]; intros st Hl Hst; [done|].
  apply list.Forall_cons in Hl as [Hx Hl]. cbn. apply IH; [done|]. by apply Hstep.
Qed.

Lemma foldl_id {A S} (f : S → A → S) l st :
  Forall (λ x, f st x = st) l → foldl f st l = st.
Proof.
  induction l as [|x l IH]; [done|]. intros [Hx Hl]%list.Forall_cons.
  cbn. rewrite Hx. by apply IH.
Qed.

Hypothesis rangeOrder_perm : ∀ V (m : gmap Key V), rangeOrder V m ≡ₚ map_to_list m.

(** X26: [syncPolicyMapWith] returns as [diffCount] the number of
    operations it issued to the external policy map, and an error exactly
    when one of them failed (a delete failing with "no such entry" does not
    count).  With [withDiffs] the returned diffs name these operations in
    the order issued: an addition carries a key of the desired policy with
    its entry, a deletion a key that the desired policy does not have with
    the zero entry; without [withDiffs] no diffs are returned.  When the
    desired map state already equals the realized map nothing is issued
    and nothing changes. *)
Theorem syncPolicyMapWith_diffs (e : Endpoint) (realized : MapRef) (withDiffs : bool)
    (w : World) :
  let res := syncPolicyMapWith policyMapErr rangeOrder e realized withDiffs w in
  (∃ cs : list MapChange,
     policyMapOps res.1 = policyMapOps w ++ (changeOp <$> cs) ∧
     res.2.1.1 = length cs ∧
     res.2.1.2 = (if withDiffs then cs else []) ∧
     res.2.2 = bool_decide
                 (0 < failedOps policyMapErr (policyMapOps w) (changeOp <$> cs))%nat ∧
     Forall (changeOf e) cs) ∧
  (Equals (desiredPolicy e) (store w realized) = true → res = (w, (0%nat, [], false))).
Proof.
  cbv zeta. unfold syncPolicyMapWith. cbv zeta. cbn [fst snd].
  set (l := rangeOrder mapStateEntry (entries (desiredPolicy e))).
  set (st0 := mkSyncState w 0 0 []).
  set (st1 := foldl (syncAdd policyMapErr e realized withDiffs) st0 l).
  set (ks := (rangeOrder MapStateEntry (store (world st1) realized)).*1).
  split.
  - assert (∃ cs, sync_inv policyMapErr e w withDiffs cs st1) as [cs1 H1].
    { apply (foldl_inv _ (λ kv, entries (desiredPolicy e) !! kv.1 = Some kv.2)
               (λ st, ∃ cs, sync_inv policyMapErr e w withDiffs cs st)).
      - intros st kv Hkv [cs Hcs]. by eapply syncAdd_inv.
      - apply list.Forall_forall. intros [k v] Hin. unfold l in Hin.
        rewrite rangeOrder_perm in Hin. by apply elem_of_map_to_list in Hin.
      - exists []. unfold sync_inv, st0. cbn. rewrite app_nil_r.
        do 3 (split; [done|]). split; [by destruct withDiffs|done]. }
    assert (∃ cs, sync_inv policyMapErr e w withDiffs cs
                    (foldl (syncDelete policyMapErr e realized withDiffs) st1 ks))
      as [cs (Ho & He & Hn & Hd & Hc)].
    { apply (foldl_inv _ (λ _, True) (λ st, ∃ cs, sync_inv policyMapErr e w withDiffs cs st)).
      - intros st k _ [cs Hcs]. by eapply syncDelete_inv.
      - by apply Forall_true.
      - by exists cs1. }
    exists cs. rewrite He. done.
  - intros Heq. unfold Equals, Len in Heq.
    apply (size_forallb_lookup (λ vB vA, Equal vB (Exported vA))) in Heq
      as [Hdom Hall].
    assert (st1 = st0) as Hst1.
    { apply foldl_id, list.Forall_forall. intros [k v] Hin. unfold l in Hin.
      rewrite rangeOrder_perm in Hin. apply elem_of_map_to_list in Hin.
      unfold syncAdd. cbv zeta. cbn [fst snd world st0].
      assert (is_Some (store w realized !! k)) as [vB HB].
      { apply elem_of_dom. rewrite <- Hdom. apply elem_of_dom. eauto. }
      unfold differs. rewrite HB, (Hall k v vB Hin HB). done. }
    unfold ks. rewrite Hst1.
    rewrite foldl_id; [done|]. apply list.Forall_forall. intros k Hin.
    apply list_elem_of_fmap in Hin as ([k' vB] & -> & Hin).
    rewrite rangeOrder_perm in Hin. apply elem_of_map_to_list in Hin.
    cbn [world st0 fst] in *.
    assert (is_Some (entries (desiredPolicy e) !! k')) as [v Hv].
    { apply elem_of_dom. rewrite Hdom. apply elem_of_dom. eauto. }
    unfold syncDelete, Get, get, Lookup. cbn [snd]. by rewrite Hv.
Qed.
End SyncDiffs.

(** *** Entries written without or with the precedence engine *)

Lemma upsert_id k e ms : entries ms !! k = Some e → upsert k e ms = ms.
Proof.
  intros Hk. unfold upsert. rewrite Hk, insert_id by done. by destruct ms.
Qed.


Section LocalhostProofs.
Variable ReservedIdentityHost : N.

End LocalhostProofs.

(** *** The properties at the scenarios *)

Lemma ParseProxyID_ProxyID_witness :
  ParseProxyID (ProxyID 42 true "TCP" 8080 "envoy")
  = (42, true, "TCP", 8080, "envoy", None).
Proof.
  destruct (ParseProxyID_ProxyID 42 true "TCP" 8080 "envoy" 15001) as [H _];
    [lia|lia|reflexivity|reflexivity|exact H].
Defined.

Lemma ProxyID_unique_witness :
  42 = 42 ∧ true = true ∧ "TCP" = "TCP" ∧ 8080 = 8080 ∧ "envoy" = "envoy".
Proof.
  apply (ProxyID_unique 42 42 true true "TCP" "TCP" 8080 8080 "envoy" "envoy");
    [lia|lia|lia|lia|reflexivity..].
Defined.

Lemma ParseProxyID_colon_witness :
  ParseProxyID (ProxyID 42 true "T:CP" 8080 "envoy")
  = (0, false, EmptyString, 0, EmptyString,
     Some (InvalidProxyIDStructure (ProxyID 42 true "T:CP" 8080 "envoy"))).
Proof.
  apply (ParseProxyID_colon 42 true "T:CP" 8080 "envoy"). left. reflexivity.
Defined.


Lemma consumeMapChanges_realized_witness :
  let mc := mkMapChanges 0 [] [mkmapChange true keyA2 unrealizedEntry] (Some 1) in
  let p := mkEndpointPolicy 7 ∅ stateA in
  ∃ mc' p' v changes',
    consumeMapChanges (λ _, "TCP") mc p allFeatures = Ok (mc', p', (v, changes')) ∧
    ∀ k e, Lookup (policyMapState p') k = Some e →
           ProxyPort (Exported e) ≠ unrealizedRedirectPort.
Proof.
  intros mc p.
  assert (∃ r, consumeMapChanges (λ _, "TCP") mc p allFeatures = Ok r)
    as [[[mc' p'] [v changes']] E] by (eexists; vm_compute; reflexivity).
  exists mc', p', v, changes'. split; [exact E|].
  apply (consumeMapChanges_realized (λ _, "TCP") mc mc' p p' allFeatures v changes');
    [| |exact E].
  - intros id port Hid. cbn [p Redirects] in Hid. rewrite lookup_empty in Hid.
    discriminate Hid.
  - intros k e Hk. cbn [p policyMapState] in Hk. unfold Lookup, stateA in Hk.
    rewrite entries_upsert in Hk. destruct (decide (keyA = k)) as [<-|Hne].
    + rewrite lookup_insert_eq in Hk. injection Hk as <-. discriminate.
    + rewrite lookup_insert_ne in Hk by exact Hne. cbn [newMapState entries] in Hk.
      rewrite lookup_empty in Hk. discriminate Hk.
Defined.

Lemma accumulate_sync_consume_witness :
  pending (SyncMapChanges N (λ txn v, v <? txn) (λ txn, txn) 1
             (AccumulateMapChanges [10] [] [keyD] allowEntry
                (mkMapChanges 0 [] [] None))) = [].
Proof.
  destruct (accumulate_sync_consume (λ _, "TCP") N (λ txn v, v <? txn) (λ txn, txn)
              (mkMapChanges 0 [] [] None) 1 [10] [] [keyD] allowEntry
              (mkEndpointPolicy 7 ∅ newMapState) allFeatures) as [H _];
    [reflexivity|reflexivity|discriminate|exact H].
Defined.

Lemma applyPolicyMapChanges_writes_before_deletes_witness :
  applyPolicyMapChanges (λ _ _, None) elements (mkEndpoint stateAD 0) false true
                        changesDA worldA = (worldA, false).
Proof.
  destruct (applyPolicyMapChanges_writes_before_deletes (λ _ _, None) elements
              (λ s, reflexivity (elements s)) (mkEndpoint stateAD 0) changesDA worldA)
    as (_ & H & _).
  exact H.
Defined.

Lemma applyPolicyMapChanges_realized_witness :
  let e := mkEndpoint stateD 0 in
  let res := applyPolicyMapChanges (λ _ _, None) elements e false false
                                   changesDA worldA in
  res.2 = false ∧ ∀ r', r' ≠ 0%nat → store res.1 r' = store worldA r'.
Proof.
  intros e res.
  assert (res.2 = false) as Hres by (vm_compute; reflexivity).
  split; [exact Hres|].
  destruct (applyPolicyMapChanges_realized (λ _ _, None) elements
              (λ s, reflexivity (elements s)) e changesDA worldA res.1) as [H _].
  - rewrite <- Hres. apply surjective_pairing.
  - exact H.
Defined.

Lemma incremental_update_in_sync_witness :
  let changes := mkChangeState (Some {[keyD]}) (Some {[keyA]})
                               (Some {[keyA := allowEntry]}) in
  let res := applyPolicyMapChanges (λ _ _, None) elements (mkEndpoint stateD 0)
                                   false false changes worldA in
  applyBatch [BatchInsert keyD denyEntry allFeatures] newChangeState stateA
    = Ok (stateD, changes) ∧
  res.2 = false ∧
  Equals stateD (store res.1 0%nat) = true.
Proof.
  intros changes res.
  assert (applyBatch [BatchInsert keyD denyEntry allFeatures] newChangeState stateA
          = Ok (stateD, changes)) as Hbatch by (vm_compute; reflexivity).
  assert (res.2 = false) as Hres by (vm_compute; reflexivity).
  split; [exact Hbatch|]. split; [exact Hres|].
  apply (incremental_update_in_sync (λ _ _, None) elements
           (λ s, reflexivity (elements s)) (mkEndpoint stateD 0)
           [BatchInsert keyD denyEntry allFeatures] stateA changes worldA res.1).
  - vm_compute. reflexivity.
  - intros key entry features Hin _ _.
    apply elem_of_cons in Hin as [Hin|Hin]; [injection Hin as _ -> _; reflexivity|].
    apply elem_of_nil in Hin. destruct Hin.
  - exact Hbatch.
  - rewrite <- Hres. apply surjective_pairing.
Defined.

Lemma syncPolicyMapWith_diffs_witness :
  let e := mkEndpoint (upsert keyA allowEntry newMapState) 0 in
  let w := mkWorld (λ _, {[keyD := Exported denyEntry]}) [] in
  let res := syncPolicyMapWith (λ _ _, None) (λ V, map_to_list) e 1 true w in
  (∃ cs : list MapChange,
     policyMapOps res.1 = policyMapOps w ++ (changeOp <$> cs) ∧
     res.2.1.1 = length cs ∧
     res.2.1.2 = cs ∧
     res.2.2 = bool_decide
                 (0 < failedOps (λ _ _, None) (policyMapOps w) (changeOp <$> cs))%nat ∧
     Forall (changeOf e) cs) ∧
  (Equals (desiredPolicy e) (store w 1%nat) = true → res = (w, (0%nat, [], false))).
Proof.
  intros e w.
  apply (syncPolicyMapWith_diffs (λ _ _, None) (λ V, map_to_list)).
  intros V m. reflexivity.
Defined.



(** *** Sticky entries *)

Lemma sticky_merge e entry : sticky e → sticky (merge e entry).
Proof.
  unfold sticky, merge. intros He. destruct (negb _); [done|].
  destruct (if negb (IsDeny (Exported e)) then _ else _) as [x prio].
  cbn [owners]. apply elem_of_union. by left.
Qed.

Lemma sticky_setAuthType v a : sticky v → sticky (setAuthType v a).
Proof. done. Qed.

(** X29: an entry made with a nil owner is sticky: nil is among its
    owners.  Merging another entry into a sticky entry leaves it sticky.
    [deleteKeyWithChanges] with an owner that is not nil never removes a
    sticky entry: the key stays, sticky, with the same exported entry.  Nor
    does the insertion of an allow entry with [insertWithChanges] remove a
    sticky entry or its stickiness. *)
Theorem sticky_entry_kept :
  (∀ derivedFrom proxyPort listener prio deny hasAuth authType,
     sticky (newMapStateEntry None derivedFrom proxyPort listener prio deny
                              hasAuth authType)) ∧
  (∀ e entry, sticky e → sticky (merge e entry)) ∧
  (∀ key (o : N) changes ms k v,
     Lookup ms k = Some v → sticky v →
     ∃ v', Lookup (deleteKeyWithChanges key (Some o) changes ms).1 k = Some v' ∧
           sticky v' ∧ Exported v' = Exported v) ∧
  (∀ key entry features changes ms ms' changes' k v,
     IsDeny (Exported entry) = false →
     insertWithChanges key entry features changes ms = Ok (ms', changes') →
     Lookup ms k = Some v → sticky v →
     ∃ v', Lookup ms' k = Some v' ∧ sticky v').
Proof.
  split; [|split; [|split]].
  - intros. unfold sticky, newMapStateEntry, NewSet.
    destruct (if proxyPort =? 0 then _ else _) as [l p]. cbn [owners].
    by apply elem_of_singleton.
  - apply sticky_merge.
  - intros key o changes ms k v Hk Hs. unfold Lookup in *.
    rewrite deleteKeyWithChanges_cases.
    destruct (entries ms !! key) as [entry|] eqn:Hkey; [|by exists v].
    cbv zeta. case_bool_decide as Ho; [|by exists v].
    assert ((0 <? size (owners entry ∖ {[Some o]}))%nat = true
            ∨ k ≠ key) as Hcase.
    { destruct (decide (k = key)) as [->|Hne]; [left|by right].
      assert (entry = v) as -> by congruence.
      apply Nat.ltb_lt. apply Nat.neq_0_lt_0. intros Hz%size_empty_inv.
      apply (not_elem_of_empty (C:=gset MapStateOwner) None). rewrite <- Hz.
      apply elem_of_difference. split; [done|]. by apply not_elem_of_singleton. }
    destruct (0 <? size _)%nat eqn:Hsz.
    + cbn [fst updateExisting entries].
      destruct (decide (k = key)) as [->|Hne].
      * rewrite lookup_insert_eq. assert (entry = v) as -> by congruence.
        eexists. split; [done|]. split; [|done]. unfold sticky. cbn [owners].
        apply elem_of_difference. split; [done|]. by apply not_elem_of_singleton.
      * rewrite lookup_insert_ne by done. by exists v.
    + destruct Hcase as [Hf|Hne]; [congruence|]. cbn [fst].
      rewrite entries_delete_key, lookup_delete_ne by done. by exists v.
  - intros key entry features changes ms ms' changes' k v Hallow Hins Hk Hs.
    unfold Lookup in *.
    apply insertWithChanges_trace in Hins as (tr & Hrun & Htr).
    change ms' with (ms', changes').1. rewrite <- Hrun.
    apply (runSteps_ind (λ st, ∃ v', entries st.1 !! k = Some v' ∧ sticky v')
             (insertStep ms key entry features)); [|done|by exists v].
    intros [ms1 ch1] s Hstep (v1 & Hv1 & Hs1). cbn [fst snd] in *.
    destruct s as [k0 e0|k0 owner|k0 a]; cbn [runStep fst snd].
    + destruct Hstep as [-> He0].
      assert (IsDeny (Exported e0) = false) as Hallow0.
      { destruct He0 as [->|(a & -> & _)]; done. }
      destruct (decide (k = key)) as [->|Hne].
      * rewrite addKeyWithChanges_cases, Hv1.
        case_bool_decide as Hpol.
        -- destruct (deepEqual e0 v1); cbn [fst snd]; [by exists v1|].
           cbn [updateExisting entries]. rewrite lookup_insert_eq.
           eexists. split; [done|]. by apply sticky_merge.
        -- rewrite Hallow0. by exists v1.
      * pose proof (addKeyWithChanges_entries_ne key e0 ch1 ms1 k Hne) as Hsame.
        destruct (addKeyWithChanges key e0 ch1 ms1) as [[b ms2] ch2].
        cbn [fst snd] in *. rewrite Hsame. by exists v1.
    + destruct Hstep as (_ & Hd & _). congruence.
    + unfold forKey. destruct (entries ms1 !! k0) as [v0|] eqn:Hk0; [|by exists v1].
      destruct (_ || _); [by exists v1|].
      unfold overrideAuthType. cbn [fst entries].
      destruct (decide (k = k0)) as [->|Hne].
      * rewrite lookup_insert_eq. eexists. split; [done|].
        assert (v0 = v1) as -> by congruence. done.
      * rewrite lookup_insert_ne by done. by exists v1.
Qed.
